(** * ShareHound (Go port): security-descriptor codecs, rights tables,
      graph store, graph-building context and the ShareQL rule engine.

    A shallow embedding of the parts of the repository that the properties
    below talk about.  Every definition is a transcription of the Go
    function of the same name; the file it comes from is named in the
    comment in front of it. *)

From Stdlib Require Import ZArith List Ascii Bool Lia.
From Stdlib Require Import Strings.Byte.
From Stdlib Require Import DecimalString DecimalN SpecFloat Permutation.
From stdpp Require Import gmap strings.

Import ListNotations.
Local Open Scope Z_scope.
Set Warnings "-register-all,-clear-no-such-hyp".

(** ** Go runtime and standard-library helpers

    Go strings and [[]byte] are byte sequences.  Text is a Rocq [string]
    (one [ascii] per byte), binary buffers are [list byte]. *)

Module gort.

(** Outcome of a Go function with an [error] result. *)
Inductive result (A : Type) : Type :=
| Ok (a : A)
| Err (msg : string).
Arguments Ok {A} a.
Arguments Err {A} msg.

Definition is_ok {A} (r : result A) : bool :=
  match r with Ok _ => true | Err _ => false end.

(** [%d] of [fmt]. *)
Definition fmt_d (z : Z) : string :=
  if z <? 0
  then "-" +:+ NilZero.string_of_uint (N.to_uint (Z.to_N (- z)))
  else NilZero.string_of_uint (N.to_uint (Z.to_N z)).

(** [uint8(b)], and [len(x)] as a Go [int]. *)
Definition u8 (b : byte) : Z := Z.of_N (Byte.to_N b).
Definition len {A} (l : list A) : Z := Z.of_nat (List.length l).

(** [data[off:]] and [data[lo:hi]]; every use below sits under the
    length check that keeps the Go slice expression in range. *)
Definition from (off : Z) (data : list byte) : list byte :=
  skipn (Z.to_nat off) data.
Definition slice (lo hi : Z) (data : list byte) : list byte :=
  firstn (Z.to_nat (hi - lo)) (skipn (Z.to_nat lo) data).
Definition at_ (i : Z) (data : list byte) : Z :=
  u8 (nth (Z.to_nat i) data x00).

(** [binary.LittleEndian.Uint16] and [Uint32]. *)
Definition Uint16 (b : list byte) : Z :=
  Z.lor (at_ 0 b) (Z.shiftl (at_ 1 b) 8).
Definition Uint32 (b : list byte) : Z :=
  Z.lor (Z.lor (Z.lor (at_ 0 b) (Z.shiftl (at_ 1 b) 8))
               (Z.shiftl (at_ 2 b) 16))
        (Z.shiftl (at_ 3 b) 24).

(** The order in which one [for k, v := range m] statement visits the
    entries of a Go map.  The language leaves it unspecified and the
    runtime picks a fresh one for every loop, so a loop over a map is
    modelled as a loop over some permutation [order] of its entries,
    supplied by the caller of the model. *)
Definition MapRange {K V} (m order : list (K * V)) : Prop :=
  Permutation m order.

End gort.
Export gort.

(** ** Package smb: SIDs (unnamed/part_004) *)

Module smb.

Record SID := mkSID {
  Revision : Z;                      (* uint8 *)
  SubAuthorityCount : Z;             (* uint8 *)
  IdentifierAuthority : list byte;   (* [6]byte *)
  SubAuthorities : list Z            (* []uint32 *)
}.

(** [ParseSID]. *)
Definition ParseSID (data : list byte) : result SID :=
  if len data <? 8 then
    Err ("SID data too short: " +:+ fmt_d (len data) +:+ " bytes")
  else
    let revision := at_ 0 data in
    let subAuthorityCount := at_ 1 data in
    let identifierAuthority := slice 2 8 data in
    let expectedLen := 8 + subAuthorityCount * 4 in
    if len data <? expectedLen then
      Err ("SID data too short for " +:+ fmt_d subAuthorityCount +:+ " sub-authorities")
    else
      Ok {| Revision := revision;
            SubAuthorityCount := subAuthorityCount;
            IdentifierAuthority := identifierAuthority;
            SubAuthorities :=
              map (fun i : nat =>
                     let offset := 8 + Z.of_nat i * 4 in
                     Uint32 (slice offset (offset + 4) data))
                  (seq 0 (Z.to_nat subAuthorityCount)) |}.

(** [SID.String], the canonical text [S-R-I-S1-...-Sn]; the
    receiver is a pointer and [None] is the nil pointer. *)
Definition SID_String (s : option SID) : string :=
  match s with
  | None => EmptyString
  | Some s =>
      let identAuth :=
        fold_left (fun acc b => Z.lor (Z.shiftl acc 8) (u8 b))
                  (IdentifierAuthority s) 0 in
      fold_left (fun sb sa => sb +:+ "-" +:+ fmt_d sa)
                (SubAuthorities s)
                ("S-" +:+ fmt_d (Revision s) +:+ "-" +:+ fmt_d identAuth)
  end.

(** ** ACEs, ACLs and descriptors (unnamed/part_003) *)

Definition SE_DACL_PRESENT : Z := 0x0004.
Definition SE_SACL_PRESENT : Z := 0x0010.

Definition ACCESS_ALLOWED_ACE_TYPE : Z := 0x00.
Definition ACCESS_DENIED_ACE_TYPE : Z := 0x01.
Definition SYSTEM_AUDIT_ACE_TYPE : Z := 0x02.
Definition SYSTEM_ALARM_ACE_TYPE : Z := 0x03.

Record ACE := mkACE {
  AceType : Z;          (* uint8 *)
  AceFlags : Z;         (* uint8 *)
  AceSize : Z;          (* uint16 *)
  Mask : Z;             (* uint32 *)
  AceSID : option SID   (* *SID *)
}.

Record ACL := mkACL {
  AclRevision : Z;
  AclSbz1 : Z;
  AclSize : Z;
  AceCount : Z;
  AclSbz2 : Z;
  Aces : list ACE
}.

Record SecurityDescriptor := mkSD {
  SdRevision : Z;
  SdSbz1 : Z;
  Control : Z;
  OwnerSID : option SID;
  GroupSID : option SID;
  Sacl : option ACL;
  Dacl : option ACL
}.

(** [ParseACE]: the ACE and its declared size. *)
Definition ParseACE (data : list byte) : result (ACE * Z) :=
  if len data <? 4 then Err "ACE header too short"
  else
    let aceType := at_ 0 data in
    let aceFlags := at_ 1 data in
    let aceSize := Uint16 (slice 2 4 data) in
    if len data <? aceSize then Err "ACE data too short"
    else if (aceType =? ACCESS_ALLOWED_ACE_TYPE)
            || (aceType =? ACCESS_DENIED_ACE_TYPE)
            || (aceType =? SYSTEM_AUDIT_ACE_TYPE)
            || (aceType =? SYSTEM_ALARM_ACE_TYPE) then
      if len data <? 8 then Err "ACE too short for mask"
      else
        let mask := Uint32 (slice 4 8 data) in
        let sid :=
          if 8 <? len data then
            match ParseSID (from 8 data) with
            | Ok sid => Some sid
            | Err _ => None
            end
          else None in
        Ok ({| AceType := aceType; AceFlags := aceFlags;
               AceSize := aceSize; Mask := mask; AceSID := sid |},
            aceSize)
    else
      Ok ({| AceType := aceType; AceFlags := aceFlags;
             AceSize := aceSize; Mask := 0; AceSID := None |},
          aceSize).

(** The loop of [ParseACL]:
    [for i := 0; i < int(acl.AceCount) && offset < len(data); i++].
    [remaining] is [AceCount - i]. *)
Fixpoint parseACEs (data : list byte) (remaining : nat) (offset : Z)
         (aces : list ACE) : list ACE :=
  match remaining with
  | O => aces
  | S remaining' =>
      if offset <? len data then
        match ParseACE (from offset data) with
        | Err _ => aces                                   (* break *)
        | Ok (ace, size) =>
            parseACEs data remaining' (offset + size) (aces ++ [ace])
        end
      else aces
  end.

(** [ParseACL]. *)
Definition ParseACL (data : list byte) : result ACL :=
  if len data <? 8 then
    Err ("ACL too short: " +:+ fmt_d (len data) +:+ " bytes")
  else
    let aceCount := Uint16 (slice 4 6 data) in
    Ok {| AclRevision := at_ 0 data;
          AclSbz1 := at_ 1 data;
          AclSize := Uint16 (slice 2 4 data);
          AceCount := aceCount;
          AclSbz2 := Uint16 (slice 6 8 data);
          Aces := parseACEs data (Z.to_nat aceCount) 8 [] |}.

(** [ParseSecurityDescriptor]. *)
Definition ParseSecurityDescriptor (data : list byte)
  : result SecurityDescriptor :=
  if len data <? 20 then
    Err ("security descriptor too short: " +:+ fmt_d (len data) +:+ " bytes")
  else
    let control := Uint16 (slice 2 4 data) in
    let offsetOwner := Uint32 (slice 4 8 data) in
    let offsetGroup := Uint32 (slice 8 12 data) in
    let offsetSacl := Uint32 (slice 12 16 data) in
    let offsetDacl := Uint32 (slice 16 20 data) in
    let sidAt (off : Z) : option SID :=
      if (0 <? off) && (off <? len data) then
        match ParseSID (from off data) with
        | Ok sid => Some sid
        | Err _ => None
        end
      else None in
    let aclAt (off present : Z) : option ACL :=
      if (0 <? off) && negb (Z.land control present =? 0)
         && (off <? len data) then
        match ParseACL (from off data) with
        | Ok acl => Some acl
        | Err _ => None
        end
      else None in
    Ok {| SdRevision := at_ 0 data;
          SdSbz1 := at_ 1 data;
          Control := control;
          OwnerSID := sidAt offsetOwner;
          GroupSID := sidAt offsetGroup;
          Sacl := aclAt offsetSacl SE_SACL_PRESENT;
          Dacl := aclAt offsetDacl SE_DACL_PRESENT |}.

(** [ACE.IsAccessAllowed]. *)
Definition IsAccessAllowed (a : ACE) : bool :=
  AceType a =? ACCESS_ALLOWED_ACE_TYPE.

(** ** Access-mask tables (unnamed/part_002) *)

Definition DS_CREATE_CHILD : Z := 0x00000001.
Definition DS_DELETE_CHILD : Z := 0x00000002.
Definition DS_LIST_CONTENTS : Z := 0x00000004.
Definition DS_WRITE_PROPERTY_EXTENDED : Z := 0x00000008.
Definition DS_READ_PROPERTY : Z := 0x00000010.
Definition DS_WRITE_PROPERTY : Z := 0x00000020.
Definition DS_DELETE_TREE : Z := 0x00000040.
Definition DS_LIST_OBJECT : Z := 0x00000080.
Definition DS_CONTROL_ACCESS : Z := 0x00000100.
Definition ACCESS_DELETE : Z := 0x00010000.
Definition ACCESS_READ_CONTROL : Z := 0x00020000.
Definition ACCESS_WRITE_DAC : Z := 0x00040000.
Definition ACCESS_WRITE_OWNER : Z := 0x00080000.
Definition GENERIC_ALL : Z := 0x10000000.
Definition GENERIC_EXECUTE : Z := 0x20000000.
Definition GENERIC_WRITE : Z := 0x40000000.
Definition GENERIC_READ : Z := 0x80000000.

Definition NTFS_GENERIC_READ : Z := 0x80000000.
Definition NTFS_GENERIC_WRITE : Z := 0x40000000.
Definition NTFS_GENERIC_EXECUTE : Z := 0x20000000.
Definition NTFS_GENERIC_ALL : Z := 0x10000000.
Definition NTFS_MAXIMUM_ALLOWED : Z := 0x02000000.
Definition NTFS_ACCESS_SYSTEM_SECURITY : Z := 0x01000000.
Definition NTFS_SYNCHRONIZE : Z := 0x00100000.
Definition NTFS_WRITE_OWNER : Z := 0x00080000.
Definition NTFS_WRITE_DACL : Z := 0x00040000.
Definition NTFS_READ_CONTROL : Z := 0x00020000.
Definition NTFS_DELETE : Z := 0x00010000.

(** [ShareRightsMapping], a Go [map[string]uint32]; the entries are
    listed in the order of the map literal. *)
Definition ShareRightsMapping : list (string * Z) :=
  [ ("CanDsCreateChild", DS_CREATE_CHILD);
    ("CanDsDeleteChild", DS_DELETE_CHILD);
    ("CanDsListContents", DS_LIST_CONTENTS);
    ("CanDsWriteExtendedProperties", DS_WRITE_PROPERTY_EXTENDED);
    ("CanDsReadProperty", DS_READ_PROPERTY);
    ("CanDsWriteProperty", DS_WRITE_PROPERTY);
    ("CanDsDeleteTree", DS_DELETE_TREE);
    ("CanDsListObject", DS_LIST_OBJECT);
    ("CanDsControlAccess", DS_CONTROL_ACCESS);
    ("CanDelete", ACCESS_DELETE);
    ("CanReadControl", ACCESS_READ_CONTROL);
    ("CanWriteDacl", ACCESS_WRITE_DAC);
    ("CanWriteOwner", ACCESS_WRITE_OWNER);
    ("CanGenericAll", GENERIC_ALL);
    ("CanGenericExecute", GENERIC_EXECUTE);
    ("CanGenericWrite", GENERIC_WRITE);
    ("CanGenericRead", GENERIC_READ) ].

(** [NTFSRightsMapping]. *)
Definition NTFSRightsMapping : list (string * Z) :=
  [ ("CanNTFSGenericRead", NTFS_GENERIC_READ);
    ("CanNTFSGenericWrite", NTFS_GENERIC_WRITE);
    ("CanNTFSGenericExecute", NTFS_GENERIC_EXECUTE);
    ("CanNTFSGenericAll", NTFS_GENERIC_ALL);
    ("CanNTFSMaximumAllowed", NTFS_MAXIMUM_ALLOWED);
    ("CanNTFSAccessSystemSecurity", NTFS_ACCESS_SYSTEM_SECURITY);
    ("CanNTFSSynchronize", NTFS_SYNCHRONIZE);
    ("CanNTFSWriteOwner", NTFS_WRITE_OWNER);
    ("CanNTFSWriteDacl", NTFS_WRITE_DACL);
    ("CanNTFSReadControl", NTFS_READ_CONTROL);
    ("CanNTFSDelete", NTFS_DELETE) ].

(** The body shared by the two lookups: range over the table in the
    order [order], append the kind of every flag present in [mask]. *)
Definition rangeRights (order : list (string * Z)) (mask : Z)
  : list string :=
  fold_left
    (fun rights '(edgeKind, flag) =>
       if Z.land mask flag =? 0 then rights else rights ++ [edgeKind])
    order [].

(** [GetShareRightsForMask]; [order] is the order in which this call's
    [range ShareRightsMapping] visits the table. *)
Definition GetShareRightsForMask (order : list (string * Z)) (mask : Z)
  : list string :=
  rangeRights order mask.

(** [GetNTFSRightsForMask]; [order] ranges over [NTFSRightsMapping]. *)
Definition GetNTFSRightsForMask (order : list (string * Z)) (mask : Z)
  : list string :=
  rangeRights order mask.

End smb.

(** ** Go packages [strings] and [path/filepath]

    The functions the repository calls, on byte strings.  Case mapping and
    white space are the ASCII ones: the Go functions agree with them on
    ASCII text and additionally map letters and spaces outside ASCII. *)

Module gostrings.

Definition chars (s : string) : list ascii := String.list_ascii_of_string s.
Definition text (l : list ascii) : string := String.string_of_list_ascii l.
Definition code (c : ascii) : Z := Z.of_N (N_of_ascii c).
Definition char (z : Z) : ascii := ascii_of_N (Z.to_N z).

(** [len(s)], [s[lo:hi]], [s[lo:]] and [s[i]]. *)
Definition slen (s : string) : Z := Z.of_nat (String.length s).
Definition sub (lo hi : Z) (s : string) : string :=
  String.substring (Z.to_nat lo) (Z.to_nat (hi - lo)) s.
Definition sfrom (lo : Z) (s : string) : string :=
  String.substring (Z.to_nat lo) (String.length s - Z.to_nat lo)%nat s.
Definition sat (i : Z) (s : string) : Z :=
  match String.get (Z.to_nat i) s with
  | Some c => code c
  | None => 0
  end.

Definition upperByte (c : ascii) : ascii :=
  if (97 <=? code c) && (code c <=? 122) then char (code c - 32) else c.
Definition lowerByte (c : ascii) : ascii :=
  if (65 <=? code c) && (code c <=? 90) then char (code c + 32) else c.

Definition ToUpper (s : string) : string := text (map upperByte (chars s)).
Definition ToLower (s : string) : string := text (map lowerByte (chars s)).

Definition isSpace (c : ascii) : bool :=
  (code c =? 32) || ((9 <=? code c) && (code c <=? 13)).

Fixpoint dropSpace (l : list ascii) : list ascii :=
  match l with
  | c :: l' => if isSpace c then dropSpace l' else l
  | [] => []
  end.

Definition TrimSpace (s : string) : string :=
  text (rev (dropSpace (rev (dropSpace (chars s))))).

Definition HasPrefix (s prefix : string) : bool := String.prefix prefix s.

Definition HasSuffix (s suffix : string) : bool :=
  (slen suffix <=? slen s)
  && String.eqb (sfrom (slen s - slen suffix) s) suffix.

Definition TrimPrefix (s prefix : string) : string :=
  if HasPrefix s prefix then sfrom (slen prefix) s else s.

Definition TrimSuffix (s suffix : string) : string :=
  if HasSuffix s suffix then sub 0 (slen s - slen suffix) s else s.

(** [strings.Index]: the first index of [substr] in [s], or [-1]. *)
Definition Index (s substr : string) : Z :=
  match String.index 0 substr s with
  | Some i => Z.of_nat i
  | None => -1
  end.

(** [strings.SplitN(s, sep, n)] for a non-empty [sep] and [n > 0]. *)
Fixpoint SplitN_from (fuel : nat) (s sep : string) (n : nat)
  : list string :=
  match fuel, n with
  | _, O => []
  | _, 1%nat => [s]
  | O, _ => [s]
  | S fuel', S n' =>
      let i := Index s sep in
      if i <? 0 then [s]
      else sub 0 i s :: SplitN_from fuel' (sfrom (i + slen sep) s) sep n'
  end.

Definition SplitN (s sep : string) (n : nat) : list string :=
  SplitN_from (String.length s) s sep n.

(** [strings.Split(s, sep)] for a non-empty [sep]. *)
Definition Split (s sep : string) : list string :=
  SplitN s sep (S (String.length s)).

Definition Join (parts : list string) (sep : string) : string :=
  match parts with
  | [] => EmptyString
  | p :: rest => fold_left (fun acc q => acc +:+ sep +:+ q) rest p
  end.

(** [strings.EqualFold] (ASCII folding). *)
Definition EqualFold (s t : string) : bool :=
  String.eqb (ToLower s) (ToLower t).

End gostrings.

Module filepath.
Import gostrings.

Definition isSep (c : ascii) : bool := code c =? 47.

Fixpoint dropSeps (l : list ascii) : list ascii :=
  match l with
  | c :: l' => if isSep c then dropSeps l' else l
  | [] => []
  end.

Fixpoint lastElem (l : list ascii) : list ascii :=
  match l with
  | c :: l' => if isSep c then [] else c :: lastElem l'
  | [] => []
  end.

(** [filepath.Base] with the Unix separator: trailing slashes are
    stripped, then everything up to the last slash is thrown away. *)
Definition Base (path : string) : string :=
  if String.eqb path EmptyString then "."
  else
    let stripped := dropSeps (rev (chars path)) in
    let last := rev (lastElem stripped) in
    match last with
    | [] => "/"
    | _ => text last
    end.

End filepath.

(** ** Package smb, continued: SID and ACE predicates (unnamed/part_004,
       unnamed/part_003) and the share-information response
       (sharehound-go/internal/smb/srvsvc.go) *)

Module smbaux.
Import smb gostrings.

(** [SID.Size]. *)
Definition Size (s : SID) : Z := 8 + SubAuthorityCount s * 4.

(** [SID.IsWellKnown]. *)
Definition IsWellKnown (s : option SID) : bool :=
  let str := SID_String s in
  HasPrefix str "S-1-5-32-"
  || String.eqb str "S-1-5-18"
  || String.eqb str "S-1-5-19"
  || String.eqb str "S-1-5-20".

(** [IsDomainSID]. *)
Definition IsDomainSID (sidString : string) : bool :=
  HasPrefix sidString "S-1-5-21-".

(** [SID.IsEveryone], [SID.IsBuiltinAdministrators] and
    [SID.IsLocalSystem]. *)
Definition IsEveryone (s : option SID) : bool :=
  String.eqb (SID_String s) "S-1-1-0".
Definition IsBuiltinAdministrators (s : option SID) : bool :=
  String.eqb (SID_String s) "S-1-5-32-544".
Definition IsLocalSystem (s : option SID) : bool :=
  String.eqb (SID_String s) "S-1-5-18".

(** [ACE.IsAccessDenied] and [ACE.HasMask]. *)
Definition IsAccessDenied (a : ACE) : bool :=
  AceType a =? ACCESS_DENIED_ACE_TYPE.
Definition HasMask (a : ACE) (flag : Z) : bool :=
  negb (Z.land (Mask a) flag =? 0).

Definition rpcResponse : Z := 2.

(** [calculateSDLength]: the four offsets are [uint32], the result is an
    [int]. *)
Definition calculateSDLength (data : list byte) : Z :=
  if len data <? 20 then 0
  else
    let ownerOffset := Uint32 (slice 4 8 data) in
    let groupOffset := Uint32 (slice 8 12 data) in
    let saclOffset := Uint32 (slice 12 16 data) in
    let daclOffset := Uint32 (slice 16 20 data) in
    let larger (maxOffset offset : Z) : Z :=
      if (0 <? offset) && (maxOffset <? offset) then offset
      else maxOffset in
    let maxOffset := 20 in
    let maxOffset := larger maxOffset ownerOffset in
    let maxOffset := larger maxOffset groupOffset in
    let maxOffset := larger maxOffset saclOffset in
    let maxOffset := larger maxOffset daclOffset in
    let estimate := maxOffset + 64 in
    if (20 <? maxOffset) && (maxOffset <? len data) then
      let remaining := from maxOffset data in
      if 8 <=? len remaining then
        if at_ 0 remaining =? 1 then
          let subAuthCount := at_ 1 remaining in
          maxOffset + 8 + subAuthCount * 4
        else if at_ 0 remaining =? 2 then
          let aclSize := Uint16 (slice 2 4 remaining) in
          maxOffset + aclSize
        else estimate
      else estimate
    else estimate.

(** The body of the loop of [extractSecurityDescriptor] at index [i]:
    the slice it returns, if it returns. *)
Definition descriptorAt (payload : list byte) (i : Z)
  : option (list byte) :=
  if (at_ i payload =? 0x01) && (at_ (i + 1) payload =? 0x00) then
    let control := Uint16 (from (i + 2) payload) in
    if negb (Z.land control 0x8004 =? 0) then
      match ParseSecurityDescriptor (from i payload) with
      | Ok sd =>
          match Dacl sd with
          | Some _ =>
              let sdLen := calculateSDLength (from i payload) in
              if (0 <? sdLen) && (i + sdLen <=? len payload)
              then Some (slice i (i + sdLen) payload)
              else None
          | None => None
          end
      | Err _ => None
      end
    else None
  else None.

(** The loop [for i := 0; i < len(payload)-20; i++]; [remaining] is the
    number of indices still to try. *)
Fixpoint extractLoop (payload : list byte) (remaining : nat) (i : Z)
  : result (list byte) :=
  match remaining with
  | O => Err "security descriptor not found in response"
  | S remaining' =>
      match descriptorAt payload i with
      | Some sd => Ok sd
      | None => extractLoop payload remaining' (i + 1)
      end
  end.

(** [extractSecurityDescriptor]. *)
Definition extractSecurityDescriptor (payload : list byte)
  : result (list byte) :=
  extractLoop payload (Z.to_nat (len payload - 20)) 0.

(** [parseShareInfoResponse].  The text of the third error carries the
    return code in hexadecimal; the model keeps its fixed part. *)
Definition parseShareInfoResponse (data : list byte) : result (list byte) :=
  if len data <? 24 then Err "response too short"
  else if negb (at_ 2 data =? rpcResponse) then
    Err ("unexpected response type: " +:+ fmt_d (at_ 2 data))
  else
    let payload := from 24 data in
    if len payload <? 8 then Err "payload too short"
    else
      let returnCode := Uint32 (from (len payload - 4) payload) in
      if (4 <=? len payload) && negb (returnCode =? 0) then
        Err "NetrShareGetInfo failed with code"
      else extractSecurityDescriptor payload.

End smbaux.

(** ** Package graph: nodes and edges (unnamed/part_007, part_005) *)

Module graph.
Import gostrings.

(** The values the collector stores in a property map. *)
Inductive PropValue :=
| PString (s : string)
| PInt (n : Z)
| PBool (b : bool).

Record Node := mkNode {
  ID : string;
  Kinds : list string;
  Properties : gmap string PropValue
}.

Record EdgeEndpoint := mkEndpoint {
  Value : string;
  MatchBy : string;
  EndpointKind : string
}.

Record Edge := mkEdge {
  Start : EdgeEndpoint;
  End_ : EdgeEndpoint;
  Kind : string;
  EdgeProperties : gmap string PropValue
}.

Definition NewNode (id : string) (kinds : list string) : Node :=
  {| ID := id; Kinds := kinds; Properties := ∅ |}.

Definition SetProperty (n : Node) (key : string) (value : PropValue)
  : Node :=
  {| ID := ID n; Kinds := Kinds n;
     Properties := <[key := value]> (Properties n) |}.

Definition NewEdge (startNodeID endNodeID kind : string) : Edge :=
  {| Start := {| Value := startNodeID; MatchBy := EmptyString; EndpointKind := EmptyString |};
     End_ := {| Value := endNodeID; MatchBy := EmptyString; EndpointKind := EmptyString |};
     Kind := kind;
     EdgeProperties := ∅ |}.

Definition SetStartMatchBy (e : Edge) (matchBy : string) : Edge :=
  {| Start := {| Value := Value (Start e); MatchBy := matchBy;
                 EndpointKind := EndpointKind (Start e) |};
     End_ := End_ e; Kind := Kind e;
     EdgeProperties := EdgeProperties e |}.

Definition SetEndMatchBy (e : Edge) (matchBy : string) : Edge :=
  {| Start := Start e;
     End_ := {| Value := Value (End_ e); MatchBy := matchBy;
                EndpointKind := EndpointKind (End_ e) |};
     Kind := Kind e;
     EdgeProperties := EdgeProperties e |}.

(** ** The disk-backed store (internal/graph/opengraph.go)

    [nodeFile] and [edgeFile] are the lines appended through [nodeBuf]
    and [edgeBuf], oldest first; a line is represented by the value
    whose JSON form it holds ([json.Marshal] cannot fail on the property
    values above).  The mutex is not modelled: every method runs as one
    step. *)
Record OpenGraph := mkOpenGraph {
  SourceKind : string;
  nodeIDs : gset string;
  edgeCount : Z;
  nodeFile : list Node;
  edgeFile : list Edge
}.

Definition NewOpenGraph (sourceKind : string) : OpenGraph :=
  {| SourceKind := sourceKind; nodeIDs := ∅; edgeCount := 0;
     nodeFile := []; edgeFile := [] |}.

(** [AddNode]. *)
Definition AddNode (g : OpenGraph) (node : Node) : OpenGraph :=
  if decide (ID node ∈ nodeIDs g) then g
  else {| SourceKind := SourceKind g;
          nodeIDs := {[ ID node ]} ∪ nodeIDs g;
          edgeCount := edgeCount g;
          nodeFile := nodeFile g ++ [node];
          edgeFile := edgeFile g |}.

Definition AddNodeWithoutValidation (g : OpenGraph) (node : Node)
  : OpenGraph := AddNode g node.

(** [AddEdge]. *)
Definition AddEdge (g : OpenGraph) (edge : Edge) : OpenGraph :=
  {| SourceKind := SourceKind g;
     nodeIDs := nodeIDs g;
     edgeCount := edgeCount g + 1;
     nodeFile := nodeFile g;
     edgeFile := edgeFile g ++ [edge] |}.

Definition AddEdgeWithoutValidation (g : OpenGraph) (edge : Edge)
  : OpenGraph := AddEdge g edge.

Definition GetNodeCount (g : OpenGraph) : Z := Z.of_nat (size (nodeIDs g)).
Definition GetEdgeCount (g : OpenGraph) : Z := edgeCount g.

(** The JSON document written by [streamJSON]: the optional metadata
    object and the two arrays, one element per line of the spill
    files. *)
Record Document := mkDocument {
  metadata : option string;
  nodes : list Node;
  edges : list Edge
}.

(** What [ExportToFileWithProgress] leaves in the output file: the raw
    document, or a zip archive given by its entries (name, content). *)
Inductive Artifact :=
| RawJSON (d : Document)
| ZipArchive (entries : list (string * Document)).

Definition streamJSON (sourceKind : string) (includeMetadata : bool)
           (nodeLines : list Node) (edgeLines : list Edge) : Document :=
  {| metadata :=
       if includeMetadata && negb (String.eqb sourceKind EmptyString)
       then Some sourceKind else None;
     nodes := nodeLines;
     edges := edgeLines |}.

(** [ExportToFileWithProgress] with a nil progress callback, on the
    path where no file operation fails. *)
Definition ExportToFileWithProgress (g : OpenGraph) (filename : string)
           (includeMetadata : bool) : Artifact :=
  if HasSuffix (ToLower filename) ".zip" then
    let baseName := filepath.Base filename in
    let jsonName := TrimSuffix baseName ".zip" in
    let jsonName :=
      if negb (HasSuffix jsonName ".json") then jsonName +:+ ".json"
      else jsonName in
    ZipArchive
      [ (jsonName,
         streamJSON (SourceKind g) includeMetadata
                    (nodeFile g) (edgeFile g)) ]
  else
    RawJSON (streamJSON (SourceKind g) includeMetadata
                        (nodeFile g) (edgeFile g)).

Definition ExportToFile (g : OpenGraph) (filename : string)
           (includeMetadata : bool) : Artifact :=
  ExportToFileWithProgress g filename includeMetadata.


(** [Node.GetStringProperty]. *)
Definition GetStringProperty (n : Node) (key : string) : string :=
  match Properties n !! key with
  | Some (PString s) => s
  | _ => EmptyString
  end.

(** [GetNode]: a scan of the node file for the first line with the id;
    the decoded line is the value it represents. *)
Definition GetNode (g : OpenGraph) (id : string) : option Node :=
  if decide (id ∈ nodeIDs g) then
    List.find (fun node => String.eqb (ID node) id) (nodeFile g)
  else None.

(** [GetNodesAndEdges]: the lines of the two spill files, decoded. *)
Definition GetNodesAndEdges (g : OpenGraph) : list Node * list Edge :=
  (nodeFile g, edgeFile g).

(** [RestoreNodesAndEdges]. *)
Definition RestoreNodesAndEdges (g : OpenGraph) (nodes : list Node)
           (edges : list Edge) : OpenGraph :=
  {| SourceKind := SourceKind g;
     nodeIDs := fold_left (fun ids node => {[ ID node ]} ∪ ids) nodes ∅;
     edgeCount := fold_left (fun count _ => count + 1) edges 0;
     nodeFile := nodes;
     edgeFile := edges |}.

(** [progressInterval]. *)
Definition progressInterval (total : Z) : Z :=
  if total <=? 0 then 1
  else
    let interval := total / 25 in
    if interval <? 1 then 1 else interval.

(** A call [progress(phase, current, total)]. *)
Definition ProgressCall : Type := string * Z * Z.

(** The calls [streamArray] makes to a non-nil [progress] while it copies
    [lines] lines. *)
Definition streamArrayCalls (lines : nat) (total reportInterval : Z)
           (phase : string) : list ProgressCall :=
  flat_map
    (fun idx : nat =>
       if (0 <? reportInterval) && (Z.of_nat idx mod reportInterval =? 0)
       then [(phase, Z.of_nat idx, total)] else [])
    (seq 1 lines).

(** The calls of [streamJSON]. *)
Definition streamJSONCalls (nodeLines edgeLines : nat)
           (nodeCount edgeCount : Z) : list ProgressCall :=
  [("Serializing nodes", 0, nodeCount)]
  ++ streamArrayCalls nodeLines nodeCount (progressInterval nodeCount)
                      "Serializing nodes"
  ++ [("Serializing nodes", nodeCount, nodeCount)]
  ++ [("Serializing edges", 0, edgeCount)]
  ++ streamArrayCalls edgeLines edgeCount (progressInterval edgeCount)
                      "Serializing edges"
  ++ [("Serializing edges", edgeCount, edgeCount)].

(** The calls of [ExportToFileWithProgress] with a non-nil callback, on
    the path where no file operation fails. *)
Definition ExportToFileWithProgressCalls (g : OpenGraph) (filename : string)
  : list ProgressCall :=
  let nodeCount := GetNodeCount g in
  let edgeCount := edgeCount g in
  let stream :=
    streamJSONCalls (List.length (nodeFile g)) (List.length (edgeFile g))
                    nodeCount edgeCount in
  [("Creating output file", 0, 0)]
  ++ (if HasSuffix (ToLower filename) ".zip" then
        [("Preparing ZIP archive", 0, 0)] ++ stream
        ++ [("Finalizing ZIP archive", 0, 0)]
      else stream)
  ++ [("Flushing to disk", 0, 0)].

End graph.

(** ** The graph-building context (unnamed/part_006)

    The context keeps a pointer to the store it writes to; the store is
    shared with every other context of the run, so it is threaded through
    the methods next to the context instead of being copied into it.
    Logger calls are left out. *)

Module ogc.
Import gostrings graph.

(** [ShareRights], a [map[string][]string]; [None] is the nil map. *)
Abbreviation ShareRights := (option (gmap string (list string))).

Record PathEntry := mkPathEntry {
  EntryNode : Node;
  Rights : ShareRights
}.

Record OpenGraphContext := mkContext {
  host : option Node;
  share : option Node;
  shareRights : ShareRights;
  path : list PathEntry;
  element : option Node;
  elementRights : ShareRights;
  totalEdgesCreated : Z;
  hostEdgeEmitted : bool;
  hostShareEmitted : bool;
  emittedPathNodes : gset string
}.

Definition NewOpenGraphContext : OpenGraphContext :=
  {| host := None; share := None; shareRights := Some ∅; path := [];
     element := None; elementRights := Some ∅; totalEdgesCreated := 0;
     hostEdgeEmitted := false; hostShareEmitted := false;
     emittedPathNodes := ∅ |}.

Definition SetHost (c : OpenGraphContext) (h : Node) :=
  {| host := Some h; share := share c; shareRights := shareRights c;
     path := path c; element := element c;
     elementRights := elementRights c;
     totalEdgesCreated := totalEdgesCreated c;
     hostEdgeEmitted := hostEdgeEmitted c;
     hostShareEmitted := hostShareEmitted c;
     emittedPathNodes := emittedPathNodes c |}.

Definition SetShare (c : OpenGraphContext) (s : Node) :=
  {| host := host c; share := Some s; shareRights := shareRights c;
     path := path c; element := element c;
     elementRights := elementRights c;
     totalEdgesCreated := totalEdgesCreated c;
     hostEdgeEmitted := hostEdgeEmitted c;
     hostShareEmitted := hostShareEmitted c;
     emittedPathNodes := emittedPathNodes c |}.

Definition SetShareRights (c : OpenGraphContext) (rights : ShareRights) :=
  {| host := host c; share := share c; shareRights := rights;
     path := path c; element := element c;
     elementRights := elementRights c;
     totalEdgesCreated := totalEdgesCreated c;
     hostEdgeEmitted := hostEdgeEmitted c;
     hostShareEmitted := hostShareEmitted c;
     emittedPathNodes := emittedPathNodes c |}.

Definition setPath (c : OpenGraphContext) (p : list PathEntry) :=
  {| host := host c; share := share c; shareRights := shareRights c;
     path := p; element := element c;
     elementRights := elementRights c;
     totalEdgesCreated := totalEdgesCreated c;
     hostEdgeEmitted := hostEdgeEmitted c;
     hostShareEmitted := hostShareEmitted c;
     emittedPathNodes := emittedPathNodes c |}.

Definition PushPath (c : OpenGraphContext) (node : Node)
           (rights : ShareRights) :=
  setPath c (path c ++ [ {| EntryNode := node; Rights := rights |} ]).

(** [PopPath]: the context without its last entry (the returned node
    is not used by any caller). *)
Definition PopPath (c : OpenGraphContext) :=
  match path c with
  | [] => c
  | _ => setPath c (removelast (path c))
  end.

Definition ClearPath (c : OpenGraphContext) := setPath c [].

Definition setElement (c : OpenGraphContext) (e : option Node)
           (rights : ShareRights) :=
  {| host := host c; share := share c; shareRights := shareRights c;
     path := path c; element := e; elementRights := rights;
     totalEdgesCreated := totalEdgesCreated c;
     hostEdgeEmitted := hostEdgeEmitted c;
     hostShareEmitted := hostShareEmitted c;
     emittedPathNodes := emittedPathNodes c |}.

Definition SetElement (c : OpenGraphContext) (e : Node) :=
  setElement c (Some e) (elementRights c).

Definition SetElementRights (c : OpenGraphContext) (rights : ShareRights) :=
  setElement c (element c)
             (match rights with None => Some ∅ | Some _ => rights end).

Definition ClearElement (c : OpenGraphContext) :=
  setElement c None (Some ∅).

(** The mutable part touched while edges are emitted. *)
Definition emitEdge (st : OpenGraphContext * OpenGraph) (e : Edge)
  : OpenGraphContext * OpenGraph :=
  let '(c, g) := st in
  ({| host := host c; share := share c; shareRights := shareRights c;
      path := path c; element := element c;
      elementRights := elementRights c;
      totalEdgesCreated := totalEdgesCreated c + 1;
      hostEdgeEmitted := hostEdgeEmitted c;
      hostShareEmitted := hostShareEmitted c;
      emittedPathNodes := emittedPathNodes c |},
   AddEdgeWithoutValidation g e).

(** [AddRightsToGraph]: one edge per (sid, kind) pair.  The outer loop
    ranges over a Go map; the model visits the keys in the order of
    [map_to_list]. *)
Definition AddRightsToGraph (st : OpenGraphContext * OpenGraph)
           (elementID : string) (rights : ShareRights)
  : OpenGraphContext * OpenGraph :=
  match rights with
  | None => st
  | Some rights =>
      fold_left
        (fun st '(sid, edgeKinds) =>
           fold_left
             (fun st edgeKind => emitEdge st (NewEdge sid elementID edgeKind))
             edgeKinds st)
        (map_to_list rights) st
  end.

Definition markHostEmitted (c : OpenGraphContext) :=
  {| host := host c; share := share c; shareRights := shareRights c;
     path := path c; element := element c;
     elementRights := elementRights c;
     totalEdgesCreated := totalEdgesCreated c;
     hostEdgeEmitted := true;
     hostShareEmitted := hostShareEmitted c;
     emittedPathNodes := emittedPathNodes c |}.

Definition markShareEmitted (c : OpenGraphContext) :=
  {| host := host c; share := share c; shareRights := shareRights c;
     path := path c; element := element c;
     elementRights := elementRights c;
     totalEdgesCreated := totalEdgesCreated c;
     hostEdgeEmitted := hostEdgeEmitted c;
     hostShareEmitted := true;
     emittedPathNodes := emittedPathNodes c |}.

Definition markPathNode (c : OpenGraphContext) (id : string) :=
  {| host := host c; share := share c; shareRights := shareRights c;
     path := path c; element := element c;
     elementRights := elementRights c;
     totalEdgesCreated := totalEdgesCreated c;
     hostEdgeEmitted := hostEdgeEmitted c;
     hostShareEmitted := hostShareEmitted c;
     emittedPathNodes := {[ id ]} ∪ emittedPathNodes c |}.

Definition addNode (st : OpenGraphContext * OpenGraph) (n : Node)
  : OpenGraphContext * OpenGraph :=
  (fst st, AddNodeWithoutValidation (snd st) n).

(** The loop [for _, entry := range c.path] of [AddPathToGraph]; the
    state carries [parentID]. *)
Fixpoint walkPath (entries : list PathEntry) (parentID : string)
         (st : OpenGraphContext * OpenGraph)
  : string * (OpenGraphContext * OpenGraph) :=
  match entries with
  | [] => (parentID, st)
  | entry :: rest =>
      let id := ID (EntryNode entry) in
      let st :=
        if decide (id ∈ emittedPathNodes (fst st)) then st
        else
          let st := (markPathNode (fst st) id, snd st) in
          let st := addNode st (EntryNode entry) in
          let st := AddRightsToGraph st id (Rights entry) in
          emitEdge st (NewEdge parentID id "Contains") in
      walkPath rest id st
  end.

(** [AddPathToGraph]. *)
Definition AddPathToGraph (st : OpenGraphContext * OpenGraph)
  : OpenGraphContext * OpenGraph :=
  match host (fst st) with
  | None => st
  | Some h =>
      let st :=
        if hostEdgeEmitted (fst st) then st
        else
          let st := (markHostEmitted (fst st), snd st) in
          let st := addNode st h in
          let hostEdge := NewEdge (ToUpper (ID h)) (ID h) "HostsNetworkShare" in
          let hostEdge := SetStartMatchBy hostEdge "name" in
          let hostEdge := SetEndMatchBy hostEdge "id" in
          emitEdge st hostEdge in
      match share (fst st) with
      | None => st
      | Some s =>
          let st :=
            if hostShareEmitted (fst st) then st
            else
              let st := (markShareEmitted (fst st), snd st) in
              let st := addNode st s in
              let st := AddRightsToGraph st (ID s) (shareRights (fst st)) in
              emitEdge st (NewEdge (ID h) (ID s) "HasNetworkShare") in
          let '(parentID, st) := walkPath (path (fst st)) (ID s) st in
          match element (fst st) with
          | None => st
          | Some e =>
              let st := addNode st e in
              let st := AddRightsToGraph st (ID e) (elementRights (fst st)) in
              emitEdge st (NewEdge parentID (ID e) "Contains")
          end
      end
  end.


(** [SetDirectoryRights]. *)
Definition SetDirectoryRights (c : OpenGraphContext) (rights : ShareRights) :=
  match rights, rev (path c) with
  | Some _, lastEntry :: before =>
      setPath c (rev before
                 ++ [ {| EntryNode := EntryNode lastEntry;
                         Rights := rights |} ])
  | _, _ => c
  end.

(** [GetStringPathFromRoot]. *)
Definition GetStringPathFromRoot (c : OpenGraphContext) : string :=
  Join (List.filter (fun name => negb (String.eqb name EmptyString))
                    (map (fun entry =>
                            GetStringProperty (EntryNode entry) "name")
                         (path c)))
       "\".

Definition GetTotalEdgesCreated (c : OpenGraphContext) : Z :=
  totalEdgesCreated c.

(** [BuildUNCPath]; [filepath.ToSlash] leaves the path alone where the
    separator is the slash. *)
Definition BuildUNCPath (host share path : string) : string :=
  let base := "\\" +:+ host +:+ "\" +:+ share in
  if String.eqb path EmptyString then base +:+ "\"
  else base +:+ "\" +:+ path.

End ogc.

(** ** Package collector (internal/collector/share_rights.go,
       internal/collector/ntfs_rights.go) *)

Module collector.
Import smb.

(** What the collectors see of an [*smb.SMBSession]: the results of the
    three descriptor queries.  [Err] is a non-nil [error]; the file query
    answers [Ok None] for its [(nil, nil)] result. *)
Record SMBSession := mkSession {
  GetShareSecurityDescriptor : string -> result (list byte);
  GetShareRootSecurityDescriptor : string -> result (list byte);
  GetFileSecurityDescriptor : string -> result (option SecurityDescriptor)
}.

(** The end of [SMBSession.GetFileSecurityDescriptor]
    (sharehound-go/internal/smb/session.go) once the query has answered
    with [sdBytes]: nothing for an empty answer, else the parsed
    descriptor. *)
Definition fileDescriptorOf (sdBytes : list byte)
  : result (option SecurityDescriptor) :=
  if len sdBytes =? 0 then Ok None
  else
    match ParseSecurityDescriptor sdBytes with
    | Ok sd => Ok (Some sd)
    | Err e => Err e
    end.

(** [err != nil || len(sdBytes) == 0]. *)
Definition unavailable (r : result (list byte)) : bool :=
  match r with
  | Err _ => true
  | Ok sdBytes => len sdBytes =? 0
  end.

(** [rights[sid] = append(rights[sid], edgeKinds...)]. *)
Definition appendRights (rights : gmap string (list string))
           (sid : string) (edgeKinds : list string)
  : gmap string (list string) :=
  <[ sid := default [] (rights !! sid) ++ edgeKinds ]> rights.

(** One iteration of the ACE loop of [CollectShareRights]; [order] is
    the order of this iteration's table lookup. *)
Definition shareRightsStep (order : list (string * Z))
           (rights : gmap string (list string)) (ace : ACE)
  : gmap string (list string) :=
  if negb (IsAccessAllowed ace) then rights
  else
    match AceSID ace with
    | None => rights
    | Some _ =>
        let sid := SID_String (AceSID ace) in
        if String.eqb sid EmptyString then rights
        else
          let edgeKinds := GetShareRightsForMask order (Mask ace) in
          if 0 <? len edgeKinds then appendRights rights sid edgeKinds
          else rights
    end.

(** The ACE loop; [orders i] is the table order met by the [i]-th ACE. *)
Fixpoint shareRightsLoop (orders : nat -> list (string * Z)) (i : nat)
         (aces : list ACE) (rights : gmap string (list string))
  : gmap string (list string) :=
  match aces with
  | [] => rights
  | ace :: rest =>
      shareRightsLoop orders (S i) rest
                      (shareRightsStep (orders i) rights ace)
  end.

(** [CollectShareRights]: the rights map and the returned error. *)
Definition CollectShareRights (smbSession : SMBSession)
           (shareName : string) (orders : nat -> list (string * Z))
  : gmap string (list string) * option string :=
  let rights : gmap string (list string) := ∅ in
  let first := GetShareSecurityDescriptor smbSession shareName in
  let '(chosen, usedFallback) :=
    if unavailable first
    then (GetShareRootSecurityDescriptor smbSession shareName, true)
    else (first, false) in
  if unavailable chosen then (rights, None)
  else
    match chosen with
    | Err _ => (rights, None)
    | Ok sdBytes =>
        (* [_ = usedFallback]: the flag is dropped here *)
        match ParseSecurityDescriptor sdBytes with
        | Err e => (rights, Some e)
        | Ok sd =>
            match Dacl sd with
            | None => (rights, None)
            | Some dacl =>
                if len (Aces dacl) =? 0 then (rights, None)
                else (shareRightsLoop orders 0 (Aces dacl) rights, None)
            end
        end
    end.

(** One iteration of the ACE loop of [CollectNTFSRights]. *)
Definition ntfsRightsStep (order : list (string * Z))
           (rights : gmap string (list string)) (ace : ACE)
  : gmap string (list string) :=
  match AceSID ace with
  | None => rights
  | Some _ =>
      let sid := SID_String (AceSID ace) in
      if String.eqb sid EmptyString then rights
      else
        let edgeKinds := GetNTFSRightsForMask order (Mask ace) in
        if 0 <? len edgeKinds then appendRights rights sid edgeKinds
        else rights
  end.

Fixpoint ntfsRightsLoop (orders : nat -> list (string * Z)) (i : nat)
         (aces : list ACE) (rights : gmap string (list string))
  : gmap string (list string) :=
  match aces with
  | [] => rights
  | ace :: rest =>
      ntfsRightsLoop orders (S i) rest
                     (ntfsRightsStep (orders i) rights ace)
  end.

(** [CollectNTFSRights] (its error result is always nil). *)
Definition CollectNTFSRights (smbSession : SMBSession)
           (filePath : string) (orders : nat -> list (string * Z))
  : gmap string (list string) :=
  let rights : gmap string (list string) := ∅ in
  match GetFileSecurityDescriptor smbSession filePath with
  | Err _ => rights
  | Ok None => rights
  | Ok (Some sd) =>
      match Dacl sd with
      | None => rights
      | Some dacl => ntfsRightsLoop orders 0 (Aces dacl) rights
      end
  end.

End collector.

(** ** Package rules: conditions and comparison (internal/rules/rule.go) *)

Module rules.
Import gostrings.

(** [float64] is IEEE binary64 ([spec_float] at precision 53). *)
Definition prec : Z := 53.
Definition emax : Z := 1024.
Abbreviation float64 := spec_float.

(** [float64(n)] for an integer [n]. *)
Definition float64_of_int (n : Z) : float64 :=
  binary_normalize prec emax n 0 false.

(** [int(f)]: truncation toward zero.  Where the value does not fit an
    [int] the language leaves the result to the implementation; the
    model gives the amd64 answer, the smallest [int64]. *)
Definition int_of_float64 (f : float64) : Z :=
  let r :=
    match f with
    | S754_zero _ => 0
    | S754_finite s m e =>
        let a := if 0 <=? e then Z.shiftl (Zpos m) e
                 else Z.shiftr (Zpos m) (- e) in
        if s then - a else a
    | _ => - 2 ^ 63
    end in
  if (- 2 ^ 63 <=? r) && (r <? 2 ^ 63) then r else - 2 ^ 63.

(** [rune(n)]: conversion to [int32] keeps the low 32 bits. *)
Definition rune (n : Z) : Z := (n + 2 ^ 31) mod 2 ^ 32 - 2 ^ 31.

(** [string(r)] for a rune [r]: its UTF-8 encoding, or that of U+FFFD
    when [r] is not a valid code point. *)
Definition string_of_rune (r : Z) : string :=
  let cont (x : Z) := char (Z.lor 0x80 (Z.land x 0x3F)) in
  if (r <? 0) || (0x10FFFF <? r) || ((0xD800 <=? r) && (r <=? 0xDFFF))
  then text [char 0xEF; char 0xBF; char 0xBD]
  else if r <? 0x80 then text [char r]
  else if r <? 0x800 then
    text [char (Z.lor 0xC0 (Z.shiftr r 6)); cont r]
  else if r <? 0x10000 then
    text [char (Z.lor 0xE0 (Z.shiftr r 12)); cont (Z.shiftr r 6); cont r]
  else
    text [char (Z.lor 0xF0 (Z.shiftr r 18)); cont (Z.shiftr r 12);
          cont (Z.shiftr r 6); cont r].

(** A Go [interface{}] as the rule engine meets it. *)
Inductive Value :=
| VNil
| VString (s : string)
| VInt (n : Z)
| VInt64 (n : Z)
| VFloat64 (f : float64)
| VBool (b : bool)
| VList (l : list Value)       (* []interface{} *)
| VStrings (l : list string).  (* []string *)

Inductive Condition :=
| AlwaysTrueCondition
| FieldCondition (Field Comparator : string) (Value : Value)
| NotCondition (Inner : Condition)
| AndCondition (Conditions : list Condition)
| OrCondition (Conditions : list Condition).

(** [RuleAction] and [RuleScope] are string types. *)
Definition ActionAllow : string := "ALLOW".
Definition ActionDeny : string := "DENY".
Definition ScopeExploration : string := "EXPLORATION".
Definition ScopeProcessing : string := "PROCESSING".
Definition ScopeAll : string := EmptyString.

Record Rule := mkRule {
  IsDefault : bool;
  DefaultBehavior : string;
  Action : string;
  Scope : string;
  RuleCondition : option Condition   (* nil in a DEFAULT rule *)
}.

(** Rule objects and the evaluation context (internal/rules,
    unnamed/part_000). *)
Record RuleObjectShare := mkShare {
  ShareName : string;
  ShareDescription : string;
  ShareHidden : bool
}.

Record RuleObjectFile := mkFile {
  FileName : string;
  FilePath : string;
  FileSize : Z;             (* int64 *)
  FileExtension : string
}.

Record RuleObjectDirectory := mkDirectory {
  DirName : string;
  DirPath : string
}.

Record EvaluationContext := mkEvalContext {
  Share : option RuleObjectShare;
  File : option RuleObjectFile;
  Directory : option RuleObjectDirectory;
  Depth : Z
}.

Definition streq (a b : string) : bool := String.eqb a b.

(** [GetFieldValue]. *)
Definition GetFieldValue (c : EvaluationContext) (field : string) : Value :=
  let field := ToUpper field in
  if streq field "DEPTH" then VInt (Depth c)
  else if streq field "SHARE.NAME" then
    match Share c with Some s => VString (ShareName s) | None => VNil end
  else if streq field "SHARE.DESCRIPTION" then
    match Share c with
    | Some s => VString (ShareDescription s) | None => VNil end
  else if streq field "SHARE.HIDDEN" then
    match Share c with Some s => VBool (ShareHidden s) | None => VNil end
  else if streq field "FILE.NAME" then
    match File c with Some f => VString (FileName f) | None => VNil end
  else if streq field "FILE.PATH" then
    match File c with Some f => VString (FilePath f) | None => VNil end
  else if streq field "FILE.SIZE" then
    match File c with Some f => VInt64 (FileSize f) | None => VNil end
  else if streq field "FILE.EXTENSION" then
    match File c with Some f => VString (FileExtension f) | None => VNil end
  else if streq field "DIR.NAME" || streq field "DIRECTORY.NAME" then
    match Directory c with Some d => VString (DirName d) | None => VNil end
  else if streq field "DIR.PATH" || streq field "DIRECTORY.PATH" then
    match Directory c with Some d => VString (DirPath d) | None => VNil end
  else VNil.

(** [toString]. *)
Definition toString (v : Value) : string :=
  match v with
  | VString val => val
  | VInt val => string_of_rune (rune val)
  | VInt64 val => string_of_rune (rune val)
  | VFloat64 val => string_of_rune (rune (int_of_float64 val))
  | VBool val => if val then "true" else "false"
  | _ => EmptyString
  end.

(** [strings.NewReader(val).Read([]byte{})] reports [io.EOF] when the
    reader has nothing left, that is when [val] is empty, and a nil
    error otherwise (it copies zero bytes).  The result is
    [err == nil]. *)
Definition readNothing (val : string) : bool := negb (streq val EmptyString).

(** [toNumber]. *)
Definition toNumber (v : Value) : float64 * bool :=
  match v with
  | VInt val => (float64_of_int val, true)
  | VInt64 val => (float64_of_int val, true)
  | VFloat64 val => (val, true)
  | VString val =>
      let num := S754_zero false in
      if readNothing val then (num, true) else (S754_zero false, false)
  | _ => (S754_zero false, false)
  end.

Definition compareEqual (a b : Value) : bool :=
  EqualFold (toString a) (toString b).

Definition compareLess (a b : Value) : bool :=
  let '(aNum, aOk) := toNumber a in
  let '(bNum, bOk) := toNumber b in
  if aOk && bOk then SFltb aNum bNum else false.

Definition compareGreater (a b : Value) : bool :=
  let '(aNum, aOk) := toNumber a in
  let '(bNum, bOk) := toNumber b in
  if aOk && bOk then SFltb bNum aNum else false.

Definition compareIn (value list : Value) : bool :=
  match list with
  | VList listSlice => existsb (fun item => compareEqual value item) listSlice
  | VStrings listStrSlice =>
      existsb (fun item => compareEqual value item)
              (map VString listStrSlice)
  | _ => false
  end.

Section Evaluation.

(** Package [regexp] is outside the repository:
    [regexpMatch pattern s] is [None] when [regexp.Compile pattern]
    fails and [Some (re.MatchString s)] otherwise. *)
Variable regexpMatch : string -> string -> option bool.

Definition compareMatches (value pattern : Value) : bool :=
  match regexpMatch (toString pattern) (toString value) with
  | None => false
  | Some b => b
  end.

(** [FieldCondition.Evaluate]. *)
Definition evalField (ctx : EvaluationContext)
           (Field Comparator : string) (Value : Value) : bool :=
  let fieldValue := GetFieldValue ctx Field in
  if streq Comparator "=" || streq Comparator "==" then
    compareEqual fieldValue Value
  else if streq Comparator "!=" then negb (compareEqual fieldValue Value)
  else if streq Comparator "<" then compareLess fieldValue Value
  else if streq Comparator ">" then compareGreater fieldValue Value
  else if streq Comparator "<=" then
    compareLess fieldValue Value || compareEqual fieldValue Value
  else if streq Comparator ">=" then
    compareGreater fieldValue Value || compareEqual fieldValue Value
  else if streq Comparator "IN" then compareIn fieldValue Value
  else if streq Comparator "NOT IN" then negb (compareIn fieldValue Value)
  else if streq Comparator "MATCHES" then compareMatches fieldValue Value
  else false.

(** The [Evaluate] method of the five condition types. *)
Fixpoint Evaluate (ctx : EvaluationContext) (c : Condition) : bool :=
  match c with
  | AlwaysTrueCondition => true
  | FieldCondition f cmp v => evalField ctx f cmp v
  | NotCondition inner => negb (Evaluate ctx inner)
  | AndCondition conds => forallb (Evaluate ctx) conds
  | OrCondition conds => existsb (Evaluate ctx) conds
  end.

(** The first loop of [Evaluator.evaluate]: the default action. *)
Fixpoint defaultAllow (rules : list Rule) : bool :=
  match rules with
  | [] => true
  | rule :: rest =>
      if IsDefault rule then streq (DefaultBehavior rule) ActionAllow
      else defaultAllow rest
  end.

(** The second loop: [Some d] when a rule decides. *)
Fixpoint firstMatch (ctx : EvaluationContext) (scope : string)
         (rules : list Rule) : option bool :=
  match rules with
  | [] => None
  | rule :: rest =>
      if IsDefault rule then firstMatch ctx scope rest
      else if negb (streq (Scope rule) ScopeAll)
              && negb (streq (Scope rule) scope)
      then firstMatch ctx scope rest
      else
        match RuleCondition rule with
        | None => Some (streq (Action rule) ActionAllow)
        | Some cond =>
            if Evaluate ctx cond then Some (streq (Action rule) ActionAllow)
            else firstMatch ctx scope rest
        end
  end.

(** [Evaluator.evaluate]: [true] is ALLOW. *)
Definition evaluate (rules : list Rule) (ctx : EvaluationContext)
           (scope : string) : bool :=
  match firstMatch ctx scope rules with
  | Some decision => decision
  | None => defaultAllow rules
  end.

(** An [Evaluator]: its rules and its context. *)
Record Evaluator := mkEvaluator {
  evRules : list Rule;
  context : EvaluationContext
}.

Definition NewEvaluator (rules : list Rule) : Evaluator :=
  {| evRules := rules;
     context := {| Share := None; File := None; Directory := None;
                   Depth := 0 |} |}.

(** The object handed to [CanExplore] and [CanProcess]. *)
Inductive RuleObject :=
| ObjShare (s : RuleObjectShare)
| ObjFile (f : RuleObjectFile)
| ObjDirectory (d : RuleObjectDirectory).

Definition withShare (e : Evaluator) (s : RuleObjectShare) :=
  {| evRules := evRules e;
     context := {| Share := Some s; File := File (context e);
                   Directory := Directory (context e);
                   Depth := Depth (context e) |} |}.
Definition withFile (e : Evaluator) (f : RuleObjectFile) :=
  {| evRules := evRules e;
     context := {| Share := Share (context e); File := Some f;
                   Directory := Directory (context e);
                   Depth := Depth (context e) |} |}.
Definition withDirectory (e : Evaluator) (d : RuleObjectDirectory) :=
  {| evRules := evRules e;
     context := {| Share := Share (context e); File := File (context e);
                   Directory := Some d;
                   Depth := Depth (context e) |} |}.

(** [CanExplore]: the updated evaluator and the decision. *)
Definition CanExplore (e : Evaluator) (obj : RuleObject)
  : Evaluator * bool :=
  let e :=
    match obj with
    | ObjShare v => withShare e v
    | ObjDirectory v => withDirectory e v
    | ObjFile _ => e
    end in
  (e, evaluate (evRules e) (context e) ScopeExploration).

(** [CanProcess]. *)
Definition CanProcess (e : Evaluator) (obj : RuleObject)
  : Evaluator * bool :=
  let e :=
    match obj with
    | ObjShare v => withShare e v
    | ObjFile v => withFile e v
    | ObjDirectory v => withDirectory e v
    end in
  (e, evaluate (evRules e) (context e) ScopeProcessing).

End Evaluation.

(** ** The parser (internal/rules/parser.go)

    Recursion in the Go parser is on ever shorter pieces of the rule
    line; the model recurses on [fuel] and says so when it runs out.
    A slice expression out of range is a run-time panic. *)

Inductive parsed (A : Type) : Type :=
| Parsed (a : A)
| Failed (msg : string)
| Panicked
| OutOfFuel.
Arguments Parsed {A} a.
Arguments Failed {A} msg.
Arguments Panicked {A}.
Arguments OutOfFuel {A}.

Definition DefaultRules : list string :=
  [ "DEFAULT: ALLOW";
    "DENY EXPLORATION IF SHARE.NAME IN ['c$','print$','admin$','ipc$']";
    "ALLOW EXPLORATION" ].

Definition isQuote (c : ascii) : bool := (code c =? 39) || (code c =? 34).

(** The loop of [splitAtKeyword].  [inp] and [up] are [input[i:]] and
    [upper[i:]]; [skip] counts the bytes of a keyword still to be
    stepped over; [kw] is the upper-cased keyword.  [current.WriteRune]
    of a byte writes the UTF-8 form of the code point of that value. *)
Fixpoint splitAtKeywordLoop (inp up kw : list ascii) (skip : nat)
         (depth : Z) (inQuote : bool) (quoteChar : Z)
         (current : list ascii) (parts : list string) : list string :=
  match inp with
  | [] => parts ++ [text current]
  | c :: inp' =>
      let up' := tl up in
      match skip with
      | S skip' =>
          splitAtKeywordLoop inp' up' kw skip' depth inQuote quoteChar
                             current parts
      | O =>
          let written := current ++ chars (string_of_rune (code c)) in
          if isQuote c then
            let '(inQuote, quoteChar) :=
              if negb inQuote then (true, code c)
              else if code c =? quoteChar then (false, quoteChar)
              else (inQuote, quoteChar) in
            splitAtKeywordLoop inp' up' kw O depth inQuote quoteChar
                               written parts
          else if (code c =? 40) || (code c =? 91) then
            splitAtKeywordLoop inp' up' kw O (depth + 1) inQuote quoteChar
                               written parts
          else if (code c =? 41) || (code c =? 93) then
            splitAtKeywordLoop inp' up' kw O (depth - 1) inQuote quoteChar
                               written parts
          else if negb inQuote && (depth =? 0)
                  && (len kw <=? len inp)
                  && String.eqb (text (firstn (List.length kw) up)) (text kw)
          then
            splitAtKeywordLoop inp' up' kw (List.length kw - 1) depth
                               inQuote quoteChar [] (parts ++ [text current])
          else
            splitAtKeywordLoop inp' up' kw O depth inQuote quoteChar
                               written parts
      end
  end.

(** [splitAtKeyword] (the keyword is never empty). *)
Definition splitAtKeyword (input keyword : string) : list string :=
  splitAtKeywordLoop (chars input) (chars (ToUpper input))
                     (chars (ToUpper keyword)) 0 0 false 0 [] [].

(** The loop of [splitListItems], byte by byte (the Go loop decodes
    runes and writes them back, which copies well-formed UTF-8). *)
Fixpoint splitListItemsLoop (inp : list ascii) (inQuote : bool)
         (quoteChar : Z) (current : list ascii) (parts : list string)
  : list string :=
  match inp with
  | [] => parts ++ [text current]
  | c :: inp' =>
      if isQuote c then
        let '(inQuote, quoteChar) :=
          if negb inQuote then (true, code c)
          else if code c =? quoteChar then (false, quoteChar)
          else (inQuote, quoteChar) in
        splitListItemsLoop inp' inQuote quoteChar (current ++ [c]) parts
      else if (code c =? 44) && negb inQuote then
        splitListItemsLoop inp' inQuote quoteChar [] (parts ++ [text current])
      else
        splitListItemsLoop inp' inQuote quoteChar (current ++ [c]) parts
  end.

Definition splitListItems (input : string) : list string :=
  splitListItemsLoop (chars input) false 0 [] [].

Definition isDigit (c : ascii) : bool := (48 <=? code c) && (code c <=? 57).

Fixpoint takeDigits (l : list ascii) : list ascii * list ascii :=
  match l with
  | c :: l' =>
      if isDigit c then let '(d, r) := takeDigits l' in (c :: d, r)
      else ([], l)
  | [] => ([], [])
  end.

(** The sign, the integer digits and the fraction digits of a text that
    matches the regular expression [^-?\d+(\.\d+)?$]. *)
Definition numberParts (input : string)
  : option (bool * list ascii * list ascii) :=
  let cs := chars input in
  let '(neg, cs) :=
    match cs with
    | c :: r => if code c =? 45 then (true, r) else (false, cs)
    | [] => (false, cs)
    end in
  let '(ip, r) := takeDigits cs in
  match ip, r with
  | [], _ => None
  | _, [] => Some (neg, ip, [])
  | _, c :: r' =>
      if code c =? 46 then
        let '(fp, r'') := takeDigits r' in
        match fp, r'' with
        | _ :: _, [] => Some (neg, ip, fp)
        | _, _ => None
        end
      else None
  end.

Definition digitsValue (ds : list ascii) : Z :=
  fold_left (fun acc c => 10 * acc + (code c - 48)) ds 0.

(** [fmt.Sscanf(input, "%f", &num)] on such a text: the nearest
    [float64] of the decimal; when that overflows, the scan fails and
    [num] keeps its zero value. *)
Definition scanFloat (neg : bool) (ip fp : list ascii) : float64 :=
  let m := digitsValue (ip ++ fp) in
  if m =? 0 then S754_zero neg
  else
    let '(q, e, l) :=
      SFdiv_core_binary prec emax m 0 (10 ^ len fp) 0 in
    match binary_round_aux prec emax neg q e l with
    | S754_infinity _ => S754_zero false
    | f => f
    end.

Definition quoted (input : string) : bool :=
  (HasPrefix input "'" && HasSuffix input "'")
  || (HasPrefix input (text [char 34]) && HasSuffix input (text [char 34])).

(** [parseValue]. *)
Fixpoint parseValue (fuel : nat) (input : string) : parsed Value :=
  match fuel with
  | O => OutOfFuel
  | S fuel' =>
      let input := TrimSpace input in
      if HasPrefix input "[" && HasSuffix input "]" then
        let inner := sub 1 (slen input - 1) input in
        let parts := splitListItems inner in
        (fix items (parts : list string) (values : list Value)
           : parsed Value :=
           match parts with
           | [] => Parsed (VList values)
           | part :: rest =>
               match parseValue fuel' (TrimSpace part) with
               | Parsed val => items rest (values ++ [val])
               | other => other
               end
           end) parts []
      else if quoted input then
        if slen input <? 2 then Panicked      (* input[1:0] *)
        else Parsed (VString (sub 1 (slen input - 1) input))
      else
        let upper := ToUpper input in
        if streq upper "TRUE" then Parsed (VBool true)
        else if streq upper "FALSE" then Parsed (VBool false)
        else
          match numberParts input with
          | Some (neg, ip, fp) => Parsed (VFloat64 (scanFloat neg ip fp))
          | None => Parsed (VString input)
          end
  end.

Definition comparators : list string :=
  [ "NOT IN"; "IN"; "MATCHES"; "!="; "<="; ">="; "="; "<"; ">" ].

(** The loop [for _, comp := range comparators] of [parseComparison]. *)
Fixpoint parseComparisonLoop (fuel : nat) (input : string)
         (comps : list string) : parsed Condition :=
  match comps with
  | [] => Failed ("could not parse comparison: " +:+ input)
  | comp :: rest =>
      let found (idx : Z) : parsed Condition :=
        if negb (idx =? -1) then
          let field := TrimSpace (sub 0 idx input) in
          let valueStart := idx + slen comp in
          let valueStart :=
            if sat idx input =? 32 then valueStart + 1 else valueStart in
          let valueStr := TrimSpace (sfrom valueStart input) in
          match parseValue fuel valueStr with
          | Parsed value => Parsed (FieldCondition field comp value)
          | Failed msg => Failed msg
          | Panicked => Panicked
          | OutOfFuel => OutOfFuel
          end
        else parseComparisonLoop fuel input rest in
      let idx := Index (ToUpper input) (" " +:+ comp +:+ " ") in
      if idx =? -1 then
        let idx := Index (ToUpper input) comp in
        if (0 <? idx) && negb (sat (idx - 1) input =? 32)
        then parseComparisonLoop fuel input rest             (* continue *)
        else found idx
      else found idx
  end.

(** [parseComparison]. *)
Definition parseComparison (fuel : nat) (input : string)
  : parsed Condition :=
  parseComparisonLoop fuel (TrimSpace input) comparators.

(** [parseCondition]. *)
Fixpoint parseCondition (fuel : nat) (input : string) : parsed Condition :=
  match fuel with
  | O => OutOfFuel
  | S fuel' =>
      let input := TrimSpace input in
      let each :=
        fix each (parts : list string) (conditions : list Condition)
          : parsed (list Condition) :=
          match parts with
          | [] => Parsed conditions
          | part :: rest =>
              match parseCondition fuel' part with
              | Parsed cond => each rest (conditions ++ [cond])
              | Failed msg => Failed msg
              | Panicked => Panicked
              | OutOfFuel => OutOfFuel
              end
          end in
      let orParts := splitAtKeyword input " OR " in
      if 1 <? len orParts then
        match each orParts [] with
        | Parsed conditions => Parsed (OrCondition conditions)
        | Failed msg => Failed msg
        | Panicked => Panicked
        | OutOfFuel => OutOfFuel
        end
      else
        let andParts := splitAtKeyword input " AND " in
        if 1 <? len andParts then
          match each andParts [] with
          | Parsed conditions => Parsed (AndCondition conditions)
          | Failed msg => Failed msg
          | Panicked => Panicked
          | OutOfFuel => OutOfFuel
          end
        else if HasPrefix (ToUpper input) "NOT " then
          match parseCondition fuel' (sfrom 4 input) with
          | Parsed inner => Parsed (NotCondition inner)
          | other => other
          end
        else if HasPrefix input "(" && HasSuffix input ")" then
          parseCondition fuel' (sub 1 (slen input - 1) input)
        else parseComparison fuel' input
  end.

(** [parseLine]; [fuel] bounds the recursion of the condition parser. *)
Definition parseLine (fuel : nat) (line : string) : parsed Rule :=
  let line := TrimSpace line in
  let upper := ToUpper line in
  if HasPrefix upper "DEFAULT:" || HasPrefix upper "DEFAULT :" then
    match SplitN line ":" 2 with
    | [_; part1] =>
        let behavior := TrimSpace (ToUpper part1) in
        if negb (streq behavior "ALLOW") && negb (streq behavior "DENY") then
          Failed ("DEFAULT must be ALLOW or DENY, got: " +:+ behavior)
        else
          Parsed {| IsDefault := true; DefaultBehavior := behavior;
                    Action := EmptyString; Scope := EmptyString;
                    RuleCondition := None |}
    | _ => Failed "invalid DEFAULT rule"
    end
  else
    let actionAndRest :=
      if HasPrefix upper "ALLOW" then
        Some (ActionAllow, TrimPrefix line (sub 0 5 line))
      else if HasPrefix upper "DENY" then
        Some (ActionDeny, TrimPrefix line (sub 0 4 line))
      else None in
    match actionAndRest with
    | None => Failed "rule must start with ALLOW, DENY, or DEFAULT"
    | Some (action, remaining) =>
        let remaining := TrimSpace remaining in
        let upperRemaining := ToUpper remaining in
        let '(scope, remaining) :=
          if HasPrefix upperRemaining "EXPLORATION" then
            (ScopeExploration, TrimSpace (sfrom 11 remaining))
          else if HasPrefix upperRemaining "PROCESSING" then
            (ScopeProcessing, TrimSpace (sfrom 10 remaining))
          else (ScopeAll, remaining) in
        let upperRemaining := ToUpper remaining in
        if HasPrefix upperRemaining "IF " then
          let conditionStr := TrimSpace (sfrom 3 remaining) in
          match parseCondition fuel conditionStr with
          | Parsed condition =>
              Parsed {| IsDefault := false; DefaultBehavior := EmptyString;
                        Action := action; Scope := scope;
                        RuleCondition := Some condition |}
          | Failed msg => Failed ("error parsing condition: " +:+ msg)
          | Panicked => Panicked
          | OutOfFuel => OutOfFuel
          end
        else
          Parsed {| IsDefault := false; DefaultBehavior := EmptyString;
                    Action := action; Scope := scope;
                    RuleCondition := Some AlwaysTrueCondition |}
    end.

(** The loop of [Parse] over the lines; [i] is the zero-based index. *)
Fixpoint parseLines (fuel : nat) (i : Z) (lines : list string)
         (rules : list Rule) (errors : list string)
  : parsed (list Rule * list string) :=
  match lines with
  | [] => Parsed (rules, errors)
  | line :: rest =>
      let line := TrimSpace line in
      if streq line EmptyString || HasPrefix line "#" || HasPrefix line "//"
      then parseLines fuel (i + 1) rest rules errors
      else
        match parseLine fuel line with
        | Parsed rule => parseLines fuel (i + 1) rest (rules ++ [rule]) errors
        | Failed msg =>
            parseLines fuel (i + 1) rest rules
                       (errors ++ ["line " +:+ fmt_d (i + 1) +:+ ": " +:+ msg])
        | Panicked => Panicked
        | OutOfFuel => OutOfFuel
        end
  end.

(** [Parser.Parse]: the rules and the errors. *)
Definition Parse (input : string) : parsed (list Rule * list string) :=
  parseLines (S (String.length input)) 0 (Split input (text [char 10]))
             [] [].

(** [Parser.ParseStrings]. *)
Definition ParseStrings (inputs : list string)
  : parsed (list Rule * list string) :=
  Parse (Join inputs (text [char 10])).

End rules.

(** * Vocabulary of the statements

    Notions the properties are phrased with, and the concrete inputs they
    are evaluated on. *)

Module stmt.
Import smb gostrings graph ogc collector rules.

(** The flag test of the two lookups. *)
Definition hasFlag (mask : Z) (entry : string * Z) : bool :=
  negb (Z.land mask (snd entry) =? 0).

(** Number of set bits among the low 32 bits. *)
Definition popcount (x : Z) : Z :=
  fold_left (fun acc i => acc + Z.b2z (Z.testbit x (Z.of_nat i)))
            (seq 0 32) 0.

(** The union of the flags of a table. *)
Definition knownFlags (table : list (string * Z)) : Z :=
  fold_left (fun acc entry => Z.lor acc (snd entry)) table 0.

(** An ACL header announcing three ACEs, followed by one four-byte ACE of
    type 5 whose size field is 0. *)
Definition zero_size_acl : list byte :=
  [x02; x00; x0c; x00; x03; x00; x00; x00;
   x05; x00; x00; x00].

(** The SID S-1-1-0 (Everyone) in binary form. *)
Definition everyone_sid : list byte :=
  [x01; x01; x00; x00; x00; x00; x00; x01; x00; x00; x00; x00].

(** A self-relative descriptor (control [SE_SELF_RELATIVE | SE_DACL_PRESENT],
    DACL at offset 20) whose DACL holds one ACE of type [aceType] for
    Everyone with the access mask [m3 m2 m1 m0]. *)
Definition descriptor_with_ace (aceType m0 m1 m2 m3 : byte) : list byte :=
  [x01; x00; x04; x80;
   x00; x00; x00; x00;  x00; x00; x00; x00;
   x00; x00; x00; x00;  x14; x00; x00; x00]
  ++ [x02; x00; x1c; x00; x01; x00; x00; x00]
  ++ [aceType; x00; x14; x00; m0; m1; m2; m3]
  ++ everyone_sid.

(** ACCESS_ALLOWED, mask 0x001F01FF: full control of a directory. *)
Definition root_descriptor : list byte :=
  descriptor_with_ace x00 xff x01 x1f x00.

(** ACCESS_DENIED, mask 0x00010000 (DELETE). *)
Definition deny_descriptor : list byte :=
  descriptor_with_ace x01 x00 x00 x01 x00.

(** A host where the share-service call fails and the share root answers
    with [root_descriptor]. *)
Definition fallback_session : SMBSession :=
  {| GetShareSecurityDescriptor := fun _ => Err "SRVSVC not available";
     GetShareRootSecurityDescriptor := fun _ => Ok root_descriptor;
     GetFileSecurityDescriptor := fun _ => Ok None |}.

(** The same descriptor delivered by the share-service call itself. *)
Definition primary_session : SMBSession :=
  {| GetShareSecurityDescriptor := fun _ => Ok root_descriptor;
     GetShareRootSecurityDescriptor := fun _ => Err "not mounted";
     GetFileSecurityDescriptor := fun _ => Ok None |}.

(** A host whose files carry [deny_descriptor], and whose share-service
    call returns it as well. *)
Definition deny_session : SMBSession :=
  {| GetShareSecurityDescriptor := fun _ => Ok deny_descriptor;
     GetShareRootSecurityDescriptor := fun _ => Ok deny_descriptor;
     GetFileSecurityDescriptor := fun _ => fileDescriptorOf deny_descriptor |}.

(** The three rule lines of the second scenario, joined by newlines. *)
Definition scenario_rules : string :=
  Join [ "DEFAULT: ALLOW";
         "DENY EXPLORATION IF SHARE.NAME IN ['c$','print$','admin$','ipc$']";
         "ALLOW EXPLORATION" ] (text [char 10]).

(** A share as the host worker describes it to the rule engine
    (sharehound-go/internal/worker/worker.go). *)
Definition shareNamed (name : string) : RuleObjectShare :=
  {| ShareName := name;
     ShareDescription := EmptyString;
     ShareHidden := (0 <? slen name) && (sat (slen name - 1) name =? 36) |}.

(** Following the specification's words, "numeric after coercion": the
    numeric types are numbers, and a text is one when it is a decimal
    numeral. *)
Definition coercesToNumber (v : Value) : bool :=
  match v with
  | VInt _ | VInt64 _ | VFloat64 _ => true
  | VString s => match numberParts s with Some _ => true | None => false end
  | _ => false
  end.

(** Following the specification's words: the entry name is the base name
    of the file with its four-character [.zip] suffix (in whatever case it
    was matched) removed, and [.json] appended unless already there. *)
Definition specEntryName (filename : string) : string :=
  let baseName := filepath.Base filename in
  let stem := sub 0 (slen baseName - 4) baseName in
  if HasSuffix stem ".json" then stem else stem +:+ ".json".

(** The documents an artifact holds. *)
Definition documents (a : Artifact) : list Document :=
  match a with
  | RawJSON d => [d]
  | ZipArchive entries => map snd entries
  end.

(** A call of one of the two mutators of the store. *)
Inductive Mutation :=
| DoAddNode (n : Node)
| DoAddEdge (e : Edge).

Definition mutate (g : OpenGraph) (m : Mutation) : OpenGraph :=
  match m with
  | DoAddNode n => AddNode g n
  | DoAddEdge e => AddEdge g e
  end.

(** The store after a sequence of calls on a fresh store. *)
Definition storeAfter (sourceKind : string) (ms : list Mutation) : OpenGraph :=
  fold_left mutate ms (NewOpenGraph sourceKind).

(** The [Contains] edges from [p] to [d] in the edge file. *)
Definition containsEdges (g : OpenGraph) (p d : string) : list Edge :=
  List.filter
    (fun e => String.eqb (Kind e) "Contains"
              && String.eqb (graph.Value (Start e)) p
              && String.eqb (graph.Value (End_ e)) d)
    (edgeFile g).

(** [e] is a [Contains] edge that ends in [d]. *)
Definition linksInto (d : string) (e : Edge) : bool :=
  String.eqb (Kind e) "Contains" && String.eqb (graph.Value (End_ e)) d.

(** The [Contains] edges of the edge file that end in [d]. *)
Definition linksTo (g : OpenGraph) (d : string) : list Edge :=
  List.filter (linksInto d) (edgeFile g).

(** No kind of the rights map is [Contains] (the two mask tables have no
    such kind). *)
Definition noContains (rights : ShareRights) : Prop :=
  match rights with
  | None => True
  | Some m =>
      forall (sid : string) (kinds : list string),
        m !! sid = Some kinds -> ~ In "Contains" kinds
  end.

(** A context that is flushed while directories sit only on the path
    stack: the ids on the path are directory ids, the current element, if
    any, is not a directory, and the rights come from the mask tables. *)
Definition directoriesOnPathOnly (isDir : string -> Prop)
           (c : OpenGraphContext) : Prop :=
  (forall entry : PathEntry,
      In entry (path c) ->
      isDir (ID (EntryNode entry)) /\ noContains (Rights entry))
  /\ (forall e : Node, element c = Some e -> ~ isDir (ID e))
  /\ noContains (shareRights c)
  /\ noContains (elementRights c).

(** The states a context and its store go through: a fresh pair, any
    change of the context that leaves the committed set alone (every setter
    of the context is one), and a flush. *)
Inductive reachable (isDir : string -> Prop)
  : OpenGraphContext * OpenGraph -> Prop :=
| reach_new (sourceKind : string) :
    reachable isDir (NewOpenGraphContext, NewOpenGraph sourceKind)
| reach_set (c c' : OpenGraphContext) (g : OpenGraph) :
    reachable isDir (c, g) ->
    emittedPathNodes c' = emittedPathNodes c ->
    reachable isDir (c', g)
| reach_flush (c : OpenGraphContext) (g : OpenGraph) :
    reachable isDir (c, g) ->
    directoriesOnPathOnly isDir c ->
    reachable isDir (AddPathToGraph (c, g)).

(** Nodes of the traversal of share [docs] on host [srv]: the directory
    [reports] and the file [q1.txt] inside it. *)
Definition hostNode : Node := NewNode "srv.corp.local" ["NetworkShareHost"].
Definition shareNode : Node :=
  SetProperty (NewNode "\\srv.corp.local\docs\" ["NetworkShareSMB"])
              "displayName" (PString "docs").
Definition dirNode : Node :=
  NewNode "DIR:\\srv.corp.local\docs\reports" ["Directory"].
Definition fileNode : Node :=
  NewNode "FILE:\\srv.corp.local\docs\reports/q1.txt" ["File"].

(** What the host worker, for one share, and [collectContentsAtDepth]
    (sharehound-go/internal/worker/worker.go, sharehound-go/internal/
    collector/contents.go) do to the context when the share root holds the
    directory [reports], which holds the file [q1.txt], and the rules allow
    everything: the share scaffold is flushed, the directory is the current
    element of the next flush, then it is pushed on the path and the file is
    the element of a third flush. *)
Definition traversal (g : OpenGraph) : OpenGraphContext * OpenGraph :=
  let c := SetShare (SetHost NewOpenGraphContext hostNode) shareNode in
  let c := SetShareRights c (Some ∅) in
  let '(c, g) := AddPathToGraph (c, g) in
  (* depth 0: entry [reports] *)
  let c := SetElementRights c (Some ∅) in
  let c := SetElement c dirNode in
  let '(c, g) := AddPathToGraph (c, g) in
  let c := ClearElement c in
  (* depth 1, below [reports]: entry [q1.txt] *)
  let c := PushPath c dirNode (Some ∅) in
  let c := SetElementRights c (Some ∅) in
  let c := SetElement c fileNode in
  let '(c, g) := AddPathToGraph (c, g) in
  let c := ClearElement c in
  (PopPath c, g).

(** The rules the scenario text parses to. *)
Definition scenario_parsed : list Rule :=
  [ {| IsDefault := true; DefaultBehavior := "ALLOW";
       Action := EmptyString; Scope := EmptyString; RuleCondition := None |};
    {| IsDefault := false; DefaultBehavior := EmptyString;
       Action := "DENY"; Scope := "EXPLORATION";
       RuleCondition :=
         Some (FieldCondition "SHARE.NAME" "IN"
                 (VList [VString "c$"; VString "print$";
                         VString "admin$"; VString "ipc$"])) |};
    {| IsDefault := false; DefaultBehavior := EmptyString;
       Action := "ALLOW"; Scope := "EXPLORATION";
       RuleCondition := Some AlwaysTrueCondition |} ].

(** The node file holds exactly the ids of the id set, each once, and the
    edge counter is the length of the edge file. *)
Definition storeInvariant (g : OpenGraph) : Prop :=
  NoDup (map ID (nodeFile g))
  /\ nodeIDs g = list_to_set (map ID (nodeFile g))
  /\ edgeCount g = len (edgeFile g).

(** What holds of directories kept on the path stack: a committed directory
    has at most one [Contains] edge into it, an uncommitted one has none. *)
Definition pathLinked (isDir : string -> Prop)
           (st : OpenGraphContext * OpenGraph) : Prop :=
  forall d : string,
    isDir d ->
    (d ∈ emittedPathNodes (fst st) -> len (linksTo (snd st) d) <= 1)
    /\ (d ∉ emittedPathNodes (fst st) -> linksTo (snd st) d = []).

(** [st'] comes from [st] by appending edges, none of them a [Contains]
    edge into a directory, with the committed set unchanged. *)
Definition appendsAside (isDir : string -> Prop)
           (st st' : OpenGraphContext * OpenGraph) : Prop :=
  emittedPathNodes (fst st') = emittedPathNodes (fst st)
  /\ exists es : list Edge,
      edgeFile (snd st') = edgeFile (snd st) ++ es
      /\ forall (e : Edge) (d : string),
          In e es -> isDir d -> linksInto d e = false.

(** The emission steps leave alone what the setters of the context set. *)
Definition sameSetup (c c' : OpenGraphContext) : Prop :=
  host c' = host c /\ share c' = share c
  /\ shareRights c' = shareRights c /\ path c' = path c
  /\ element c' = element c /\ elementRights c' = elementRights c.

(** The node array and the edge array of the exported documents. *)
Definition exportedNodes (a : Artifact) : list Node :=
  concat (map nodes (documents a)).
Definition exportedEdges (a : Artifact) : list Edge :=
  concat (map edges (documents a)).

(** Every kind of the rights map is a kind of [table]. *)
Definition kindsWithin (table : list (string * Z))
           (rights : gmap string (list string)) : Prop :=
  forall (sid : string) (kinds : list string),
    rights !! sid = Some kinds ->
    forall kind : string, In kind kinds -> In kind (map fst table).


(** ** Vocabulary of the further properties *)

Import smbaux.

(** The little-endian 16-bit and 32-bit words at index [i] of a buffer. *)
Definition le16 (i : Z) (data : list byte) : Z :=
  at_ i data + 256 * at_ (i + 1) data.
Definition le32 (i : Z) (data : list byte) : Z :=
  at_ i data + 256 * at_ (i + 1) data
  + 65536 * at_ (i + 2) data + 16777216 * at_ (i + 3) data.

(** A pointer result that is not nil. *)
Definition present {A} (o : option A) : Prop := o <> None.

(** Where a run of digits ends: at the end of the text or at a byte that
    is no digit. *)
Definition stops (r : list ascii) : Prop :=
  match r with
  | [] => True
  | c :: _ => isDigit c = false
  end.

(** The part of the text after the revision: one [-d] per number. *)
Definition dashed (xs : list Z) : list ascii :=
  concat (map (fun x => chars "-" ++ chars (fmt_d x)) xs).

(** The value [String] prints for the identifier authority. *)
Definition authorityValue (authority : list byte) : Z :=
  fold_left (fun acc b => Z.lor (Z.shiftl acc 8) (u8 b)) authority 0.

(** The SIDs S-1-5-21-7 and S-1-5-32-544 in binary form. *)
Definition domain_sid : list byte :=
  [x01; x02; x00; x00; x00; x00; x00; x05;
   x15; x00; x00; x00;  x07; x00; x00; x00].
Definition administrators_sid : list byte :=
  [x01; x02; x00; x00; x00; x00; x00; x05;
   x20; x00; x00; x00;  x20; x02; x00; x00].

(** [root_descriptor] followed by 36 bytes that belong to something
    else. *)
Definition padded_descriptor : list byte :=
  root_descriptor ++ repeat x00 36.

(** A response packet: a 24-byte header of type 2, then
    [padded_descriptor], whose last four bytes read as return code 0. *)
Definition share_info_response : list byte :=
  [x05; x00; x02; x03] ++ repeat x00 20 ++ padded_descriptor.

(** The descriptor [CollectShareRights] goes on with: the answer of the
    share service, or that of the share root when the first is an error
    or empty. *)
Definition chosenDescriptor (smbSession : SMBSession) (shareName : string)
  : result (list byte) :=
  if unavailable (GetShareSecurityDescriptor smbSession shareName)
  then GetShareRootSecurityDescriptor smbSession shareName
  else GetShareSecurityDescriptor smbSession shareName.

(** The ACEs of the DACL of that descriptor; none when there is no
    descriptor, when it does not parse or when it has no DACL. *)
Definition shareAces (smbSession : SMBSession) (shareName : string)
  : list ACE :=
  match chosenDescriptor smbSession shareName with
  | Ok sdBytes =>
      match ParseSecurityDescriptor sdBytes with
      | Ok sd => match Dacl sd with Some dacl => Aces dacl | None => [] end
      | Err _ => []
      end
  | Err _ => []
  end.

(** The ACEs of the DACL of the descriptor of a file. *)
Definition fileAces (smbSession : SMBSession) (filePath : string)
  : list ACE :=
  match GetFileSecurityDescriptor smbSession filePath with
  | Ok (Some sd) =>
      match Dacl sd with Some dacl => Aces dacl | None => [] end
  | _ => []
  end.

(** The number of (trustee, kind) pairs of a rights map. *)
Definition totalKinds (rights : gmap string (list string)) : Z :=
  len (flat_map snd (map_to_list rights)).

(** The number of bits the mask of [ace] shares with [table], for an ACE
    that names a trustee. *)
Definition granted (table : list (string * Z)) (ace : ACE) : Z :=
  match AceSID ace with
  | Some _ => popcount (Z.land (Mask ace) (knownFlags table))
  | None => 0
  end.

Definition sumOver {A} (f : A -> Z) (l : list A) : Z :=
  fold_right (fun a acc => f a + acc) 0 l.

(** [ace] names a trustee and its mask has a bit of [table]. *)
Definition grants (table : list (string * Z)) (ace : ACE) : Prop :=
  present (AceSID ace)
  /\ Z.land (Mask ace) (knownFlags table) <> 0.

(** What holds of every rights map the collectors build: no key is the
    empty text and no list is empty. *)
Definition filled (rights : gmap string (list string)) : Prop :=
  forall (sid : string) (kinds : list string),
    rights !! sid = Some kinds -> sid <> EmptyString /\ kinds <> [].

(** A store that holds [hostNode], and a second node with the same id. *)
Definition hostStore : OpenGraph :=
  storeAfter "ShareHound" [DoAddNode hostNode].
Definition renamedHost : Node :=
  SetProperty hostNode "name" (PString "later").

(** The edges [AddRightsToGraph] is to create for a rights map: one from
    each trustee to the element for each of the trustee's kinds. *)
Definition rightsEdges (elementID : string)
           (rights : gmap string (list string)) : list Edge :=
  flat_map (fun entry : string * list string =>
              map (fun kind => NewEdge (fst entry) elementID kind)
                  (snd entry))
           (map_to_list rights).

(** The calls a collector makes on a context. *)
Inductive ContextOp :=
| OpSetHost (n : Node)
| OpSetShare (n : Node)
| OpSetShareRights (rights : ShareRights)
| OpPushPath (n : Node) (rights : ShareRights)
| OpPopPath
| OpClearPath
| OpSetElement (n : Node)
| OpSetElementRights (rights : ShareRights)
| OpClearElement
| OpSetDirectoryRights (rights : ShareRights)
| OpAddPathToGraph.

Definition applyOp (st : OpenGraphContext * OpenGraph) (op : ContextOp)
  : OpenGraphContext * OpenGraph :=
  match op with
  | OpSetHost n => (SetHost (fst st) n, snd st)
  | OpSetShare n => (SetShare (fst st) n, snd st)
  | OpSetShareRights rights => (SetShareRights (fst st) rights, snd st)
  | OpPushPath n rights => (PushPath (fst st) n rights, snd st)
  | OpPopPath => (PopPath (fst st), snd st)
  | OpClearPath => (ClearPath (fst st), snd st)
  | OpSetElement n => (SetElement (fst st) n, snd st)
  | OpSetElementRights rights => (SetElementRights (fst st) rights, snd st)
  | OpClearElement => (ClearElement (fst st), snd st)
  | OpSetDirectoryRights rights => (SetDirectoryRights (fst st) rights, snd st)
  | OpAddPathToGraph => AddPathToGraph st
  end.

(** A new context on a new store, after a sequence of calls. *)
Definition runOps (sourceKind : string) (ops : list ContextOp)
  : OpenGraphContext * OpenGraph :=
  fold_left applyOp ops (NewOpenGraphContext, NewOpenGraph sourceKind).

(** The edges of one kind in the edge file. *)
Definition edgesOfKind (kind : string) (g : OpenGraph) : list Edge :=
  List.filter (fun e => String.eqb (Kind e) kind) (edgeFile g).

(** Rights as the two collectors deliver them: every kind is a kind of
    one of the two mask tables. *)
Definition tableRights (rights : ShareRights) : Prop :=
  match rights with
  | None => True
  | Some m => kindsWithin (ShareRightsMapping ++ NTFSRightsMapping) m
  end.

Definition opFromTables (op : ContextOp) : Prop :=
  match op with
  | OpSetShareRights rights | OpPushPath _ rights
  | OpSetElementRights rights | OpSetDirectoryRights rights =>
      tableRights rights
  | _ => True
  end.

(** [st'] comes from [st] by appending nodes and edges, the edges all
    satisfying [P], with both edge counters advanced by the number of
    edges appended. *)
Definition emits (P : Edge -> Prop)
           (st st' : OpenGraphContext * OpenGraph) : Prop :=
  exists (es : list Edge) (ns : list Node),
    edgeFile (snd st') = edgeFile (snd st) ++ es
    /\ nodeFile (snd st') = nodeFile (snd st) ++ ns
    /\ edgeCount (snd st') = edgeCount (snd st) + len es
    /\ totalEdgesCreated (fst st') = totalEdgesCreated (fst st) + len es
    /\ Forall P es
    /\ (storeInvariant (snd st) -> storeInvariant (snd st')).

(** The two scaffold flags of a context are as before. *)
Definition sameFlags (c c' : OpenGraphContext) : Prop :=
  hostEdgeEmitted c' = hostEdgeEmitted c
  /\ hostShareEmitted c' = hostShareEmitted c.

(** The rights a context holds come from the tables. *)
Definition tableContext (c : OpenGraphContext) : Prop :=
  tableRights (shareRights c)
  /\ tableRights (elementRights c)
  /\ forall entry : PathEntry, In entry (path c) -> tableRights (Rights entry).

(** An edge that is neither of the two scaffold edges of a share. *)
Definition noScaffold (e : Edge) : Prop :=
  Kind e <> "HostsNetworkShare" /\ Kind e <> "HasNetworkShare".

(** The scaffold edges in the store are those the flags of the context
    account for. *)
Definition scaffoldCounted (st : OpenGraphContext * OpenGraph) : Prop :=
  len (edgesOfKind "HostsNetworkShare" (snd st))
  = Z.b2z (hostEdgeEmitted (fst st))
  /\ len (edgesOfKind "HasNetworkShare" (snd st))
     = Z.b2z (hostShareEmitted (fst st)).

(** A step that appends edges satisfying [P] and leaves alone what the
    setters set and the two scaffold flags. *)
Definition quiet (P : Edge -> Prop)
           (st st' : OpenGraphContext * OpenGraph) : Prop :=
  emits P st st'
  /\ sameSetup (fst st) (fst st')
  /\ sameFlags (fst st) (fst st').

(** The calls made for the share [docs]: the scaffold is flushed, then
    the file [q1.txt] is flushed as the current element, twice. *)
Definition share_ops : list ContextOp :=
  [ OpSetHost hostNode; OpSetShare shareNode; OpSetShareRights (Some ∅);
    OpAddPathToGraph;
    OpSetElementRights (Some ∅); OpSetElement fileNode;
    OpAddPathToGraph; OpAddPathToGraph ].

(** A call that puts directories on the path stack only: what is pushed
    is a directory, what is made the current element is not. *)
Definition opKeepsDirectories (isDir : string -> Prop) (op : ContextOp)
  : Prop :=
  match op with
  | OpPushPath n _ => isDir (ID n)
  | OpSetElement n => ~ isDir (ID n)
  | _ => True
  end.

(** The calls made for the file [q1.txt] in the directory [reports], the
    directory being flushed from the path stack only. *)
Definition file_ops : list ContextOp :=
  [ OpSetHost hostNode; OpSetShare shareNode; OpSetShareRights (Some ∅);
    OpPushPath dirNode (Some ∅);
    OpSetElementRights (Some ∅); OpSetElement fileNode;
    OpAddPathToGraph; OpClearElement; OpAddPathToGraph ].

End stmt.
Export stmt.

(** * Properties *)

(** ** Bytes and little-endian words *)

Section Bytes.
Import smb.

Lemma u8_range (b : byte) : 0 <= u8 b < 256.
Proof.
  unfold u8. pose proof (Byte.to_N_bounded b). lia.
Qed.

Lemma at_range (i : Z) (data : list byte) : 0 <= at_ i data < 256.
Proof. apply u8_range. Qed.

Lemma len_nonneg {A} (l : list A) : 0 <= len l.
Proof. unfold len. lia. Qed.

Lemma len_app {A} (l k : list A) : len (l ++ k) = len l + len k.
Proof. unfold len. rewrite length_app. lia. Qed.

(** A value below [2^n] and a value shifted left by [n] share no bit. *)
Lemma lor_shiftl_add (a b n : Z) :
  0 <= n -> 0 <= a < 2 ^ n -> Z.lor a (Z.shiftl b n) = a + b * 2 ^ n.
Proof.
  intros Hn Ha.
  rewrite <- Z.shiftl_mul_pow2 by lia.
  symmetry. apply Z.add_nocarry_lor.
  apply Z.bits_inj'. intros k Hk.
  rewrite Z.land_spec, Z.bits_0.
  destruct (Z.lt_ge_cases k n) as [Hlt | Hge].
  - rewrite Z.shiftl_spec_low by lia. apply andb_false_r.
  - replace (Z.testbit a k) with false; [reflexivity |].
    symmetry. destruct (Z.eq_dec a 0) as [-> | Hne].
    + apply Z.bits_0.
    + assert (2 ^ n <= 2 ^ k) by (apply Z.pow_le_mono_r; lia).
      apply Z.bits_above_log2; [lia |].
      apply Z.log2_lt_pow2; lia.
Qed.

Lemma at_slice (lo hi k : Z) (data : list byte) :
  0 <= lo -> 0 <= k < hi - lo ->
  at_ k (slice lo hi data) = at_ (lo + k) data.
Proof.
  intros Hlo Hk. unfold at_, slice.
  rewrite nth_firstn, nth_skipn.
  replace (Z.to_nat k <? Z.to_nat (hi - lo))%nat with true
    by (symmetry; apply Nat.ltb_lt; lia).
  do 2 f_equal. lia.
Qed.

Lemma at_from (off k : Z) (data : list byte) :
  0 <= off -> 0 <= k -> at_ k (from off data) = at_ (off + k) data.
Proof.
  intros Hoff Hk. unfold at_, from. rewrite nth_skipn.
  do 2 f_equal. lia.
Qed.

Lemma len_from (off : Z) (data : list byte) :
  0 <= off <= len data -> len (from off data) = len data - off.
Proof.
  intros H. unfold len, from in *. rewrite length_skipn. lia.
Qed.

(** [binary.LittleEndian.Uint16] reads the low byte first. *)
Lemma Uint16_slice (lo : Z) (data : list byte) :
  0 <= lo ->
  Uint16 (slice lo (lo + 2) data)
  = at_ lo data + 256 * at_ (lo + 1) data.
Proof.
  intros Hlo. unfold Uint16.
  rewrite !at_slice by lia.
  rewrite lor_shiftl_add by (pose proof (at_range (lo + 0) data); lia).
  replace (lo + 0) with lo by lia. lia.
Qed.

(** [binary.LittleEndian.Uint32] reads the low byte first. *)
Lemma Uint32_slice (lo : Z) (data : list byte) :
  0 <= lo ->
  Uint32 (slice lo (lo + 4) data)
  = at_ lo data + 256 * at_ (lo + 1) data
    + 65536 * at_ (lo + 2) data + 16777216 * at_ (lo + 3) data.
Proof.
  intros Hlo. unfold Uint32.
  rewrite !at_slice by lia.
  replace (lo + 0) with lo by lia.
  pose proof (at_range lo data).
  pose proof (at_range (lo + 1) data).
  pose proof (at_range (lo + 2) data).
  rewrite (lor_shiftl_add (at_ lo data)) by lia.
  rewrite (lor_shiftl_add _ _ 16) by lia.
  rewrite (lor_shiftl_add _ _ 24) by lia.
  lia.
Qed.

End Bytes.

(** ** SID parsing *)

Section SIDParsing.
Import smb.

Lemma ParseSID_ok_iff (data : list byte) :
  is_ok (ParseSID data) = true
  <-> 8 <= len data /\ 8 + 4 * at_ 1 data <= len data.
Proof.
  unfold ParseSID.
  destruct (len data <? 8) eqn:H8; [simpl; split; [discriminate | lia] |].
  destruct (len data <? 8 + at_ 1 data * 4) eqn:Hn; simpl;
    split; try discriminate; try reflexivity; lia.
Qed.

(** C6: [ParseSID] succeeds exactly when the input has its 8 header bytes
    and the [4 * n] bytes of the [n] sub-authorities announced in byte 1;
    a shorter input gives an error (and so no SID); a successful parse
    takes the revision from byte 0, [n] from byte 1, the identifier
    authority from bytes 2 to 7 in that (big-endian) order, and the [i]-th
    sub-authority from the four bytes at [8 + 4 * i], low byte first. *)
Theorem C6_ParseSID_length_and_fields (data : list byte) :
  (is_ok (ParseSID data) = true
   <-> 8 <= len data /\ 8 + 4 * at_ 1 data <= len data)
  /\ match ParseSID data with
     | Err _ => len data < 8 \/ len data < 8 + 4 * at_ 1 data
     | Ok sid =>
         Revision sid = at_ 0 data
         /\ SubAuthorityCount sid = at_ 1 data
         /\ map u8 (IdentifierAuthority sid)
            = [at_ 2 data; at_ 3 data; at_ 4 data;
               at_ 5 data; at_ 6 data; at_ 7 data]
         /\ len (SubAuthorities sid) = at_ 1 data
         /\ forall i : Z,
             0 <= i < at_ 1 data ->
             nth (Z.to_nat i) (SubAuthorities sid) 0
             = at_ (8 + 4 * i) data
               + 256 * at_ (8 + 4 * i + 1) data
               + 65536 * at_ (8 + 4 * i + 2) data
               + 16777216 * at_ (8 + 4 * i + 3) data
     end.
Proof.
  split; [apply ParseSID_ok_iff |].
  unfold ParseSID.
  destruct (len data <? 8) eqn:H8; [left; lia |].
  destruct (len data <? 8 + at_ 1 data * 4) eqn:Hn; [right; lia |].
  cbn [Revision SubAuthorityCount IdentifierAuthority SubAuthorities].
  pose proof (at_range 1 data) as Hr.
  repeat split.
  - assert (Hlen : (8 <= List.length data)%nat) by (unfold len in H8; lia).
    unfold slice, at_. clear - Hlen.
    do 8 (destruct data as [| ? data]; [simpl in Hlen; lia |]).
    reflexivity.
  - unfold len. rewrite length_map, length_seq. lia.
  - intros i Hi.
    set (f := fun i0 : nat =>
                let offset := 8 + Z.of_nat i0 * 4 in
                Uint32 (slice offset (offset + 4) data)).
    rewrite (nth_indep _ 0 (f 0%nat))
      by (rewrite length_map, length_seq; lia).
    rewrite map_nth, seq_nth by lia.
    unfold f. cbv zeta.
    rewrite Uint32_slice by lia.
    replace (8 + Z.of_nat (0 + Z.to_nat i) * 4) with (8 + 4 * i) by lia.
    reflexivity.
Qed.

End SIDParsing.

(** ** ACL parsing *)

Section ACLParsing.
Import smb.

(** Each round of the loop appends at most one ACE. *)
Lemma parseACEs_length (data : list byte) (remaining : nat) :
  forall (offset : Z) (aces : list ACE),
    len (parseACEs data remaining offset aces)
    <= len aces + Z.of_nat remaining.
Proof.
  induction remaining as [| remaining IH]; intros offset aces; simpl.
  - lia.
  - destruct (offset <? len data); [| lia].
    destruct (ParseACE (from offset data)) as [[ace size] | msg]; [| lia].
    specialize (IH (offset + size) (aces ++ [ace])).
    rewrite len_app in IH. unfold len in IH at 3. simpl in IH. lia.
Qed.

(** An ACE of declared size 0 is met again by every later round. *)
Lemma parseACEs_zero_size (data : list byte) (ace : ACE) (offset : Z) :
  offset < len data ->
  ParseACE (from offset data) = Ok (ace, 0) ->
  forall (remaining : nat) (aces : list ACE),
    parseACEs data remaining offset aces = aces ++ repeat ace remaining.
Proof.
  intros Hoff Hace.
  induction remaining as [| remaining IH]; intros aces; simpl.
  - now rewrite app_nil_r.
  - replace (offset <? len data) with true by (symmetry; lia).
    rewrite Hace. replace (offset + 0) with offset by lia.
    rewrite IH, <- app_assoc. reflexivity.
Qed.

Lemma ParseACE_ok_length (data : list byte) (ace : ACE) (size : Z) :
  ParseACE data = Ok (ace, size) -> 4 <= len data /\ 0 <= size <= len data.
Proof.
  unfold ParseACE.
  destruct (len data <? 4) eqn:H4; [discriminate |].
  destruct (len data <? Uint16 (slice 2 4 data)) eqn:Hs; [discriminate |].
  assert (Hsz : 0 <= Uint16 (slice 2 4 data)).
  { change 4 with (2 + 2). rewrite Uint16_slice by lia.
    pose proof (at_range 2 data). pose proof (at_range (2 + 1) data). lia. }
  destruct (_ || _).
  - destruct (len data <? 8); [discriminate |].
    intros [= <- <-]. lia.
  - intros [= <- <-]. lia.
Qed.

(** C10: on every input of at least 8 bytes [ParseACL] returns an ACL,
    never an error; the model of its loop is structurally recursive on
    the number of rounds left, [ace_count] at the start, so it
    terminates; the result holds at most [ace_count] ACEs, [ace_count]
    being the little-endian word in header bytes 4 and 5; and when the
    first ACE declares size 0 the offset stays on it and the list is that
    ACE [ace_count] times. *)
Theorem C10_ParseACL_total_and_bounded (data : list byte) :
  8 <= len data ->
  exists acl : ACL,
    ParseACL data = Ok acl
    /\ AceCount acl = at_ 4 data + 256 * at_ 5 data
    /\ len (Aces acl) <= AceCount acl
    /\ forall ace : ACE,
        ParseACE (from 8 data) = Ok (ace, 0) ->
        Aces acl = repeat ace (Z.to_nat (AceCount acl)).
Proof.
  intros H8. unfold ParseACL.
  replace (len data <? 8) with false by (symmetry; lia).
  eexists. split; [reflexivity |].
  cbn [AceCount Aces].
  assert (Hc : Uint16 (slice 4 6 data) = at_ 4 data + 256 * at_ 5 data).
  { change 6 with (4 + 2). now rewrite Uint16_slice by lia. }
  pose proof (at_range 4 data). pose proof (at_range 5 data).
  repeat split.
  - exact Hc.
  - pose proof (parseACEs_length data (Z.to_nat (Uint16 (slice 4 6 data)))
                                 8 []) as Hl.
    unfold len in Hl at 2. simpl in Hl. lia.
  - intros ace Hace.
    destruct (ParseACE_ok_length _ _ _ Hace) as [Hlen _].
    assert (8 < len data).
    { destruct (Z.eq_dec (len data) 8) as [He | Hne]; [| lia].
      rewrite len_from in Hlen by lia. lia. }
    now rewrite (parseACEs_zero_size data ace 8) by assumption.
Qed.

Lemma C10_ParseACL_total_and_bounded_witness :
  8 <= len zero_size_acl
  /\ exists acl : ACL,
      ParseACL zero_size_acl = Ok acl
      /\ AceCount acl = at_ 4 zero_size_acl + 256 * at_ 5 zero_size_acl
      /\ len (Aces acl) <= AceCount acl
      /\ forall ace : ACE,
          ParseACE (from 8 zero_size_acl) = Ok (ace, 0) ->
          Aces acl = repeat ace (Z.to_nat (AceCount acl)).
Proof.
  split; [vm_compute; discriminate |].
  apply (C10_ParseACL_total_and_bounded zero_size_acl).
  vm_compute; discriminate.
Defined.

(** The zero-size ACE of [zero_size_acl] is returned three times. *)
Example zero_size_acl_parsed :
  option_map Aces (match ParseACL zero_size_acl with
                   | Ok acl => Some acl | Err _ => None end)
  = Some (repeat {| AceType := 5; AceFlags := 0; AceSize := 0;
                    Mask := 0; AceSID := None |} 3).
Proof. vm_compute. reflexivity. Qed.

End ACLParsing.

(** ** The mask tables *)

Section MaskTables.
Import smb.

(** The loop appends, in visiting order, the kinds whose flag is set. *)
Lemma rangeRights_filter (order : list (string * Z)) (mask : Z) :
  rangeRights order mask = map fst (List.filter (hasFlag mask) order).
Proof.
  unfold rangeRights.
  enough (H : forall acc,
             fold_left
               (fun rights '(edgeKind, flag) =>
                  if Z.land mask flag =? 0 then rights
                  else rights ++ [edgeKind]) order acc
             = acc ++ map fst (List.filter (hasFlag mask) order))
    by apply (H []).
  induction order as [| [kind flag] order IH]; intros acc; simpl.
  - now rewrite app_nil_r.
  - rewrite IH. unfold hasFlag at 2. simpl.
    destruct (Z.land mask flag =? 0); simpl.
    + reflexivity.
    + now rewrite <- app_assoc.
Qed.

Lemma filter_Permutation_bool {A} (f : A -> bool) (l k : list A) :
  Permutation l k -> Permutation (List.filter f l) (List.filter f k).
Proof.
  induction 1 as [| x l k _ IH | x y l | l k m _ IH1 _ IH2]; simpl.
  - constructor.
  - destruct (f x); [now constructor | assumption].
  - destruct (f x), (f y); try reflexivity. constructor.
  - now transitivity (List.filter f k).
Qed.

(** Whatever order the runtime picks, a lookup answers with a
    rearrangement of what the table order gives. *)
Lemma rangeRights_Permutation (table order : list (string * Z)) (mask : Z) :
  MapRange table order ->
  Permutation (rangeRights table mask) (rangeRights order mask).
Proof.
  intros H. rewrite !rangeRights_filter.
  apply Permutation_map, filter_Permutation_bool, H.
Qed.

Lemma land_pow2_testbit (mask i : Z) :
  0 <= i -> negb (Z.land mask (2 ^ i) =? 0) = Z.testbit mask i.
Proof.
  intros Hi. destruct (Z.testbit mask i) eqn:Hb.
  - apply negb_true_iff, Z.eqb_neq. intros H0.
    assert (Ht : Z.testbit (Z.land mask (2 ^ i)) i = true)
      by (rewrite Z.land_spec, Hb, Z.pow2_bits_true; auto).
    rewrite H0, Z.bits_0 in Ht. discriminate.
  - apply negb_false_iff, Z.eqb_eq. apply Z.bits_inj'. intros k Hk.
    rewrite Z.land_spec, Z.bits_0.
    destruct (Z.eq_dec k i) as [-> | Hne].
    + now rewrite Hb.
    + rewrite Z.pow2_bits_false by lia. apply andb_false_r.
Qed.

Lemma hasFlag_single_bit (mask : Z) (kind : string) (flag i : Z) :
  flag = 2 ^ i -> 0 <= i -> hasFlag mask (kind, flag) = Z.testbit mask i.
Proof.
  intros -> Hi. unfold hasFlag. simpl. now apply land_pow2_testbit.
Qed.

Lemma filter_len_sum {A} (f : A -> bool) (l : list A) :
  len (List.filter f l)
  = fold_left (fun acc e => acc + Z.b2z (f e)) l 0.
Proof.
  enough (H : forall acc,
             fold_left (fun acc e => acc + Z.b2z (f e)) l acc
             = acc + len (List.filter f l))
    by (rewrite H; lia).
  induction l as [| x l IH]; intros acc; simpl.
  - unfold len. simpl. lia.
  - rewrite IH. destruct (f x); simpl.
    + unfold len. simpl List.length. lia.
    + lia.
Qed.

(** Both sides become sums of the bits of [mask]; the table side has one
    term per entry, the [popcount] side one per bit of the flag union. *)
Ltac count_bits mask table :=
  rewrite filter_len_sum; unfold popcount, table;
  cbn [fold_left seq];
  repeat match goal with
         | |- context [hasFlag mask (?k, ?f)] =>
             let i := eval vm_compute in (Z.log2 f) in
             rewrite (hasFlag_single_bit mask k f i)
               by first [reflexivity | lia]
         end;
  rewrite !Z.land_spec;
  repeat match goal with
         | |- context [Z.testbit (knownFlags ?t) ?i] =>
             let b := eval vm_compute in (Z.testbit (knownFlags t) i) in
             change (Z.testbit (knownFlags t) i) with b
         end;
  rewrite ?andb_true_r, ?andb_false_r;
  repeat match goal with
         | |- context [Z.of_nat ?n] =>
             let z := eval vm_compute in (Z.of_nat n) in
             change (Z.of_nat n) with z
         end;
  cbn [Z.b2z];
  lia.

Lemma count_share_table (mask : Z) :
  len (List.filter (hasFlag mask) ShareRightsMapping)
  = popcount (Z.land mask (knownFlags ShareRightsMapping)).
Proof. count_bits mask ShareRightsMapping. Qed.

Lemma count_ntfs_table (mask : Z) :
  len (List.filter (hasFlag mask) NTFSRightsMapping)
  = popcount (Z.land mask (knownFlags NTFSRightsMapping)).
Proof. count_bits mask NTFSRightsMapping. Qed.

(** The number of kinds a share-level lookup returns. *)
Lemma GetShareRightsForMask_count (order : list (string * Z)) (mask : Z) :
  MapRange ShareRightsMapping order ->
  len (GetShareRightsForMask order mask)
  = popcount (Z.land mask (knownFlags ShareRightsMapping)).
Proof.
  intros H. rewrite <- count_share_table.
  unfold GetShareRightsForMask. rewrite rangeRights_filter.
  unfold len. rewrite length_map. f_equal.
  symmetry. apply Permutation_length, filter_Permutation_bool, H.
Qed.

(** The number of kinds an NTFS-level lookup returns. *)
Lemma GetNTFSRightsForMask_count (order : list (string * Z)) (mask : Z) :
  MapRange NTFSRightsMapping order ->
  len (GetNTFSRightsForMask order mask)
  = popcount (Z.land mask (knownFlags NTFSRightsMapping)).
Proof.
  intros H. rewrite <- count_ntfs_table.
  unfold GetNTFSRightsForMask. rewrite rangeRights_filter.
  unfold len. rewrite length_map. f_equal.
  symmetry. apply Permutation_length, filter_Permutation_bool, H.
Qed.

(** C9, as the code has it: two lookups of the same mask return the same
    edge kinds, each once, but not in an order that is fixed from one call
    to the next: whatever orders the two [range] loops take, the two
    results are rearrangements of one another.  This holds for the
    share-level and for the NTFS-level lookup. *)
Theorem C9_same_kinds_in_any_order
        (shareOrder1 shareOrder2 ntfsOrder1 ntfsOrder2 : list (string * Z))
        (mask : Z) :
  MapRange ShareRightsMapping shareOrder1 ->
  MapRange ShareRightsMapping shareOrder2 ->
  MapRange NTFSRightsMapping ntfsOrder1 ->
  MapRange NTFSRightsMapping ntfsOrder2 ->
  Permutation (GetShareRightsForMask shareOrder1 mask)
              (GetShareRightsForMask shareOrder2 mask)
  /\ Permutation (GetNTFSRightsForMask ntfsOrder1 mask)
                 (GetNTFSRightsForMask ntfsOrder2 mask).
Proof.
  intros Hs1 Hs2 Hn1 Hn2. unfold GetShareRightsForMask, GetNTFSRightsForMask.
  split.
  - transitivity (rangeRights ShareRightsMapping mask).
    + symmetry. now apply rangeRights_Permutation.
    + now apply rangeRights_Permutation.
  - transitivity (rangeRights NTFSRightsMapping mask).
    + symmetry. now apply rangeRights_Permutation.
    + now apply rangeRights_Permutation.
Qed.

Lemma C9_same_kinds_in_any_order_witness :
  MapRange ShareRightsMapping ShareRightsMapping
  /\ MapRange ShareRightsMapping (rev ShareRightsMapping)
  /\ MapRange NTFSRightsMapping NTFSRightsMapping
  /\ MapRange NTFSRightsMapping (rev NTFSRightsMapping)
  /\ Permutation (GetShareRightsForMask ShareRightsMapping 0x00030000)
              (GetShareRightsForMask (rev ShareRightsMapping) 0x00030000)
  /\ Permutation (GetNTFSRightsForMask NTFSRightsMapping 0x00030000)
                 (GetNTFSRightsForMask (rev NTFSRightsMapping) 0x00030000).
Proof.
  split; [apply Permutation_refl |].
  split; [apply Permutation_rev |].
  split; [apply Permutation_refl |].
  split; [apply Permutation_rev |].
  apply (C9_same_kinds_in_any_order
           ShareRightsMapping (rev ShareRightsMapping)
           NTFSRightsMapping (rev NTFSRightsMapping)).
  - apply Permutation_refl.
  - apply Permutation_rev.
  - apply Permutation_refl.
  - apply Permutation_rev.
Defined.

(** C9, as stated, fails: the order of the result follows the order of
    the map iteration.  Visiting the table backwards is an iteration
    order like any other, and for the mask 3 it returns the two kinds
    the other way round. *)
Lemma C9_order_is_not_stable :
  MapRange ShareRightsMapping ShareRightsMapping
  /\ MapRange ShareRightsMapping (rev ShareRightsMapping)
  /\ GetShareRightsForMask ShareRightsMapping 3
     = ["CanDsCreateChild"; "CanDsDeleteChild"]
  /\ GetShareRightsForMask (rev ShareRightsMapping) 3
     = ["CanDsDeleteChild"; "CanDsCreateChild"]
  /\ GetShareRightsForMask ShareRightsMapping 3
     <> GetShareRightsForMask (rev ShareRightsMapping) 3.
Proof.
  split; [apply Permutation_refl |].
  split; [apply Permutation_rev |].
  split; [reflexivity |]. split; [reflexivity |].
  vm_compute. discriminate.
Qed.

End MaskTables.

(** ** Share rights and NTFS rights *)

Section Rights.
Import smb collector.

(** The descriptor of the fallback scenario parses to one ACCESS_ALLOWED
    ACE for S-1-1-0 with mask 0x001F01FF. *)
Lemma root_descriptor_parsed :
  option_map (fun acl => map (fun a => (AceType a, Mask a, SID_String (AceSID a)))
                             (Aces acl))
             (match ParseSecurityDescriptor root_descriptor with
              | Ok sd => Dacl sd
              | Err _ => None
              end)
  = Some [(ACCESS_ALLOWED_ACE_TYPE, 0x001F01FF, "S-1-1-0")].
Proof. vm_compute. reflexivity. Qed.

(** [CollectShareRights] does not look at where the descriptor came from:
    the same bytes give the same rights through the fallback and through
    the share-service call. *)
Lemma CollectShareRights_ignores_fallback
      (sdBytes : list byte) (shareName : string)
      (orders : nat -> list (string * Z)) (viaRPC viaRoot : SMBSession) :
  0 < len sdBytes ->
  GetShareSecurityDescriptor viaRPC shareName = Ok sdBytes ->
  unavailable (GetShareSecurityDescriptor viaRoot shareName) = true ->
  GetShareRootSecurityDescriptor viaRoot shareName = Ok sdBytes ->
  CollectShareRights viaRoot shareName orders
  = CollectShareRights viaRPC shareName orders.
Proof.
  intros Hlen Hrpc Hun Hroot. unfold CollectShareRights.
  rewrite Hun, Hroot, Hrpc.
  assert (Hav : unavailable (Ok sdBytes) = false) by (simpl; lia).
  rewrite Hav. cbv beta iota zeta. rewrite Hav. reflexivity.
Qed.

Lemma rangeRights_within (order : list (string * Z)) (mask : Z) (kind : string) :
  In kind (rangeRights order mask) -> In kind (map fst order).
Proof.
  rewrite rangeRights_filter. intros H.
  apply in_map_iff in H as (entry & <- & Hin).
  apply List.filter_In in Hin as [Hin _]. now apply in_map.
Qed.

(** Whatever the source of the descriptor, every kind [CollectShareRights]
    returns is a kind of the share-level table. *)
Lemma CollectShareRights_kinds_from_share_table
      (smbSession : SMBSession) (shareName : string)
      (orders : nat -> list (string * Z)) :
  (forall i, MapRange ShareRightsMapping (orders i)) ->
  kindsWithin ShareRightsMapping
              (fst (CollectShareRights smbSession shareName orders)).
Proof.
  intros Horders.
  assert (Hempty : kindsWithin ShareRightsMapping ∅)
    by (intros sid kinds H; rewrite lookup_empty in H; discriminate).
  assert (Hloop : forall aces i rights,
             kindsWithin ShareRightsMapping rights ->
             kindsWithin ShareRightsMapping
                         (shareRightsLoop orders i aces rights)).
  { induction aces as [| ace aces IH]; intros i rights Hr;
      cbn [shareRightsLoop]; [exact Hr |].
    apply IH. unfold shareRightsStep.
    destruct (negb (IsAccessAllowed ace)); [exact Hr |].
    destruct (AceSID ace) as [sid0 |]; [| exact Hr].
    generalize (SID_String (Some sid0)). intros key.
    destruct (String.eqb _ _); [exact Hr |].
    destruct (0 <? _); [| exact Hr].
    intros sid kinds Hlook kind Hin. unfold appendRights in Hlook.
    destruct (decide (key = sid)) as [<- | Hne].
    - rewrite lookup_insert_eq in Hlook. injection Hlook as <-.
      apply in_app_iff in Hin as [Hin | Hin].
      + destruct (rights !! key) as [old |] eqn:Hold;
          cbn [default] in Hin; [exact (Hr _ _ Hold _ Hin) | destruct Hin].
      + apply rangeRights_within in Hin.
        eapply Permutation_in; [| exact Hin].
        apply Permutation_map, Permutation_sym, Horders.
    - rewrite lookup_insert_ne in Hlook by assumption.
      now apply (Hr _ _ Hlook). }
  unfold CollectShareRights.
  destruct (unavailable (GetShareSecurityDescriptor smbSession shareName)).
  - destruct (unavailable _); [exact Hempty |].
    destruct (GetShareRootSecurityDescriptor smbSession shareName);
      [| exact Hempty].
    destruct (ParseSecurityDescriptor a) as [sd |]; [| exact Hempty].
    destruct (Dacl sd); [| exact Hempty].
    destruct (_ =? 0); [exact Hempty | now apply Hloop].
  - destruct (unavailable _); [exact Hempty |].
    destruct (GetShareSecurityDescriptor smbSession shareName);
      [| exact Hempty].
    destruct (ParseSecurityDescriptor a) as [sd |]; [| exact Hempty].
    destruct (Dacl sd); [| exact Hempty].
    destruct (_ =? 0); [exact Hempty | now apply Hloop].
Qed.

(** C1 says that a descriptor obtained through the share-root fallback is
    read with the NTFS-level table.  The code reads it with the share-level
    table: when the share-service call fails and the share root answers with
    an NTFS descriptor granting 0x001F01FF to S-1-1-0, [CollectShareRights]
    returns the thirteen [CanDs...] and standard kinds of that mask, the very
    result it gives when the same bytes come from the share-service call;
    the NTFS-level table would give the five [CanNTFS...] kinds. *)
Theorem C1_fallback_read_with_share_table :
  unavailable (GetShareSecurityDescriptor fallback_session "public") = true
  /\ snd (CollectShareRights fallback_session "public"
                             (fun _ => ShareRightsMapping)) = None
  /\ fst (CollectShareRights fallback_session "public"
                             (fun _ => ShareRightsMapping)) !! "S-1-1-0"
     = Some [ "CanDsCreateChild"; "CanDsDeleteChild"; "CanDsListContents";
              "CanDsWriteExtendedProperties"; "CanDsReadProperty";
              "CanDsWriteProperty"; "CanDsDeleteTree"; "CanDsListObject";
              "CanDsControlAccess"; "CanDelete"; "CanReadControl";
              "CanWriteDacl"; "CanWriteOwner" ]
  /\ GetNTFSRightsForMask NTFSRightsMapping 0x001F01FF
     = [ "CanNTFSSynchronize"; "CanNTFSWriteOwner"; "CanNTFSWriteDacl";
         "CanNTFSReadControl"; "CanNTFSDelete" ]
  /\ CollectShareRights fallback_session "public" (fun _ => ShareRightsMapping)
     = CollectShareRights primary_session "public" (fun _ => ShareRightsMapping).
Proof.
  split; [reflexivity |].
  split; [vm_compute; reflexivity |].
  split; [vm_compute; reflexivity |].
  split; [vm_compute; reflexivity |].
  apply (CollectShareRights_ignores_fallback root_descriptor); reflexivity.
Qed.

(** The canonical text of a SID is never empty. *)
Lemma SID_String_nonempty (sid : SID) :
  String.eqb (SID_String (Some sid)) EmptyString = false.
Proof.
  unfold SID_String.
  generalize (fmt_d (Revision sid) +:+ "-"
              +:+ fmt_d (fold_left (fun acc b => Z.lor (Z.shiftl acc 8) (u8 b))
                                   (IdentifierAuthority sid) 0)).
  intros tail.
  change ("S-" +:+ tail) with (String "S" ("-" +:+ tail)).
  generalize ("-" +:+ tail). generalize "S"%char.
  induction (SubAuthorities sid) as [| sa l IH]; intros c t; simpl.
  - reflexivity.
  - apply IH.
Qed.

(** The share-rights loop, for an ACCESS_ALLOWED ACE with a trustee: the
    list kept under the trustee's SID grows by [popcount (mask & K)] kinds,
    [K] the union of the 17 share-level flags, and no other key changes. *)
Lemma shareRightsStep_allowed
      (order : list (string * Z)) (rights : gmap string (list string))
      (ace : ACE) (sid : SID) :
  MapRange ShareRightsMapping order ->
  IsAccessAllowed ace = true ->
  AceSID ace = Some sid ->
  len (default [] (shareRightsStep order rights ace !! SID_String (Some sid)))
  = len (default [] (rights !! SID_String (Some sid)))
    + popcount (Z.land (Mask ace) (knownFlags ShareRightsMapping))
  /\ forall other : string,
      other <> SID_String (Some sid) ->
      shareRightsStep order rights ace !! other = rights !! other.
Proof.
  intros Horder Hallowed Hsid. unfold shareRightsStep.
  rewrite Hallowed, Hsid. simpl negb. cbv iota.
  rewrite SID_String_nonempty.
  pose proof (GetShareRightsForMask_count order (Mask ace) Horder) as Hcount.
  destruct (0 <? len (GetShareRightsForMask order (Mask ace))) eqn:Hpos.
  - unfold appendRights. split.
    + rewrite lookup_insert_eq. simpl. rewrite len_app. lia.
    + intros other Hne. now rewrite lookup_insert_ne.
  - split; [| reflexivity].
    pose proof (len_nonneg (GetShareRightsForMask order (Mask ace))). lia.
Qed.

(** The share-rights loop skips every ACE that is not ACCESS_ALLOWED. *)
Lemma shareRightsStep_other_type
      (order : list (string * Z)) (rights : gmap string (list string))
      (ace : ACE) :
  IsAccessAllowed ace = false -> shareRightsStep order rights ace = rights.
Proof. intros H. unfold shareRightsStep. now rewrite H. Qed.

(** The NTFS-rights loop, for any ACE with a trustee, whatever its type:
    the trustee gains [popcount (mask & K)] kinds, [K] the union of the 11
    NTFS-level flags. *)
Lemma ntfsRightsStep_any_type
      (order : list (string * Z)) (rights : gmap string (list string))
      (ace : ACE) (sid : SID) :
  MapRange NTFSRightsMapping order ->
  AceSID ace = Some sid ->
  len (default [] (ntfsRightsStep order rights ace !! SID_String (Some sid)))
  = len (default [] (rights !! SID_String (Some sid)))
    + popcount (Z.land (Mask ace) (knownFlags NTFSRightsMapping)).
Proof.
  intros Horder Hsid. unfold ntfsRightsStep.
  rewrite Hsid. rewrite SID_String_nonempty.
  pose proof (GetNTFSRightsForMask_count order (Mask ace) Horder) as Hcount.
  destruct (0 <? len (GetNTFSRightsForMask order (Mask ace))) eqn:Hpos.
  - unfold appendRights. rewrite lookup_insert_eq. simpl.
    rewrite len_app. lia.
  - pose proof (len_nonneg (GetNTFSRightsForMask order (Mask ace))). lia.
Qed.

(** C2 says that an ACCESS_ALLOWED ACE contributes [popcount (mask & K)]
    kinds and that an ACE of any other type contributes none, for share
    rights and for NTFS rights alike.  For NTFS rights the second half fails:
    a file descriptor whose DACL holds a single ACCESS_DENIED ACE (type 1)
    for S-1-1-0 with mask 0x00010000 makes [CollectNTFSRights] record the
    kind [CanNTFSDelete] for S-1-1-0, its loop having no ACCESS_ALLOWED test.
    [CollectShareRights], which has the test, records nothing for the same
    descriptor. *)
Theorem C2_denied_ace_gives_ntfs_rights :
  option_map (fun acl => map (fun a => (AceType a, Mask a, SID_String (AceSID a)))
                             (Aces acl))
             (match ParseSecurityDescriptor deny_descriptor with
              | Ok sd => Dacl sd
              | Err _ => None
              end)
  = Some [(ACCESS_DENIED_ACE_TYPE, 0x00010000, "S-1-1-0")]
  /\ CollectNTFSRights deny_session "reports/q1.txt"
                       (fun _ => NTFSRightsMapping) !! "S-1-1-0"
     = Some ["CanNTFSDelete"]
  /\ fst (CollectShareRights deny_session "docs"
                             (fun _ => ShareRightsMapping)) !! "S-1-1-0"
     = None.
Proof.
  split; [vm_compute; reflexivity |].
  split; vm_compute; reflexivity.
Qed.

End Rights.

(** ** The rule engine *)

Section RuleEngine.
Import gostrings rules.

Variable regexpMatch : string -> string -> option bool.

(** C3: the three-line rule text parses without error to a DEFAULT rule
    and two EXPLORATION rules, in that order, and the EXPLORATION decision
    is DENY ([false]) for the share named ADMIN$ and ALLOW ([true]) for the
    share named DATA. *)
Theorem C3_default_rules_on_admin_and_data :
  Parse scenario_rules = Parsed (scenario_parsed, [])
  /\ snd (CanExplore regexpMatch (NewEvaluator scenario_parsed)
                     (ObjShare (shareNamed "ADMIN$"))) = false
  /\ snd (CanExplore regexpMatch (NewEvaluator scenario_parsed)
                     (ObjShare (shareNamed "DATA"))) = true.
Proof.
  split; [vm_compute; reflexivity |].
  split; vm_compute; reflexivity.
Qed.

(** How the decision comes about in the two cases: the DEFAULT rule gives
    the default ALLOW; for ADMIN$ the IN predicate of the second rule holds,
    the name being compared without regard to case; for DATA it does not,
    and the third rule decides. *)
Lemma scenario_mechanism :
  defaultAllow scenario_parsed = true
  /\ compareIn (VString "ADMIN$")
               (VList [VString "c$"; VString "print$";
                       VString "admin$"; VString "ipc$"]) = true
  /\ compareIn (VString "DATA")
               (VList [VString "c$"; VString "print$";
                       VString "admin$"; VString "ipc$"]) = false
  /\ firstMatch regexpMatch
                (context (fst (CanExplore regexpMatch
                                          (NewEvaluator scenario_parsed)
                                          (ObjShare (shareNamed "DATA")))))
                ScopeProcessing scenario_parsed = None.
Proof. repeat split; vm_compute; reflexivity. Qed.

(** What the ordered comparisons do guarantee: when [toNumber] itself
    gives up on a side (a missing field, a boolean, a list, the empty
    text), [<] and [>] are false. *)
Lemma ordered_false_without_number (a b : Value) :
  snd (toNumber a) = false \/ snd (toNumber b) = false ->
  compareLess a b = false /\ compareGreater a b = false.
Proof.
  unfold compareLess, compareGreater.
  destruct (toNumber a) as [aNum aOk], (toNumber b) as [bNum bOk]. simpl.
  intros [-> | ->]; rewrite ?andb_false_r; split; reflexivity.
Qed.

(** [toNumber] accepts every non-empty text and reads it as 0. *)
Lemma toNumber_text (val : string) :
  val <> EmptyString -> toNumber (VString val) = (S754_zero false, true).
Proof.
  intros H. unfold toNumber, readNothing, streq.
  destruct val as [| c val]; [congruence | reflexivity].
Qed.

(** C4 says that an ordered comparison is false as soon as one side is
    not a number, a non-numeric text field for instance.  The code makes it
    true in such a case: the share name [abc] is not a number, yet the rule
    [DENY EXPLORATION IF SHARE.NAME < 5] parses to the comparison of
    SHARE.NAME with the number 5 and that comparison holds for the share
    [abc], because [toNumber] turns every non-empty text into 0.  The same
    happens with [>] against -1. *)
Theorem C4_text_field_compares_as_zero :
  let ctx := {| Share := Some (shareNamed "abc"); File := None;
                Directory := None; Depth := 0 |} in
  coercesToNumber (GetFieldValue ctx "SHARE.NAME") = false
  /\ parseLine 64 "DENY EXPLORATION IF SHARE.NAME < 5"
     = Parsed {| IsDefault := false; DefaultBehavior := EmptyString;
                 Action := "DENY"; Scope := "EXPLORATION";
                 RuleCondition :=
                   Some (FieldCondition "SHARE.NAME" "<"
                                        (VFloat64 (float64_of_int 5))) |}
  /\ Evaluate regexpMatch ctx
              (FieldCondition "SHARE.NAME" "<" (VFloat64 (float64_of_int 5)))
     = true
  /\ Evaluate regexpMatch ctx
              (FieldCondition "SHARE.NAME" ">"
                              (VFloat64 (float64_of_int (-1))))
     = true.
Proof. repeat split; vm_compute; reflexivity. Qed.

End RuleEngine.

(** ** Export *)

Section Exporting.
Import gostrings graph.

Lemma length_chars (s : string) : List.length (chars s) = String.length s.
Proof. induction s as [| c s IH]; simpl; congruence. Qed.

Lemma chars_text (l : list ascii) : chars (text l) = l.
Proof. apply String.list_ascii_of_string_of_list_ascii. Qed.

Lemma text_chars (s : string) : text (chars s) = s.
Proof. apply String.string_of_list_ascii_of_string. Qed.

Lemma chars_inj (s t : string) : chars s = chars t -> s = t.
Proof. intros H. rewrite <- (text_chars s), <- (text_chars t). now f_equal. Qed.

Lemma text_app (l k : list ascii) : text (l ++ k) = text l +:+ text k.
Proof. induction l as [| c l IH]; simpl; [reflexivity | now rewrite IH]. Qed.

Lemma chars_substring (s : string) :
  forall n m : nat,
    chars (String.substring n m s) = firstn m (skipn n (chars s)).
Proof.
  induction s as [| c s IH]; intros n m.
  - destruct n, m; reflexivity.
  - destruct n as [| n].
    + destruct m as [| m]; simpl; [reflexivity |].
      f_equal. apply (IH 0%nat m).
    + simpl. apply IH.
Qed.

(** [HasSuffix] in terms of the bytes of the two texts. *)
Lemma HasSuffix_chars (s suffix : string) :
  HasSuffix s suffix = true
  <-> exists pre : list ascii, chars s = pre ++ chars suffix.
Proof.
  unfold HasSuffix, sfrom, slen. split.
  - intros H. apply andb_true_iff in H as [Hlen Heq].
    apply Z.leb_le in Hlen. apply String.eqb_eq in Heq.
    exists (firstn (String.length s - String.length suffix) (chars s)).
    rewrite <- Heq at 2. rewrite chars_substring.
    replace (Z.to_nat (Z.of_nat (String.length s)
                       - Z.of_nat (String.length suffix)))
      with (String.length s - String.length suffix)%nat by lia.
    rewrite (firstn_all2 (n := (String.length s
                                - (String.length s - String.length suffix))%nat));
      [now rewrite firstn_skipn |].
    rewrite length_skipn, length_chars. lia.
  - intros [pre Hs].
    assert (Hl : String.length s
                 = (List.length pre + String.length suffix)%nat).
    { rewrite <- !length_chars, Hs, length_app. reflexivity. }
    apply andb_true_iff. split; [apply Z.leb_le; lia |].
    apply String.eqb_eq, chars_inj. rewrite chars_substring, Hs.
    replace (Z.to_nat (Z.of_nat (String.length s)
                       - Z.of_nat (String.length suffix)))
      with (List.length pre) by lia.
    rewrite skipn_app, skipn_all, Nat.sub_diag. simpl.
    apply firstn_all2. rewrite length_chars. lia.
Qed.

Lemma TrimSuffix_chars (pre : list ascii) (suffix : string) :
  TrimSuffix (text (pre ++ chars suffix)) suffix = text pre.
Proof.
  unfold TrimSuffix.
  assert (H : HasSuffix (text (pre ++ chars suffix)) suffix = true)
    by (apply HasSuffix_chars; exists pre; apply chars_text).
  rewrite H. unfold sub, slen. apply chars_inj.
  rewrite chars_substring, !chars_text. simpl skipn.
  rewrite <- !length_chars, chars_text, length_app.
  replace (Z.to_nat (Z.of_nat (List.length pre + List.length (chars suffix))
                     - Z.of_nat (List.length (chars suffix)) - 0))
    with (List.length pre) by lia.
  change (Z.to_nat 0) with 0%nat. rewrite skipn_O.
  now rewrite firstn_app, firstn_all, Nat.sub_diag, app_nil_r.
Qed.

(** The base name of a name ending in [.zip] ends in [.zip]. *)
Lemma Base_zip (pre : list ascii) :
  exists stem : list ascii,
    filepath.Base (text (pre ++ chars ".zip")) = text (stem ++ chars ".zip").
Proof.
  unfold filepath.Base.
  destruct (String.eqb_spec (text (pre ++ chars ".zip")) EmptyString) as [He | _].
  { apply (f_equal chars) in He. rewrite chars_text in He.
    destruct pre; discriminate. }
  rewrite chars_text, rev_app_distr. simpl.
  exists (rev (filepath.lastElem (rev pre))).
  rewrite <- !app_assoc. simpl.
  destruct (rev (filepath.lastElem (rev pre))); reflexivity.
Qed.

Lemma ToLower_zip (pre : list ascii) :
  ToLower (text (pre ++ chars ".zip"))
  = text (map lowerByte pre ++ chars ".zip").
Proof.
  unfold ToLower. now rewrite chars_text, map_app.
Qed.

(** For a name that ends in [.zip] as written, the export is a zip archive
    whose single entry is named as the specification says. *)
Lemma export_lower_case_zip (g : OpenGraph) (filename : string) (meta : bool) :
  HasSuffix filename ".zip" = true ->
  ExportToFileWithProgress g filename meta
  = ZipArchive [(specEntryName filename,
                 streamJSON (SourceKind g) meta (nodeFile g) (edgeFile g))].
Proof.
  intros H. apply HasSuffix_chars in H as [pre Hpre].
  assert (Hf : filename = text (pre ++ chars ".zip"))
    by (apply chars_inj; now rewrite chars_text).
  unfold ExportToFileWithProgress, specEntryName.
  replace (HasSuffix (ToLower filename) ".zip") with true.
  2:{ symmetry. rewrite Hf, ToLower_zip. apply HasSuffix_chars.
      eexists. apply chars_text. }
  destruct (Base_zip pre) as [stem Hbase]. rewrite <- Hf in Hbase.
  rewrite Hbase, TrimSuffix_chars.
  replace (sub 0 (slen (text (stem ++ chars ".zip")) - 4)
               (text (stem ++ chars ".zip")))
    with (text stem).
  2:{ rewrite <- (TrimSuffix_chars stem ".zip") at 1. unfold TrimSuffix.
      replace (HasSuffix (text (stem ++ chars ".zip")) ".zip") with true
        by (symmetry; apply HasSuffix_chars; eexists; apply chars_text).
      reflexivity. }
  destruct (HasSuffix (text stem) ".json"); reflexivity.
Qed.

(** Any name that does not end in [.zip], whatever the case, is written
    raw. *)
Lemma export_other_names_raw (g : OpenGraph) (filename : string) (meta : bool) :
  HasSuffix (ToLower filename) ".zip" = false ->
  ExportToFileWithProgress g filename meta
  = RawJSON (streamJSON (SourceKind g) meta (nodeFile g) (edgeFile g)).
Proof. intros H. unfold ExportToFileWithProgress. now rewrite H. Qed.

(** C5 says that for a file name ending in .zip, whatever the case, the
    single entry of the archive is named after the base name with the suffix
    stripped and [.json] appended.  The code does not strip a suffix that is
    not in lower case: [OUT.ZIP] ends with .zip when compared without regard
    to case, so a zip archive with one entry is written, and the entry is
    named [OUT.ZIP.json], not [OUT.json]; the suffix is tested on the
    lower-cased name and then trimmed from the name as given.  For [out.zip]
    the entry is [out.json], and [out.json] is written raw. *)
Theorem C5_upper_case_suffix_not_stripped (g : OpenGraph) (meta : bool) :
  HasSuffix (ToLower "OUT.ZIP") ".zip" = true
  /\ ExportToFileWithProgress g "OUT.ZIP" meta
     = ZipArchive [("OUT.ZIP.json",
                    streamJSON (SourceKind g) meta (nodeFile g) (edgeFile g))]
  /\ specEntryName "OUT.ZIP" = "OUT.json"
  /\ ExportToFileWithProgress g "out.zip" meta
     = ZipArchive [(specEntryName "out.zip",
                    streamJSON (SourceKind g) meta (nodeFile g) (edgeFile g))]
  /\ ExportToFileWithProgress g "out.json" meta
     = RawJSON (streamJSON (SourceKind g) meta (nodeFile g) (edgeFile g)).
Proof. repeat split; reflexivity. Qed.

End Exporting.

(** ** The graph store *)

Section Store.
Import graph.

Lemma AddNode_known (g : OpenGraph) (n : Node) :
  ID n ∈ nodeIDs g -> AddNode g n = g.
Proof.
  intros H. unfold AddNode.
  destruct (decide (ID n ∈ nodeIDs g)); [reflexivity | contradiction].
Qed.

Lemma AddNode_twice (g : OpenGraph) (n : Node) :
  AddNode (AddNode g n) n = AddNode g n.
Proof.
  destruct (decide (ID n ∈ nodeIDs g)) as [Hin | Hout].
  - rewrite (AddNode_known g n Hin). exact (AddNode_known g n Hin).
  - apply AddNode_known. unfold AddNode.
    destruct (decide (ID n ∈ nodeIDs g)); [contradiction |].
    simpl. set_solver.
Qed.

Lemma storeInvariant_new (sourceKind : string) :
  storeInvariant (NewOpenGraph sourceKind).
Proof.
  unfold storeInvariant. simpl. repeat split. constructor.
Qed.

Lemma storeInvariant_mutate (g : OpenGraph) (m : Mutation) :
  storeInvariant g -> storeInvariant (mutate g m).
Proof.
  intros (Hnd & Hids & Hcount). destruct m as [n | e]; unfold mutate.
  - unfold AddNode. destruct (decide (ID n ∈ nodeIDs g)) as [Hin | Hout].
    + repeat split; assumption.
    + unfold storeInvariant. cbn [nodeFile nodeIDs edgeCount edgeFile].
      rewrite map_app. cbn [map]. repeat split.
      * apply NoDup_app. repeat split.
        -- assumption.
        -- intros x Hx Hx'. apply list_elem_of_singleton in Hx' as ->.
           apply Hout. rewrite Hids. now apply elem_of_list_to_set.
        -- apply NoDup_singleton.
      * rewrite list_to_set_app_L, <- Hids. simpl.
        rewrite (right_id_L ∅ (∪)). apply (comm_L (∪)).
      * assumption.
  - unfold AddEdge, storeInvariant. cbn [nodeFile nodeIDs edgeCount edgeFile].
    repeat split; try assumption.
    rewrite len_app, Hcount. reflexivity.
Qed.

Lemma storeInvariant_after (sourceKind : string) (ms : list Mutation) :
  storeInvariant (storeAfter sourceKind ms).
Proof.
  unfold storeAfter.
  generalize (storeInvariant_new sourceKind).
  generalize (NewOpenGraph sourceKind).
  induction ms as [| m ms IH]; intros g Hg; simpl.
  - assumption.
  - apply IH, storeInvariant_mutate, Hg.
Qed.

Lemma documents_export (g : OpenGraph) (filename : string) (meta : bool) :
  documents (ExportToFileWithProgress g filename meta)
  = [streamJSON (SourceKind g) meta (nodeFile g) (edgeFile g)].
Proof.
  unfold ExportToFileWithProgress.
  destruct (gostrings.HasSuffix _ _); reflexivity.
Qed.

(** C8: on the store reached by any sequence of [AddNode] and [AddEdge]
    calls, adding a node whose id is in the id set changes nothing, and
    adding a node twice is adding it once; every [AddEdge] appends, so the
    same edge added twice is exported twice; and the exported node array
    has one element per id of the id set: its ids are pairwise distinct,
    they are the ids of the set, and its length is the size of the set. *)
Theorem C8_nodes_deduplicated_edges_appended
        (sourceKind : string) (ms : list Mutation)
        (n : Node) (e : Edge) (filename : string) (meta : bool) :
  let g := storeAfter sourceKind ms in
  let export := fun g' => ExportToFileWithProgress g' filename meta in
  (if decide (ID n ∈ nodeIDs g) then AddNode g n = g
   else nodeFile (AddNode g n) = nodeFile g ++ [n])
  /\ AddNode (AddNode g n) n = AddNode g n
  /\ exportedNodes (export (AddNode (AddNode g n) n))
     = exportedNodes (export (AddNode g n))
  /\ exportedEdges (export (AddEdge (AddEdge g e) e))
     = exportedEdges (export g) ++ [e; e]
  /\ NoDup (map ID (exportedNodes (export g)))
  /\ (forall id : string,
        id ∈ nodeIDs g <-> In id (map ID (exportedNodes (export g))))
  /\ len (exportedNodes (export g)) = GetNodeCount g
  /\ len (exportedEdges (export g)) = GetEdgeCount g.
Proof.
  intros g export.
  assert (Hn : forall g', exportedNodes (export g') = nodeFile g').
  { intros g'. unfold exportedNodes, export. rewrite documents_export.
    simpl. apply app_nil_r. }
  assert (He : forall g', exportedEdges (export g') = edgeFile g').
  { intros g'. unfold exportedEdges, export. rewrite documents_export.
    simpl. apply app_nil_r. }
  destruct (storeInvariant_after sourceKind ms) as (Hnd & Hids & Hcount).
  fold g in Hnd, Hids, Hcount.
  rewrite !Hn, !He.
  split; [| split; [| split; [| split; [| split; [| split; [| split]]]]]].
  - destruct (decide (ID n ∈ nodeIDs g)) as [Hin | Hout].
    + now apply AddNode_known.
    + unfold AddNode.
      destruct (decide (ID n ∈ nodeIDs g)); [contradiction | reflexivity].
  - apply AddNode_twice.
  - now rewrite AddNode_twice.
  - simpl. now rewrite <- app_assoc.
  - assumption.
  - intros id. rewrite Hids, elem_of_list_to_set. apply list_elem_of_In.
  - unfold GetNodeCount, len. f_equal.
    rewrite Hids, size_list_to_set by assumption.
    now rewrite length_map.
  - unfold GetEdgeCount. now rewrite Hcount.
Qed.

End Store.

(** ** The graph-building context *)

Section Context.
Import graph ogc.

Lemma appendsAside_refl isDir st : appendsAside isDir st st.
Proof.
  split; [reflexivity |]. exists []. split; [now rewrite app_nil_r |].
  intros e d [].
Qed.

Lemma appendsAside_trans isDir st1 st2 st3 :
  appendsAside isDir st1 st2 -> appendsAside isDir st2 st3 ->
  appendsAside isDir st1 st3.
Proof.
  intros (He1 & es1 & Hf1 & Hn1) (He2 & es2 & Hf2 & Hn2).
  split; [congruence |]. exists (es1 ++ es2). split.
  - rewrite Hf2, Hf1. now rewrite app_assoc.
  - intros e d Hin. apply in_app_iff in Hin as [Hin | Hin]; eauto.
Qed.

Lemma filter_none {A} (f : A -> bool) (l : list A) :
  (forall x, In x l -> f x = false) -> List.filter f l = [].
Proof.
  induction l as [| x l IH]; intros H; simpl; [reflexivity |].
  rewrite (H x) by now left. apply IH. intros y Hy. apply H. now right.
Qed.

Lemma linksTo_appendsAside isDir st st' d :
  appendsAside isDir st st' -> isDir d ->
  linksTo (snd st') d = linksTo (snd st) d.
Proof.
  intros (_ & es & Hf & Hn) Hd. unfold linksTo.
  rewrite Hf, List.filter_app.
  rewrite (filter_none (linksInto d) es); [apply app_nil_r |].
  intros e He. now apply Hn.
Qed.

Lemma pathLinked_appendsAside isDir st st' :
  appendsAside isDir st st' -> pathLinked isDir st -> pathLinked isDir st'.
Proof.
  intros Ha Hinv d Hd. rewrite (linksTo_appendsAside isDir st st' d Ha Hd).
  destruct Ha as (-> & _). now apply Hinv.
Qed.

Lemma addNode_aside isDir st n : appendsAside isDir st (addNode st n).
Proof.
  destruct st as [c g]. unfold addNode, AddNodeWithoutValidation, AddNode.
  simpl. split; [reflexivity |]. exists []. rewrite app_nil_r.
  split; [now destruct (decide _) |]. intros e d [].
Qed.

Lemma emitEdge_aside isDir st e :
  (forall d, isDir d -> linksInto d e = false) ->
  appendsAside isDir st (emitEdge st e).
Proof.
  intros He. destruct st as [c g]. simpl. split; [reflexivity |].
  exists [e]. split; [reflexivity |].
  intros e' d [<- | []] Hd. now apply He.
Qed.

Lemma AddRightsToGraph_aside isDir st elementID rights :
  noContains rights ->
  appendsAside isDir st (AddRightsToGraph st elementID rights).
Proof.
  unfold AddRightsToGraph. destruct rights as [m |];
    [| intros _; apply appendsAside_refl].
  intros Hno. simpl in Hno.
  assert (Hl : forall sid kinds,
             In (sid, kinds) (map_to_list m) -> ~ In "Contains" kinds).
  { intros sid kinds Hin. apply (Hno sid).
    now apply elem_of_map_to_list, list_elem_of_In. }
  clear Hno. revert st.
  induction (map_to_list m) as [| [sid kinds] l IH]; intros st; simpl.
  - apply appendsAside_refl.
  - eapply appendsAside_trans; [| apply IH; intros; eapply Hl; right; eauto].
    assert (Hk : ~ In "Contains" kinds) by (apply (Hl sid); now left).
    clear IH Hl. revert st.
    induction kinds as [| kind kinds IHk]; intros st; simpl.
    + apply appendsAside_refl.
    + eapply appendsAside_trans;
        [| apply IHk; intros Hin; apply Hk; now right].
      apply emitEdge_aside. intros d _. unfold linksInto, NewEdge. simpl.
      destruct (String.eqb_spec kind "Contains") as [-> | _];
        [| reflexivity].
      exfalso. apply Hk. now left.
Qed.

(** The path walk keeps the invariant: it links a directory only when it
    commits it. *)
Lemma walkPath_pathLinked isDir (entries : list PathEntry) :
  (forall entry, In entry entries ->
                 isDir (ID (EntryNode entry)) /\ noContains (Rights entry)) ->
  forall (parentID : string) (st : OpenGraphContext * OpenGraph),
    pathLinked isDir st ->
    pathLinked isDir (snd (walkPath entries parentID st)).
Proof.
  induction entries as [| entry entries IH]; intros Hentries parentID st Hinv.
  - exact Hinv.
  - simpl. apply IH; [intros; apply Hentries; now right |].
    destruct (Hentries entry (or_introl eq_refl)) as [Hdir Hno].
    destruct (decide (ID (EntryNode entry) ∈ emittedPathNodes (fst st)))
      as [Hin | Hout]; [exact Hinv |].
    set (id := ID (EntryNode entry)) in *.
    set (st1 := (markPathNode (fst st) id, snd st)).
    set (st2 := AddRightsToGraph (addNode st1 (EntryNode entry)) id
                                 (Rights entry)).
    assert (Ha : appendsAside isDir st1 st2).
    { eapply appendsAside_trans; [apply addNode_aside |].
      now apply AddRightsToGraph_aside. }
    assert (Hem : emittedPathNodes (fst st2) = {[ id ]} ∪ emittedPathNodes (fst st))
      by (destruct Ha as [-> _]; reflexivity).
    assert (Hlinks : forall d, isDir d -> linksTo (snd st2) d = linksTo (snd st) d)
      by (intros d Hd; apply (linksTo_appendsAside isDir st1 st2 d Ha Hd)).
    intros d Hd. destruct st2 as [c2 g2]. simpl in Hem, Hlinks. simpl.
    unfold linksTo in *. simpl. rewrite List.filter_app, Hem.
    specialize (Hlinks d Hd). rewrite Hlinks.
    destruct (Hinv d Hd) as [Hle Hnil]. unfold linksTo in Hle, Hnil.
    simpl. unfold linksInto at 2 4. simpl.
    destruct (String.eqb_spec id d) as [-> | Hne].
    + rewrite (Hnil Hout). split.
      * intros _. unfold len. simpl. lia.
      * intros Hmem. exfalso. apply Hmem, elem_of_union_l.
        now apply elem_of_singleton.
    + rewrite app_nil_r. split; intros Hmem.
      * apply Hle. apply elem_of_union in Hmem as [Hmem | Hmem];
          [| exact Hmem].
        apply elem_of_singleton in Hmem. congruence.
      * apply Hnil. intros Hold. apply Hmem. now apply elem_of_union_r.
Qed.

(** The parent handed on by the path walk is the id of the last entry of
    the path (the start parent for an empty path), whether or not the
    entries were already committed. *)
Lemma walkPath_parent (entries : list PathEntry) :
  forall (parentID : string) (st : OpenGraphContext * OpenGraph),
    fst (walkPath entries parentID st)
    = fold_left (fun _ entry => ID (EntryNode entry)) entries parentID.
Proof.
  induction entries as [| entry entries IH]; intros parentID st.
  - reflexivity.
  - simpl. apply IH.
Qed.

Lemma sameSetup_refl c : sameSetup c c.
Proof. repeat split. Qed.

Lemma sameSetup_trans c1 c2 c3 :
  sameSetup c1 c2 -> sameSetup c2 c3 -> sameSetup c1 c3.
Proof.
  unfold sameSetup. intros (? & ? & ? & ? & ? & ?) (? & ? & ? & ? & ? & ?).
  repeat split; congruence.
Qed.

Lemma emitEdge_setup st e : sameSetup (fst st) (fst (emitEdge st e)).
Proof. destruct st as [c g]. repeat split. Qed.

Lemma AddRightsToGraph_setup st elementID rights :
  sameSetup (fst st) (fst (AddRightsToGraph st elementID rights)).
Proof.
  unfold AddRightsToGraph. destruct rights as [m |];
    [| apply sameSetup_refl].
  revert st. induction (map_to_list m) as [| [sid kinds] l IH];
    intros st; simpl.
  - apply sameSetup_refl.
  - eapply sameSetup_trans; [| apply IH].
    clear IH. revert st.
    induction kinds as [| kind kinds IHk]; intros st; simpl.
    + apply sameSetup_refl.
    + eapply sameSetup_trans; [| apply IHk]. apply emitEdge_setup.
Qed.

Lemma walkPath_setup (entries : list PathEntry) :
  forall parentID st,
    sameSetup (fst st) (fst (snd (walkPath entries parentID st))).
Proof.
  induction entries as [| entry entries IH]; intros parentID st; simpl.
  - apply sameSetup_refl.
  - eapply sameSetup_trans; [| apply IH].
    destruct (decide _); [apply sameSetup_refl |].
    eapply sameSetup_trans; [| apply emitEdge_setup].
    eapply sameSetup_trans; [| apply AddRightsToGraph_setup].
    destruct st as [c g]. repeat split.
Qed.

(** A flush keeps the invariant while directories are only on the path. *)
Lemma AddPathToGraph_pathLinked isDir (st : OpenGraphContext * OpenGraph) :
  directoriesOnPathOnly isDir (fst st) ->
  pathLinked isDir st -> pathLinked isDir (AddPathToGraph st).
Proof.
  intros (Hpath & Helem & HshareR & HelemR) Hinv.
  unfold AddPathToGraph.
  destruct (host (fst st)) as [h |] eqn:Hh; [| exact Hinv].
  (* host part *)
  set (st1 := if hostEdgeEmitted (fst st) then st else _).
  assert (H1 : appendsAside isDir st st1 /\ sameSetup (fst st) (fst st1)).
  { unfold st1. destruct (hostEdgeEmitted (fst st)).
    - split; [apply appendsAside_refl | apply sameSetup_refl].
    - split.
      + eapply appendsAside_trans; [| apply emitEdge_aside; reflexivity].
        eapply appendsAside_trans; [| apply addNode_aside].
        split; [reflexivity |]. exists []. split; [now rewrite app_nil_r |].
        intros ? ? [].
      + destruct st as [c g]. repeat split. }
  destruct H1 as [Ha1 Hs1].
  assert (Hinv1 : pathLinked isDir st1)
    by (eapply pathLinked_appendsAside; eauto).
  clearbody st1.
  destruct Hs1 as (_ & Hshare1 & HshareR1 & Hpath1 & Helem1 & HelemR1).
  destruct (share (fst st1)) as [s0 |] eqn:Hs; [| exact Hinv1].
  (* share part *)
  set (st2 := if hostShareEmitted (fst st1) then st1 else _).
  assert (H2 : appendsAside isDir st1 st2 /\ sameSetup (fst st1) (fst st2)).
  { unfold st2. destruct (hostShareEmitted (fst st1)).
    - split; [apply appendsAside_refl | apply sameSetup_refl].
    - split.
      + eapply appendsAside_trans; [| apply emitEdge_aside; reflexivity].
        eapply appendsAside_trans;
          [| apply AddRightsToGraph_aside; simpl; rewrite HshareR1;
             exact HshareR].
        eapply appendsAside_trans; [| apply addNode_aside].
        split; [reflexivity |]. exists []. split; [now rewrite app_nil_r |].
        intros ? ? [].
      + eapply sameSetup_trans; [| apply emitEdge_setup].
        eapply sameSetup_trans; [| apply AddRightsToGraph_setup].
        destruct st1 as [c g]. repeat split. }
  destruct H2 as [Ha2 Hs2].
  assert (Hinv2 : pathLinked isDir st2)
    by (eapply pathLinked_appendsAside; eauto).
  clearbody st2.
  destruct Hs2 as (_ & _ & _ & Hpath2 & Helem2 & HelemR2).
  (* path walk *)
  pose proof (walkPath_pathLinked isDir (path (fst st2))) as Hwalk.
  pose proof (walkPath_setup (path (fst st2)) (ID s0) st2) as Hs3.
  destruct (walkPath (path (fst st2)) (ID s0) st2) as [parentID st3] eqn:Hw.
  simpl in Hs3.
  assert (Hinv3 : pathLinked isDir st3).
  { specialize (Hwalk ltac:(rewrite Hpath2, Hpath1; exact Hpath)
                      (ID s0) st2 Hinv2).
    now rewrite Hw in Hwalk. }
  destruct Hs3 as (_ & _ & _ & _ & Helem3 & HelemR3).
  (* element *)
  destruct (element (fst st3)) as [e |] eqn:He; [| exact Hinv3].
  assert (Helt : element (fst st) = Some e) by congruence.
  apply (pathLinked_appendsAside isDir st3); [| exact Hinv3].
  eapply appendsAside_trans; [| apply emitEdge_aside].
  - eapply appendsAside_trans; [apply addNode_aside |].
    apply AddRightsToGraph_aside. simpl.
    rewrite HelemR3, HelemR2, HelemR1. exact HelemR.
  - intros d Hd. unfold linksInto, NewEdge. simpl.
    destruct (String.eqb_spec (ID e) d) as [<- | _]; [| reflexivity].
    exfalso. exact (Helem e Helt Hd).
Qed.

(** As long as directories are flushed on the path stack only, every
    directory has at most one [Contains] edge into it, hence at most one
    from its parent. *)
Lemma directory_linked_once isDir (st : OpenGraphContext * OpenGraph) :
  reachable isDir st ->
  forall d : string, isDir d -> len (linksTo (snd st) d) <= 1.
Proof.
  intros Hreach.
  assert (Hinv : pathLinked isDir st).
  { induction Hreach as [sk | c c' g _ IH Heq | c g _ IH Hflush].
    - intros d _. split; intros _; [unfold len; simpl; lia | reflexivity].
    - intros d Hd. simpl. rewrite Heq. now apply IH.
    - now apply AddPathToGraph_pathLinked. }
  intros d Hd. destruct (Hinv d Hd) as [Hle Hnil].
  destruct (decide (d ∈ emittedPathNodes (fst st))) as [Hin | Hout].
  - now apply Hle.
  - rewrite (Hnil Hout). unfold len. simpl. lia.
Qed.

(** C7 says that over any sequence of flushes of one context a directory
    gets at most one [Contains] edge from its parent.  The code gives it two
    once the directory has been flushed as the current element: in the
    traversal of a share whose root holds the directory [reports] with the
    file [q1.txt] in it, the directory gets its [Contains] edge from the
    share when it is flushed as the element, and a second one when it is met
    on the path of the file, the element branch of [AddPathToGraph] not
    recording the id in the committed set.  The file itself is linked once,
    to the directory. *)
Theorem C7_directory_linked_twice :
  let g := snd (traversal (NewOpenGraph "ShareHound")) in
  map (fun e => (graph.Value (Start e), Kind e, graph.Value (End_ e)))
      (edgeFile g)
  = [ ("SRV.CORP.LOCAL", "HostsNetworkShare", ID hostNode);
      (ID hostNode, "HasNetworkShare", ID shareNode);
      (ID shareNode, "Contains", ID dirNode);
      (ID shareNode, "Contains", ID dirNode);
      (ID dirNode, "Contains", ID fileNode) ]
  /\ len (containsEdges g (ID shareNode) (ID dirNode)) = 2
  /\ map ID (nodeFile g) = [ID hostNode; ID shareNode; ID dirNode; ID fileNode].
Proof. repeat split; vm_compute; reflexivity. Qed.

End Context.

(** ** Descriptors, ACEs and SIDs: what the parsers accept *)

Section Descriptors.
Import smb smbaux.

Lemma le16_slice (lo : Z) (data : list byte) :
  0 <= lo -> Uint16 (slice lo (lo + 2) data) = le16 lo data.
Proof. intros. unfold le16. apply Uint16_slice. assumption. Qed.

Lemma le32_slice (lo : Z) (data : list byte) :
  0 <= lo -> Uint32 (slice lo (lo + 4) data) = le32 lo data.
Proof. intros. unfold le32. apply Uint32_slice. assumption. Qed.

Lemma le16_range (i : Z) (data : list byte) : 0 <= le16 i data < 65536.
Proof.
  unfold le16. pose proof (at_range i data).
  pose proof (at_range (i + 1) data). lia.
Qed.

Lemma le32_range (i : Z) (data : list byte) : 0 <= le32 i data < 4294967296.
Proof.
  unfold le32. pose proof (at_range i data).
  pose proof (at_range (i + 1) data). pose proof (at_range (i + 2) data).
  pose proof (at_range (i + 3) data). lia.
Qed.

Lemma ParseACL_ok_iff (data : list byte) :
  is_ok (ParseACL data) = true <-> 8 <= len data.
Proof.
  unfold ParseACL. destruct (len data <? 8) eqn:H8; simpl;
    split; try discriminate; try reflexivity; lia.
Qed.

(** The SID read at offset [off] of a buffer, as the descriptor and ACE
    parsers read it. *)
Lemma ParseSID_from_ok_iff (off : Z) (data : list byte) :
  0 <= off <= len data ->
  is_ok (ParseSID (from off data)) = true
  <-> off + 8 <= len data /\ off + 8 + 4 * at_ (off + 1) data <= len data.
Proof.
  intros Hoff. rewrite ParseSID_ok_iff, len_from by lia.
  rewrite at_from by lia. lia.
Qed.


Lemma sid_component (off : Z) (data : list byte) :
  present (if (0 <? off) && (off <? len data) then
             match ParseSID (from off data) with
             | Ok sid => Some sid
             | Err _ => None
             end
           else None)
  <-> 0 < off /\ off + 8 <= len data
      /\ off + 8 + 4 * at_ (off + 1) data <= len data.
Proof.
  unfold present.
  destruct (0 <? off) eqn:H0; simpl; [| split; [congruence | lia]].
  destruct (off <? len data) eqn:H1; simpl; [| split; [congruence | lia]].
  pose proof (ParseSID_from_ok_iff off data ltac:(lia)) as Hiff.
  destruct (ParseSID (from off data)); simpl in Hiff.
  - split; [intros _ | congruence].
    split; [lia | apply Hiff; reflexivity].
  - split; [congruence |].
    intros [_ H]. apply Hiff in H. discriminate.
Qed.

Lemma acl_component (control flag off : Z) (data : list byte) :
  present (if (0 <? off) && negb (Z.land control flag =? 0)
              && (off <? len data) then
             match ParseACL (from off data) with
             | Ok acl => Some acl
             | Err _ => None
             end
           else None)
  <-> Z.land control flag <> 0 /\ 0 < off /\ off + 8 <= len data.
Proof.
  unfold present.
  destruct (0 <? off) eqn:H0; simpl; [| split; [congruence | lia]].
  destruct (Z.land control flag =? 0) eqn:Hf; simpl;
    [split; [congruence | lia] |].
  destruct (off <? len data) eqn:H1; simpl; [| split; [congruence | lia]].
  pose proof (ParseACL_ok_iff (from off data)) as Hiff.
  rewrite len_from in Hiff by lia.
  destruct (ParseACL (from off data)); simpl in Hiff.
  - split; [intros _ | congruence].
    split; [lia | split; [lia |]].
    assert (8 <= len data - off) by (apply Hiff; reflexivity). lia.
  - split; [congruence |].
    intros (_ & _ & H).
    assert (false = true) by (apply Hiff; lia). discriminate.
Qed.

(** X1: [ParseSecurityDescriptor] accepts every buffer of at least 20
    bytes, whatever its revision byte, and rejects every shorter one.  Of
    an accepted buffer it reads the revision from byte 0 and the control
    word from bytes 2 and 3; the owner and the group are present exactly
    when their offset is not 0 and a whole SID lies between the offset and
    the end of the buffer; the SACL and the DACL are present exactly when
    their control flag is set, their offset is not 0 and the 8 bytes of
    an ACL header lie between the offset and the end of the buffer.  A
    component that fails this test is dropped without an error. *)
Theorem ParseSecurityDescriptor_accepts (data : list byte) :
  (is_ok (ParseSecurityDescriptor data) = true <-> 20 <= len data)
  /\ forall sd : SecurityDescriptor,
      ParseSecurityDescriptor data = Ok sd ->
      SdRevision sd = at_ 0 data
      /\ Control sd = le16 2 data
      /\ (present (OwnerSID sd)
          <-> 0 < le32 4 data /\ le32 4 data + 8 <= len data
              /\ le32 4 data + 8 + 4 * at_ (le32 4 data + 1) data
                 <= len data)
      /\ (present (GroupSID sd)
          <-> 0 < le32 8 data /\ le32 8 data + 8 <= len data
              /\ le32 8 data + 8 + 4 * at_ (le32 8 data + 1) data
                 <= len data)
      /\ (present (Sacl sd)
          <-> Z.land (le16 2 data) SE_SACL_PRESENT <> 0
              /\ 0 < le32 12 data /\ le32 12 data + 8 <= len data)
      /\ (present (Dacl sd)
          <-> Z.land (le16 2 data) SE_DACL_PRESENT <> 0
              /\ 0 < le32 16 data /\ le32 16 data + 8 <= len data).
Proof.
  unfold ParseSecurityDescriptor.
  destruct (len data <? 20) eqn:H20.
  - split; [simpl; split; [discriminate | lia] | discriminate].
  - split; [simpl; split; [lia | reflexivity] |].
    intros sd Hsd. injection Hsd as <-.
    cbn [SdRevision Control OwnerSID GroupSID Sacl Dacl].
    rewrite (le16_slice 2 data ltac:(lia) : Uint16 (slice 2 4 data) = _).
    rewrite (le32_slice 4 data ltac:(lia) : Uint32 (slice 4 8 data) = _).
    rewrite (le32_slice 8 data ltac:(lia) : Uint32 (slice 8 12 data) = _).
    rewrite (le32_slice 12 data ltac:(lia) : Uint32 (slice 12 16 data) = _).
    rewrite (le32_slice 16 data ltac:(lia) : Uint32 (slice 16 20 data) = _).
    split; [reflexivity |]. split; [reflexivity |].
    split; [apply sid_component |]. split; [apply sid_component |].
    split; apply acl_component.
Qed.


(** X2: [ParseACE] accepts a buffer exactly when it holds the 4 header
    bytes, is at least as long as the size declared in bytes 2 and 3, and,
    for the four standard types 0 to 3, holds the 8 bytes up to the end
    of the mask.  The size it returns is the declared size, whatever the
    ACE needed.  A standard ACE takes its mask from bytes 4 to 7 and has
    a trustee exactly when a whole SID lies between byte 8 and the end of
    the buffer (not of the ACE); an ACE of any other type comes back with
    mask 0 and no trustee. *)
Theorem ParseACE_accepts (data : list byte) :
  (is_ok (ParseACE data) = true
   <-> 4 <= len data /\ le16 2 data <= len data
       /\ (at_ 0 data <= 3 -> 8 <= len data))
  /\ forall (ace : ACE) (size : Z),
      ParseACE data = Ok (ace, size) ->
      size = le16 2 data
      /\ AceSize ace = le16 2 data
      /\ AceType ace = at_ 0 data
      /\ AceFlags ace = at_ 1 data
      /\ (at_ 0 data <= 3 ->
          Mask ace = le32 4 data
          /\ (present (AceSID ace)
              <-> 16 <= len data /\ 16 + 4 * at_ 9 data <= len data))
      /\ (3 < at_ 0 data -> Mask ace = 0 /\ AceSID ace = None).
Proof.
  pose proof (at_range 0 data) as Ht.
  unfold ParseACE.
  destruct (len data <? 4) eqn:H4.
  { split; [simpl; split; [discriminate | lia] | discriminate]. }
  rewrite (le16_slice 2 data ltac:(lia) : Uint16 (slice 2 4 data) = _).
  destruct (len data <? le16 2 data) eqn:Hsz.
  { split; [simpl; split; [discriminate | lia] | discriminate]. }
  unfold ACCESS_ALLOWED_ACE_TYPE, ACCESS_DENIED_ACE_TYPE,
    SYSTEM_AUDIT_ACE_TYPE, SYSTEM_ALARM_ACE_TYPE.
  destruct ((at_ 0 data =? 0) || (at_ 0 data =? 1)
            || (at_ 0 data =? 2) || (at_ 0 data =? 3)) eqn:Hstd.
  - assert (at_ 0 data <= 3) as Hle by lia.
    destruct (len data <? 8) eqn:H8.
    { split; [simpl; split; [discriminate | lia] | discriminate]. }
    split; [simpl; split; [lia | reflexivity] |].
    intros ace size Hok. injection Hok as <- <-.
    cbn [AceSize AceType AceFlags Mask AceSID].
    rewrite (le32_slice 4 data ltac:(lia) : Uint32 (slice 4 8 data) = _).
    repeat (split; [reflexivity |]).
    split; [intros _ | lia].
    split; [reflexivity |].
    unfold present.
    destruct (8 <? len data) eqn:Hgt; [| split; [congruence | lia]].
    pose proof (ParseSID_from_ok_iff 8 data ltac:(lia)) as Hiff.
    replace (8 + 1) with 9 in Hiff by lia.
    destruct (ParseSID (from 8 data)); simpl in Hiff.
    + split; [intros _; apply Hiff; reflexivity | congruence].
    + split; [congruence |].
      intros H. assert (false = true) by (apply Hiff; lia). discriminate.
  - assert (3 < at_ 0 data) as Hgt by lia.
    split; [simpl; split; [lia | reflexivity] |].
    intros ace size Hok. injection Hok as <- <-.
    cbn [AceSize AceType AceFlags Mask AceSID].
    repeat (split; [reflexivity |]).
    split; [lia | intros _; split; reflexivity].
Qed.


Lemma slice_prefix (lo hi n : Z) (data rest : list byte) :
  0 <= lo <= hi -> hi <= n <= len data ->
  slice lo hi (firstn (Z.to_nat n) data ++ rest) = slice lo hi data.
Proof.
  intros Hlo Hn. unfold slice, len in *.
  rewrite skipn_app, firstn_app.
  rewrite length_skipn, length_firstn.
  replace (Z.to_nat (hi - lo)
           - (Init.Nat.min (Z.to_nat n) (List.length data) - Z.to_nat lo))%nat
    with 0%nat by lia.
  rewrite firstn_O, app_nil_r.
  rewrite skipn_firstn_comm, firstn_firstn.
  f_equal. lia.
Qed.

Lemma at_prefix (i n : Z) (data rest : list byte) :
  0 <= i < n -> n <= len data ->
  at_ i (firstn (Z.to_nat n) data ++ rest) = at_ i data.
Proof.
  intros Hi Hn. unfold at_, len in *.
  rewrite app_nth1 by (rewrite length_firstn; lia).
  f_equal. rewrite nth_firstn.
  destruct (Z.to_nat i <? Z.to_nat n)%nat eqn:Hlt; [reflexivity |].
  apply Nat.ltb_ge in Hlt. lia.
Qed.

(** X3: a SID that [ParseSID] returns has exactly as many sub-authorities
    as its count field says, so [Size] is the number of bytes it was read
    from; that many bytes are there, and they are all the parser looks at:
    whatever follows them in the buffer, the result is the same. *)
Theorem ParseSID_reads_Size (data : list byte) (sid : SID) :
  ParseSID data = Ok sid ->
  Size sid = 8 + 4 * len (SubAuthorities sid)
  /\ Size sid <= len data
  /\ forall rest : list byte,
      ParseSID (slice 0 (Size sid) data ++ rest) = Ok sid.
Proof.
  pose proof (at_range 1 data) as Hc.
  unfold ParseSID.
  destruct (len data <? 8) eqn:H8; [discriminate |].
  destruct (len data <? 8 + at_ 1 data * 4) eqn:Hn; [discriminate |].
  intros Hok. injection Hok as <-.
  unfold Size. cbn [SubAuthorityCount SubAuthorities].
  split.
  { unfold len. rewrite length_map, length_seq. lia. }
  split; [lia |].
  intros rest.
  set (n := 8 + at_ 1 data * 4).
  replace (slice 0 n data) with (firstn (Z.to_nat n) data)
    by (unfold slice; rewrite skipn_O; f_equal; lia).
  assert (len (firstn (Z.to_nat n) data ++ rest) = n + len rest) as Hlen.
  { rewrite len_app. unfold len in *. rewrite length_firstn. lia. }
  pose proof (len_nonneg rest) as Hrest.
  rewrite Hlen.
  destruct (n + len rest <? 8) eqn:H8'; [lia |].
  rewrite (at_prefix 1 n) by lia.
  destruct (n + len rest <? 8 + at_ 1 data * 4) eqn:Hn'; [lia |].
  rewrite (at_prefix 0 n) by lia.
  rewrite (slice_prefix 2 8 n) by lia.
  f_equal. f_equal.
  apply map_ext_in. intros i Hi. apply in_seq in Hi.
  cbv zeta. rewrite slice_prefix by lia. reflexivity.
Qed.


(** A witness: Everyone, followed by bytes that are not part of it. *)
Lemma ParseSID_reads_Size_witness :
  ParseSID (everyone_sid ++ [xff; xff])
  = Ok (mkSID 1 1 [x00; x00; x00; x00; x00; x01] [0])
  /\ Size (mkSID 1 1 [x00; x00; x00; x00; x00; x01] [0])
     = 8 + 4 * len [0]
  /\ Size (mkSID 1 1 [x00; x00; x00; x00; x00; x01] [0])
     <= len (everyone_sid ++ [xff; xff])
  /\ forall rest : list byte,
      ParseSID (slice 0 (Size (mkSID 1 1 [x00; x00; x00; x00; x00; x01] [0]))
                      (everyone_sid ++ [xff; xff]) ++ rest)
      = Ok (mkSID 1 1 [x00; x00; x00; x00; x00; x01] [0]).
Proof.
  split; [reflexivity |].
  apply (ParseSID_reads_Size (everyone_sid ++ [xff; xff])). reflexivity.
Defined.

End Descriptors.

(** ** The text of a SID *)

Section SIDText.
Import smb smbaux gostrings rules.

Lemma chars_app (s t : string) : chars (s +:+ t) = chars s ++ chars t.
Proof.
  rewrite <- (chars_text (chars s ++ chars t)), text_app, !text_chars.
  reflexivity.
Qed.

Lemma to_uint_not_Nil (n : N) : N.to_uint n <> Decimal.Nil.
Proof.
  rewrite <- (DecimalN.Unsigned.of_to n) at 1.
  rewrite DecimalN.Unsigned.to_of.
  unfold Decimal.unorm. destruct (Decimal.nzhead (N.to_uint n)); discriminate.
Qed.

Lemma fmt_d_inj (a b : Z) : 0 <= a -> 0 <= b -> fmt_d a = fmt_d b -> a = b.
Proof.
  intros Ha Hb. unfold fmt_d.
  destruct (a <? 0) eqn:Ha'; [lia |].
  destruct (b <? 0) eqn:Hb'; [lia |].
  intros Heq.
  apply (f_equal NilZero.uint_of_string) in Heq.
  rewrite !NilZero.usu in Heq by apply to_uint_not_Nil.
  injection Heq as Heq. apply DecimalN.Unsigned.to_uint_inj in Heq. lia.
Qed.

Lemma NilEmpty_digits (d : Decimal.uint) :
  Forall (fun c => isDigit c = true) (chars (NilEmpty.string_of_uint d)).
Proof.
  induction d; simpl; constructor; try assumption; reflexivity.
Qed.

Lemma fmt_d_digits (z : Z) :
  0 <= z ->
  Forall (fun c => isDigit c = true) (chars (fmt_d z)) /\ chars (fmt_d z) <> [].
Proof.
  intros Hz. unfold fmt_d. destruct (z <? 0) eqn:Hneg; [lia |].
  pose proof (to_uint_not_Nil (Z.to_N z)) as Hnil.
  destruct (N.to_uint (Z.to_N z)) eqn:Hd; try congruence;
    (split; [apply (NilEmpty_digits (_ u)) | discriminate]).
Qed.

Lemma digits_split (d1 : list ascii) :
  forall d2 r1 r2 : list ascii,
    Forall (fun c => isDigit c = true) d1 ->
    Forall (fun c => isDigit c = true) d2 ->
    stops r1 -> stops r2 ->
    d1 ++ r1 = d2 ++ r2 -> d1 = d2 /\ r1 = r2.
Proof.
  induction d1 as [| c d1 IH]; intros d2 r1 r2 H1 H2 S1 S2 Heq.
  - destruct d2 as [| c2 d2]; [split; [reflexivity | exact Heq] |].
    simpl in Heq. subst r1. simpl in S1.
    inversion H2; subst. congruence.
  - destruct d2 as [| c2 d2].
    + simpl in Heq. subst r2. simpl in S2.
      inversion H1; subst. congruence.
    + simpl in Heq. injection Heq as -> Heq.
      inversion H1; subst. inversion H2; subst.
      destruct (IH d2 r1 r2) as [-> ->]; auto.
Qed.

Lemma dashed_stops (xs : list Z) : stops (dashed xs).
Proof. destruct xs; simpl; [exact I | reflexivity]. Qed.

Lemma dashed_inj (xs : list Z) :
  forall ys : list Z,
    Forall (fun x => 0 <= x) xs -> Forall (fun y => 0 <= y) ys ->
    dashed xs = dashed ys -> xs = ys.
Proof.
  induction xs as [| x xs IH]; intros ys Hx Hy Heq.
  - destruct ys; [reflexivity | discriminate].
  - destruct ys as [| y ys]; [discriminate |].
    inversion Hx; subst. inversion Hy; subst.
    unfold dashed in Heq. simpl in Heq. injection Heq as Heq.
    fold (dashed xs) in Heq. fold (dashed ys) in Heq.
    destruct (fmt_d_digits x ltac:(assumption)) as [Dx _].
    destruct (fmt_d_digits y ltac:(assumption)) as [Dy _].
    destruct (digits_split _ _ _ _ Dx Dy (dashed_stops xs) (dashed_stops ys) Heq)
      as [Hd Hr].
    apply chars_inj in Hd. apply fmt_d_inj in Hd; try assumption.
    subst y. f_equal. apply IH; assumption.
Qed.

Lemma SID_String_chars (s : SID) :
  chars (SID_String (Some s))
  = chars "S-" ++ chars (fmt_d (Revision s))
    ++ dashed (authorityValue (IdentifierAuthority s) :: SubAuthorities s).
Proof.
  unfold SID_String. fold (authorityValue (IdentifierAuthority s)).
  unfold dashed. cbn [map concat].
  generalize (authorityValue (IdentifierAuthority s)) as auth.
  generalize (fmt_d (Revision s)) as rev. intros rev auth.
  assert (forall (l : list Z) (init : string),
             chars (fold_left (fun sb sa => sb +:+ "-" +:+ fmt_d sa) l init)
             = chars init
               ++ concat (map (fun x => chars "-" ++ chars (fmt_d x)) l))
    as Hfold.
  { induction l as [| x l IH]; intros init; simpl.
    - rewrite app_nil_r. reflexivity.
    - rewrite IH, !chars_app, <- !app_assoc. reflexivity. }
  rewrite Hfold, !chars_app, <- !app_assoc. reflexivity.
Qed.


Lemma authority_step (acc : Z) (b : byte) :
  Z.lor (Z.shiftl acc 8) (u8 b) = 256 * acc + u8 b.
Proof.
  pose proof (u8_range b).
  rewrite Z.lor_comm, (lor_shiftl_add (u8 b) acc 8) by lia. lia.
Qed.

Lemma u8_inj (b c : byte) : u8 b = u8 c -> b = c.
Proof.
  unfold u8. intros H. apply N2Z.inj in H.
  apply (f_equal Byte.of_N) in H. rewrite !Byte.of_to_N in H.
  congruence.
Qed.

Lemma authorityValue_nonneg (l : list byte) : 0 <= authorityValue l.
Proof.
  unfold authorityValue.
  assert (forall acc, 0 <= acc ->
            0 <= fold_left (fun acc b => Z.lor (Z.shiftl acc 8) (u8 b)) l acc)
    as H.
  { induction l as [| b l IH]; intros acc Hacc; simpl; [assumption |].
    apply IH. rewrite authority_step. pose proof (u8_range b). lia. }
  apply H. lia.
Qed.

Lemma authority_fold_inj (l : list byte) :
  forall (k : list byte) (acc1 acc2 : Z),
    List.length l = List.length k ->
    fold_left (fun acc b => Z.lor (Z.shiftl acc 8) (u8 b)) l acc1
    = fold_left (fun acc b => Z.lor (Z.shiftl acc 8) (u8 b)) k acc2 ->
    acc1 = acc2 /\ l = k.
Proof.
  induction l as [| b l IH]; intros k acc1 acc2 Hlen Heq;
    destruct k as [| c k]; try discriminate.
  - simpl in Heq. split; [assumption | reflexivity].
  - simpl in Hlen, Heq. injection Hlen as Hlen.
    destruct (IH k _ _ Hlen Heq) as [Hacc ->].
    rewrite !authority_step in Hacc.
    pose proof (u8_range b). pose proof (u8_range c).
    assert (acc1 = acc2 /\ u8 b = u8 c) as [-> Hb] by lia.
    apply u8_inj in Hb. subst c. split; reflexivity.
Qed.

Lemma authorityValue_inj (l k : list byte) :
  List.length l = 6%nat -> List.length k = 6%nat ->
  authorityValue l = authorityValue k -> l = k.
Proof.
  intros Hl Hk Heq. unfold authorityValue in Heq.
  apply authority_fold_inj in Heq; [apply Heq | congruence].
Qed.

Lemma ParseSID_shape (data : list byte) (sid : SID) :
  ParseSID data = Ok sid ->
  0 <= Revision sid
  /\ SubAuthorityCount sid = len (SubAuthorities sid)
  /\ List.length (IdentifierAuthority sid) = 6%nat
  /\ Forall (fun x => 0 <= x) (SubAuthorities sid).
Proof.
  pose proof (at_range 0 data). pose proof (at_range 1 data).
  unfold ParseSID.
  destruct (len data <? 8) eqn:H8; [discriminate |].
  destruct (len data <? 8 + at_ 1 data * 4) eqn:Hn; [discriminate |].
  intros Hok. injection Hok as <-.
  cbn [Revision SubAuthorityCount IdentifierAuthority SubAuthorities].
  split; [lia |]. split.
  { unfold len. rewrite length_map, length_seq. lia. }
  split.
  { unfold slice, len in *. rewrite length_firstn, length_skipn. lia. }
  apply List.Forall_forall. intros x Hx. apply in_map_iff in Hx.
  destruct Hx as (i & <- & _). cbv zeta.
  rewrite le32_slice by lia.
  pose proof (le32_range (8 + Z.of_nat i * 4) data). lia.
Qed.

Lemma SID_String_fields (sid1 sid2 : SID) :
  0 <= Revision sid1 -> 0 <= Revision sid2 ->
  Forall (fun x => 0 <= x) (SubAuthorities sid1) ->
  Forall (fun x => 0 <= x) (SubAuthorities sid2) ->
  SID_String (Some sid1) = SID_String (Some sid2) ->
  Revision sid1 = Revision sid2
  /\ authorityValue (IdentifierAuthority sid1)
     = authorityValue (IdentifierAuthority sid2)
  /\ SubAuthorities sid1 = SubAuthorities sid2.
Proof.
  intros R1 R2 S1 S2 Heq.
  apply (f_equal chars) in Heq. rewrite !SID_String_chars in Heq.
  apply app_inv_head in Heq.
  destruct (fmt_d_digits _ R1) as [D1 _].
  destruct (fmt_d_digits _ R2) as [D2 _].
  destruct (digits_split _ _ _ _ D1 D2 (dashed_stops _) (dashed_stops _) Heq)
    as [Hrev Htail].
  apply chars_inj, fmt_d_inj in Hrev; try assumption.
  apply dashed_inj in Htail;
    try (constructor; [apply authorityValue_nonneg | assumption]).
  injection Htail as Hauth Hsubs. auto.
Qed.

(** X4: the text [String] prints decides the SID.  Two SIDs that
    [ParseSID] returned and that print the same text are the same SID:
    same revision, same count, same six authority bytes, same
    sub-authorities.  So distinct trustees never share a key of a rights
    map or a node id. *)
Theorem SID_String_decides_SID (data1 data2 : list byte) (sid1 sid2 : SID) :
  ParseSID data1 = Ok sid1 ->
  ParseSID data2 = Ok sid2 ->
  SID_String (Some sid1) = SID_String (Some sid2) ->
  sid1 = sid2.
Proof.
  intros H1 H2 Heq.
  destruct (ParseSID_shape _ _ H1) as (R1 & C1 & A1 & S1).
  destruct (ParseSID_shape _ _ H2) as (R2 & C2 & A2 & S2).
  destruct (SID_String_fields _ _ R1 R2 S1 S2 Heq) as (Hrev & Hauth & Hsubs).
  apply authorityValue_inj in Hauth; try assumption.
  destruct sid1, sid2. cbn in *. subst. reflexivity.
Qed.

(** A witness: Everyone, read from two different buffers. *)
Lemma SID_String_decides_SID_witness :
  ParseSID everyone_sid = Ok (mkSID 1 1 [x00; x00; x00; x00; x00; x01] [0])
  /\ ParseSID (everyone_sid ++ [xff; xff])
     = Ok (mkSID 1 1 [x00; x00; x00; x00; x00; x01] [0])
  /\ SID_String (Some (mkSID 1 1 [x00; x00; x00; x00; x00; x01] [0]))
     = "S-1-1-0"
  /\ mkSID 1 1 [x00; x00; x00; x00; x00; x01] [0]
     = mkSID 1 1 [x00; x00; x00; x00; x00; x01] [0].
Proof.
  split; [reflexivity |]. split; [reflexivity |]. split; [reflexivity |].
  apply (SID_String_decides_SID everyone_sid (everyone_sid ++ [xff; xff]));
    reflexivity.
Defined.


Lemma HasPrefix_chars (p : string) :
  forall s : string,
    HasPrefix s p = true <-> exists t : list ascii, chars s = chars p ++ t.
Proof.
  unfold HasPrefix.
  induction p as [| a p IH]; intros s; simpl.
  - split; [intros _; exists (chars s); reflexivity |].
    intros _. destruct s; reflexivity.
  - destruct s as [| c s]; simpl.
    + split; [discriminate | intros [t Ht]; discriminate].
    + destruct (ascii_dec a c) as [-> | Hne].
      * rewrite IH. split; intros [t Ht]; exists t.
        -- unfold chars in *. simpl. f_equal. exact Ht.
        -- unfold chars in *. simpl in Ht. injection Ht as Ht. exact Ht.
      * split; [discriminate |].
        intros [t Ht]. unfold chars in Ht. simpl in Ht. congruence.
Qed.

Lemma dashed_cons (x : Z) (xs : list Z) :
  dashed (x :: xs) = "-"%char :: (chars (fmt_d x) ++ dashed xs).
Proof. reflexivity. Qed.

(** A text that starts with [S-r-a-x-]: what that says of the SID. *)
Lemma SID_String_prefix (sid : SID) (r a x : Z) :
  0 <= Revision sid -> Forall (fun x => 0 <= x) (SubAuthorities sid) ->
  0 <= r -> 0 <= a -> 0 <= x ->
  (exists t : list ascii,
      chars (SID_String (Some sid))
      = (chars "S-" ++ chars (fmt_d r) ++ dashed [a; x] ++ chars "-") ++ t)
  <-> Revision sid = r
      /\ authorityValue (IdentifierAuthority sid) = a
      /\ exists (y : Z) (rest : list Z), SubAuthorities sid = x :: y :: rest.
Proof.
  intros HR HS Hr Ha Hx.
  rewrite SID_String_chars.
  destruct (fmt_d_digits _ HR) as [DR _].
  destruct (fmt_d_digits _ Hr) as [Dr _].
  destruct (fmt_d_digits _ Ha) as [Da _].
  destruct (fmt_d_digits _ Hx) as [Dx _].
  destruct (fmt_d_digits _ (authorityValue_nonneg (IdentifierAuthority sid)))
    as [DA _].
  change (chars "-") with ["-"%char].
  rewrite !dashed_cons. change (dashed []) with (@nil ascii).
  rewrite app_nil_r.
  split.
  - intros [t Heq].
    rewrite <- !app_assoc in Heq. apply app_inv_head in Heq.
    apply digits_split in Heq; try assumption; try reflexivity.
    destruct Heq as [Hrev Htail].
    apply chars_inj, fmt_d_inj in Hrev; try assumption.
    split; [assumption |].
    rewrite <- !app_comm_cons, <- !app_assoc in Htail.
    injection Htail as Htail.
    apply digits_split in Htail;
      try assumption; try reflexivity; try apply dashed_stops.
    destruct Htail as [Hauth Htail].
    apply chars_inj, fmt_d_inj in Hauth;
      try assumption; try apply authorityValue_nonneg.
    split; [assumption |].
    destruct (SubAuthorities sid) as [| x' subs]; [discriminate |].
    inversion HS as [| ? ? Hx' HS']; subst.
    destruct (fmt_d_digits _ Hx') as [Dx' _].
    rewrite dashed_cons in Htail. injection Htail as Htail.
    apply digits_split in Htail;
      try assumption; try reflexivity; try apply dashed_stops.
    destruct Htail as [Hx0 Htail].
    apply chars_inj, fmt_d_inj in Hx0; try assumption. subst x'.
    destruct subs as [| y rest]; [discriminate |].
    exists y, rest. reflexivity.
  - intros (-> & -> & y & rest & ->).
    exists (chars (fmt_d y) ++ dashed rest).
    rewrite !dashed_cons.
    repeat (rewrite <- app_comm_cons || rewrite <- app_assoc).
    cbn [app]. reflexivity.
Qed.

(** X5: which SIDs [IsDomainSID] takes for domain SIDs, going by their
    text.  The text of a parsed SID starts with [S-1-5-21-] exactly when
    the revision is 1, the identifier authority is 5, the first
    sub-authority is 21 and at least one more sub-authority follows: the
    bare [S-1-5-21] is not a domain SID, and no other authority or first
    sub-authority whose digits start the same way is taken for one. *)
Theorem IsDomainSID_of_parsed (data : list byte) (sid : SID) :
  ParseSID data = Ok sid ->
  IsDomainSID (SID_String (Some sid)) = true
  <-> Revision sid = 1
      /\ authorityValue (IdentifierAuthority sid) = 5
      /\ exists (y : Z) (rest : list Z), SubAuthorities sid = 21 :: y :: rest.
Proof.
  intros Hok. destruct (ParseSID_shape _ _ Hok) as (HR & _ & _ & HS).
  unfold IsDomainSID. rewrite HasPrefix_chars.
  change (chars "S-1-5-21-")
    with (chars "S-" ++ chars (fmt_d 1) ++ dashed [5; 21] ++ chars "-").
  apply SID_String_prefix; try assumption; lia.
Qed.

Lemma IsDomainSID_of_parsed_witness :
  ParseSID domain_sid
  = Ok (mkSID 1 2 [x00; x00; x00; x00; x00; x05] [21; 7])
  /\ (IsDomainSID
        (SID_String (Some (mkSID 1 2 [x00; x00; x00; x00; x00; x05] [21; 7])))
      = true
      <-> Revision (mkSID 1 2 [x00; x00; x00; x00; x00; x05] [21; 7]) = 1
          /\ authorityValue
               (IdentifierAuthority
                  (mkSID 1 2 [x00; x00; x00; x00; x00; x05] [21; 7])) = 5
          /\ exists (y : Z) (rest : list Z),
              SubAuthorities (mkSID 1 2 [x00; x00; x00; x00; x00; x05] [21; 7])
              = 21 :: y :: rest).
Proof.
  split; [reflexivity |].
  apply (IsDomainSID_of_parsed domain_sid). reflexivity.
Defined.

(** X6: the SIDs [IsWellKnown] accepts.  A parsed SID is well known
    exactly when it has revision 1 and authority 5 and either its only
    sub-authority is 18, 19 or 20, or its first sub-authority is 32 and at
    least one more follows. *)
Theorem IsWellKnown_of_parsed (data : list byte) (sid : SID) :
  ParseSID data = Ok sid ->
  IsWellKnown (Some sid) = true
  <-> Revision sid = 1
      /\ authorityValue (IdentifierAuthority sid) = 5
      /\ (SubAuthorities sid = [18] \/ SubAuthorities sid = [19]
          \/ SubAuthorities sid = [20]
          \/ exists (y : Z) (rest : list Z),
              SubAuthorities sid = 32 :: y :: rest).
Proof.
  intros Hok. destruct (ParseSID_shape _ _ Hok) as (HR & _ & _ & HS).
  assert (forall x : Z,
             0 <= x ->
             String.eqb (SID_String (Some sid))
                        (SID_String (Some (mkSID 1 1 [x00; x00; x00; x00; x00; x05] [x])))
             = true
             <-> Revision sid = 1
                 /\ authorityValue (IdentifierAuthority sid) = 5
                 /\ SubAuthorities sid = [x]) as Hone.
  { intros x Hx. rewrite String.eqb_eq. split.
    - intros Heq.
      exact (SID_String_fields
               sid (mkSID 1 1 [x00; x00; x00; x00; x00; x05] [x])
               HR ltac:(simpl; lia) HS
               ltac:(constructor; [assumption | constructor]) Heq).
    - intros (Hr & Ha & Hs).
      apply chars_inj. rewrite !SID_String_chars.
      cbn [Revision IdentifierAuthority SubAuthorities].
      rewrite Hr, Ha, Hs. reflexivity. }
  unfold IsWellKnown. cbv zeta.
  rewrite !orb_true_iff, HasPrefix_chars.
  change (chars "S-1-5-32-")
    with (chars "S-" ++ chars (fmt_d 1) ++ dashed [5; 32] ++ chars "-").
  rewrite (SID_String_prefix sid 1 5 32) by (try assumption; lia).
  change "S-1-5-18"
    with (SID_String (Some (mkSID 1 1 [x00; x00; x00; x00; x00; x05] [18]))).
  change "S-1-5-19"
    with (SID_String (Some (mkSID 1 1 [x00; x00; x00; x00; x00; x05] [19]))).
  change "S-1-5-20"
    with (SID_String (Some (mkSID 1 1 [x00; x00; x00; x00; x00; x05] [20]))).
  rewrite !Hone by lia.
  tauto.
Qed.


Lemma IsWellKnown_of_parsed_witness :
  ParseSID administrators_sid
  = Ok (mkSID 1 2 [x00; x00; x00; x00; x00; x05] [32; 544])
  /\ (IsWellKnown (Some (mkSID 1 2 [x00; x00; x00; x00; x00; x05] [32; 544]))
      = true
      <-> Revision (mkSID 1 2 [x00; x00; x00; x00; x00; x05] [32; 544]) = 1
          /\ authorityValue
               (IdentifierAuthority
                  (mkSID 1 2 [x00; x00; x00; x00; x00; x05] [32; 544])) = 5
          /\ (SubAuthorities
                (mkSID 1 2 [x00; x00; x00; x00; x00; x05] [32; 544]) = [18]
              \/ SubAuthorities
                   (mkSID 1 2 [x00; x00; x00; x00; x00; x05] [32; 544]) = [19]
              \/ SubAuthorities
                   (mkSID 1 2 [x00; x00; x00; x00; x00; x05] [32; 544]) = [20]
              \/ exists (y : Z) (rest : list Z),
                  SubAuthorities
                    (mkSID 1 2 [x00; x00; x00; x00; x00; x05] [32; 544])
                  = 32 :: y :: rest)).
Proof.
  split; [reflexivity |].
  apply (IsWellKnown_of_parsed administrators_sid). reflexivity.
Defined.

End SIDText.

(** ** The share-information response *)

Section ShareInfoResponse.
Import smb smbaux.

Lemma Uint16_from (off : Z) (data : list byte) :
  0 <= off -> Uint16 (from off data) = le16 off data.
Proof.
  intros Hoff. unfold Uint16, le16.
  rewrite !at_from by lia.
  pose proof (at_range (off + 0) data).
  rewrite (lor_shiftl_add _ _ 8) by lia.
  replace (off + 0) with off by lia. lia.
Qed.

Lemma Uint32_from (off : Z) (data : list byte) :
  0 <= off -> Uint32 (from off data) = le32 off data.
Proof.
  intros Hoff. unfold Uint32, le32.
  rewrite !at_from by lia.
  pose proof (at_range (off + 0) data).
  pose proof (at_range (off + 1) data).
  pose proof (at_range (off + 2) data).
  rewrite (lor_shiftl_add (at_ (off + 0) data)) by lia.
  rewrite (lor_shiftl_add _ _ 16) by lia.
  rewrite (lor_shiftl_add _ _ 24) by lia.
  replace (off + 0) with off by lia. lia.
Qed.

Lemma len_slice (lo hi : Z) (data : list byte) :
  0 <= lo <= hi -> hi <= len data -> len (slice lo hi data) = hi - lo.
Proof.
  intros Hlo Hhi. unfold slice, len in *.
  rewrite length_firstn, length_skipn. lia.
Qed.

(** The largest of 20 and the four component offsets. *)
Lemma calculateSDLength_cases (data : list byte) :
  20 <= len data ->
  exists maxOffset : Z,
    20 <= maxOffset < 4294967296
    /\ (maxOffset = 20 \/ maxOffset = le32 4 data \/ maxOffset = le32 8 data
        \/ maxOffset = le32 12 data \/ maxOffset = le32 16 data)
    /\ le32 4 data <= maxOffset /\ le32 8 data <= maxOffset
    /\ le32 12 data <= maxOffset /\ le32 16 data <= maxOffset
    /\ (calculateSDLength data = maxOffset + 64
        \/ (20 < maxOffset /\ maxOffset + 8 <= len data
            /\ at_ maxOffset data = 1
            /\ calculateSDLength data
               = maxOffset + 8 + at_ (maxOffset + 1) data * 4)
        \/ (20 < maxOffset /\ maxOffset + 8 <= len data
            /\ at_ maxOffset data = 2
            /\ calculateSDLength data
               = maxOffset + le16 (maxOffset + 2) data)).
Proof.
  intros H20. unfold calculateSDLength.
  destruct (len data <? 20) eqn:Hlt; [lia |].
  rewrite (le32_slice 4 data ltac:(lia) : Uint32 (slice 4 8 data) = _).
  rewrite (le32_slice 8 data ltac:(lia) : Uint32 (slice 8 12 data) = _).
  rewrite (le32_slice 12 data ltac:(lia) : Uint32 (slice 12 16 data) = _).
  rewrite (le32_slice 16 data ltac:(lia) : Uint32 (slice 16 20 data) = _).
  pose proof (le32_range 4 data). pose proof (le32_range 8 data).
  pose proof (le32_range 12 data). pose proof (le32_range 16 data).
  cbv zeta.
  set (m1 := if (0 <? le32 4 data) && (20 <? le32 4 data)
             then le32 4 data else 20).
  set (m2 := if (0 <? le32 8 data) && (m1 <? le32 8 data)
             then le32 8 data else m1).
  set (m3 := if (0 <? le32 12 data) && (m2 <? le32 12 data)
             then le32 12 data else m2).
  set (m4 := if (0 <? le32 16 data) && (m3 <? le32 16 data)
             then le32 16 data else m3).
  assert (20 <= m1 /\ le32 4 data <= m1 /\ (m1 = 20 \/ m1 = le32 4 data))
    as (? & ? & ?).
  { subst m1. destruct ((0 <? le32 4 data) && (20 <? le32 4 data)) eqn:E; lia. }
  assert (m1 <= m2 /\ le32 8 data <= m2 /\ (m2 = m1 \/ m2 = le32 8 data))
    as (? & ? & ?).
  { subst m2. destruct ((0 <? le32 8 data) && (m1 <? le32 8 data)) eqn:E; lia. }
  assert (m2 <= m3 /\ le32 12 data <= m3 /\ (m3 = m2 \/ m3 = le32 12 data))
    as (? & ? & ?).
  { subst m3. destruct ((0 <? le32 12 data) && (m2 <? le32 12 data)) eqn:E; lia. }
  assert (m3 <= m4 /\ le32 16 data <= m4 /\ (m4 = m3 \/ m4 = le32 16 data))
    as (? & ? & ?).
  { subst m4. destruct ((0 <? le32 16 data) && (m3 <? le32 16 data)) eqn:E; lia. }
  clearbody m1 m2 m3 m4.
  exists m4.
  split; [lia |]. split; [lia |].
  split; [lia |]. split; [lia |]. split; [lia |]. split; [lia |].
  destruct ((20 <? m4) && (m4 <? len data)) eqn:Hin; [| left; reflexivity].
  rewrite len_from by lia.
  destruct (8 <=? len data - m4) eqn:Hrem; [| left; reflexivity].
  rewrite !at_from by lia. replace (m4 + 0) with m4 by lia.
  destruct (at_ m4 data =? 1) eqn:E1.
  { right; left. repeat split; lia. }
  destruct (at_ m4 data =? 2) eqn:E2; [| left; reflexivity].
  right; right.
  rewrite (le16_slice 2 (from m4 data) ltac:(lia)
           : Uint16 (slice 2 4 (from m4 data)) = _).
  unfold le16. rewrite !at_from by lia.
  replace (m4 + (2 + 1)) with (m4 + 2 + 1) by lia.
  fold (le16 (m4 + 2) data).
  repeat split; lia.
Qed.


(** X7: the length [calculateSDLength] estimates.  It is 0 exactly for a
    buffer shorter than the 20-byte header and more than 20 otherwise.
    When no component offset lies beyond the header (as in a descriptor
    whose DACL starts right at offset 20 and that has no owner and no
    group) the estimate is 84, whatever the descriptor contains. *)
Theorem calculateSDLength_estimate (data : list byte) :
  (calculateSDLength data = 0 <-> len data < 20)
  /\ (20 <= len data -> 20 < calculateSDLength data)
  /\ (20 <= len data ->
      le32 4 data <= 20 -> le32 8 data <= 20 ->
      le32 12 data <= 20 -> le32 16 data <= 20 ->
      calculateSDLength data = 84).
Proof.
  assert (20 <= len data -> 20 < calculateSDLength data) as Hpos.
  { intros H20.
    destruct (calculateSDLength_cases data H20)
      as (m & Hm & _ & _ & _ & _ & _ & Hcases).
    pose proof (at_range (m + 1) data). pose proof (le16_range (m + 2) data).
    destruct Hcases as [-> | [(? & ? & ? & ->) | (? & ? & ? & ->)]]; lia. }
  split; [| split; [exact Hpos |]].
  - split.
    + intros H0. destruct (Z.lt_ge_cases (len data) 20) as [Hlt | Hge];
        [assumption |].
      specialize (Hpos ltac:(lia)). lia.
    + intros Hlt. unfold calculateSDLength.
      destruct (len data <? 20) eqn:E; [reflexivity | lia].
  - intros H20 Ho Hg Hs Hd.
    destruct (calculateSDLength_cases data H20)
      as (m & Hm & Hwhich & _ & _ & _ & _ & Hcases).
    assert (m = 20) as -> by lia.
    destruct Hcases as [-> | [(? & _) | (? & _)]]; lia.
Qed.

Lemma extractLoop_found (payload sd : list byte) (remaining : nat) :
  forall i : Z,
    extractLoop payload remaining i = Ok sd ->
    exists j : Z,
      i <= j < i + Z.of_nat remaining /\ descriptorAt payload j = Some sd.
Proof.
  induction remaining as [| n IH]; intros i Hok; simpl in Hok;
    [discriminate |].
  destruct (descriptorAt payload i) as [found |] eqn:Hat.
  - injection Hok as ->. exists i. split; [lia | assumption].
  - destruct (IH _ Hok) as (j & Hj & Hfound).
    exists j. split; [lia | assumption].
Qed.

Lemma descriptorAt_found (payload sd : list byte) (i : Z) :
  0 <= i -> i + 20 < len payload ->
  descriptorAt payload i = Some sd ->
  20 < len sd /\ i + len sd <= len payload
  /\ sd = slice i (i + len sd) payload
  /\ at_ i payload = 1 /\ at_ (i + 1) payload = 0
  /\ Z.land (le16 (i + 2) payload) 0x8004 <> 0
  /\ len sd = calculateSDLength (from i payload).
Proof.
  intros Hi Hlen. unfold descriptorAt.
  destruct ((at_ i payload =? 1) && (at_ (i + 1) payload =? 0)) eqn:Hsig;
    [| discriminate].
  rewrite Uint16_from by lia.
  destruct (Z.land (le16 (i + 2) payload) 32772 =? 0) eqn:Hctl;
    [discriminate |].
  cbn [negb].
  destruct (ParseSecurityDescriptor (from i payload)) as [parsed | ?];
    [| discriminate].
  destruct (Dacl parsed); [| discriminate].
  pose proof (proj1 (proj2 (calculateSDLength_estimate (from i payload))))
    as Hest.
  rewrite len_from in Hest by lia. specialize (Hest ltac:(lia)).
  destruct ((0 <? calculateSDLength (from i payload))
            && (i + calculateSDLength (from i payload) <=? len payload))
    eqn:Hfit; [| discriminate].
  intros Hsd. injection Hsd as <-.
  rewrite len_slice by lia.
  replace (i + calculateSDLength (from i payload) - i)
    with (calculateSDLength (from i payload)) by lia.
  repeat split; first [lia | reflexivity].
Qed.

(** X8: what [extractSecurityDescriptor] returns.  A payload of 20 bytes
    or fewer holds no descriptor for it.  A descriptor it returns is a
    piece of the payload, [payload[i : i+n]], that starts at an index
    [i] with more than 20 bytes behind it, begins with the bytes 1 and
    0 and a control word with one of the bits of [0x8004] set, lies
    wholly inside the payload, and is as long as [calculateSDLength]
    estimates from index [i], which is more than 20 bytes. *)
Theorem extractSecurityDescriptor_slice (payload : list byte) :
  (len payload <= 20 ->
   extractSecurityDescriptor payload
   = Err "security descriptor not found in response")
  /\ forall sd : list byte,
      extractSecurityDescriptor payload = Ok sd ->
      exists i : Z,
        0 <= i /\ i + 20 < len payload
        /\ 20 < len sd /\ i + len sd <= len payload
        /\ sd = slice i (i + len sd) payload
        /\ at_ i payload = 1 /\ at_ (i + 1) payload = 0
        /\ Z.land (le16 (i + 2) payload) 0x8004 <> 0
        /\ len sd = calculateSDLength (from i payload).
Proof.
  unfold extractSecurityDescriptor. split.
  - intros Hshort.
    replace (Z.to_nat (len payload - 20)) with 0%nat by lia. reflexivity.
  - intros sd Hok.
    destruct (extractLoop_found _ _ _ _ Hok) as (i & Hi & Hat).
    exists i.
    assert (0 <= i /\ i + 20 < len payload) as [H0 Hlt] by lia.
    split; [assumption |]. split; [assumption |].
    apply descriptorAt_found; assumption.
Qed.

(** A witness: [padded_descriptor], from which the first 84 bytes come
    back. *)
Lemma extractSecurityDescriptor_slice_witness :
  extractSecurityDescriptor padded_descriptor = Ok padded_descriptor
  /\ exists i : Z,
      0 <= i /\ i + 20 < len padded_descriptor
      /\ 20 < len padded_descriptor
      /\ i + len padded_descriptor <= len padded_descriptor
      /\ padded_descriptor
         = slice i (i + len padded_descriptor) padded_descriptor
      /\ at_ i padded_descriptor = 1 /\ at_ (i + 1) padded_descriptor = 0
      /\ Z.land (le16 (i + 2) padded_descriptor) 0x8004 <> 0
      /\ len padded_descriptor = calculateSDLength (from i padded_descriptor).
Proof.
  split; [vm_compute; reflexivity |].
  apply (proj2 (extractSecurityDescriptor_slice padded_descriptor)).
  vm_compute. reflexivity.
Defined.

Lemma le32_from (off i : Z) (data : list byte) :
  0 <= off -> 0 <= i -> le32 i (from off data) = le32 (off + i) data.
Proof.
  intros Hoff Hi. unfold le32. rewrite !at_from by lia.
  rewrite !Z.add_assoc. reflexivity.
Qed.

Lemma slice_from (off lo hi : Z) (data : list byte) :
  0 <= off -> 0 <= lo ->
  slice lo hi (from off data) = slice (off + lo) (off + hi) data.
Proof.
  intros Hoff Hlo. unfold slice, from.
  rewrite skipn_skipn.
  replace (Z.to_nat lo + Z.to_nat off)%nat with (Z.to_nat (off + lo)) by lia.
  f_equal. lia.
Qed.

(** X9: what [parseShareInfoResponse] accepts.  A response it takes a
    descriptor from has at least 45 bytes, carries the packet type 2 in
    byte 2 and the return code 0 in its last four bytes, and the
    descriptor is a piece [data[i : i+n]] of more than 20 bytes that
    starts behind the 24-byte header and lies inside the response. *)
Theorem parseShareInfoResponse_accepts (data sd : list byte) :
  parseShareInfoResponse data = Ok sd ->
  45 <= len data
  /\ at_ 2 data = rpcResponse
  /\ le32 (len data - 4) data = 0
  /\ exists i : Z,
      24 <= i /\ 20 < len sd /\ i + len sd <= len data
      /\ sd = slice i (i + len sd) data.
Proof.
  unfold parseShareInfoResponse.
  destruct (len data <? 24) eqn:H24; [discriminate |].
  destruct (at_ 2 data =? rpcResponse) eqn:Htype; [| discriminate].
  cbn [negb]. rewrite len_from by lia.
  destruct (len data - 24 <? 8) eqn:H8; [discriminate |].
  rewrite Uint32_from by lia.
  assert (le32 (len data - 24 - 4) (from 24 data) = le32 (len data - 4) data)
    as Hcode.
  { rewrite le32_from by lia. f_equal. lia. }
  rewrite Hcode.
  destruct ((4 <=? len data - 24) && negb (le32 (len data - 4) data =? 0))
    eqn:Hrc; [discriminate |].
  intros Hok.
  destruct (proj2 (extractSecurityDescriptor_slice (from 24 data)) sd Hok)
    as (i & Hi & Hlt & Hsd & Hfit & Hslice & _).
  rewrite len_from in Hlt, Hfit by lia.
  split; [lia |]. split; [lia |]. split; [lia |].
  exists (24 + i).
  split; [lia |]. split; [lia |]. split; [lia |].
  rewrite Hslice at 1. rewrite slice_from by lia.
  f_equal. lia.
Qed.

Lemma parseShareInfoResponse_accepts_witness :
  parseShareInfoResponse share_info_response = Ok padded_descriptor
  /\ 45 <= len share_info_response
  /\ at_ 2 share_info_response = rpcResponse
  /\ le32 (len share_info_response - 4) share_info_response = 0
  /\ exists i : Z,
      24 <= i /\ 20 < len padded_descriptor
      /\ i + len padded_descriptor <= len share_info_response
      /\ padded_descriptor
         = slice i (i + len padded_descriptor) share_info_response.
Proof.
  split; [vm_compute; reflexivity |].
  apply (parseShareInfoResponse_accepts share_info_response).
  vm_compute. reflexivity.
Defined.

End ShareInfoResponse.

(** ** The two mask lookups: which kinds come back *)

Section MaskLookups.
Import smb.

Lemma NoDup_map_filter {A B} (g : A -> B) (f : A -> bool) (l : list A) :
  NoDup (map g l) -> NoDup (map g (List.filter f l)).
Proof.
  rewrite !NoDup_ListNoDup.
  induction l as [| a l IH]; simpl; intros Hnd; [constructor |].
  apply List.NoDup_cons_iff in Hnd. destruct Hnd as [Hnotin Hnd].
  destruct (f a); simpl; [| apply IH; assumption].
  apply List.NoDup_cons; [| apply IH; assumption].
  intros Hin. apply Hnotin.
  apply in_map_iff in Hin. destruct Hin as (x & Hx & Hin).
  apply filter_In in Hin. apply in_map_iff. exists x. tauto.
Qed.

Lemma share_names_NoDup : NoDup (map fst ShareRightsMapping).
Proof. apply (bool_decide_unpack _). vm_compute. reflexivity. Qed.

Lemma ntfs_names_NoDup : NoDup (map fst NTFSRightsMapping).
Proof. apply (bool_decide_unpack _). vm_compute. reflexivity. Qed.

Lemma rangeRights_members (table order : list (string * Z)) (mask : Z) :
  NoDup (map fst table) ->
  MapRange table order ->
  NoDup (rangeRights order mask)
  /\ forall kind : string,
      In kind (rangeRights order mask)
      <-> exists flag : Z, In (kind, flag) table /\ Z.land mask flag <> 0.
Proof.
  intros Hnd Hperm. unfold MapRange in Hperm.
  rewrite rangeRights_filter. split.
  - apply NoDup_map_filter.
    apply NoDup_ListNoDup. apply NoDup_ListNoDup in Hnd.
    apply (Permutation_NoDup (Permutation_map fst Hperm)). exact Hnd.
  - intros kind. rewrite in_map_iff. split.
    + intros ([k flag] & Hk & Hin). simpl in Hk. subst k.
      apply filter_In in Hin. destruct Hin as [Hin Hflag].
      exists flag. split.
      * apply (Permutation_in _ (Permutation_sym Hperm)). exact Hin.
      * unfold hasFlag in Hflag. simpl in Hflag. lia.
    + intros (flag & Hin & Hflag).
      exists (kind, flag). split; [reflexivity |].
      apply filter_In. split.
      * apply (Permutation_in _ Hperm). exact Hin.
      * unfold hasFlag. simpl. lia.
Qed.

(** X10: which kinds the two lookups return.  In whatever order a call
    ranges over its table, [GetShareRightsForMask] and
    [GetNTFSRightsForMask] return each kind at most once, and return a
    kind exactly when the table pairs it with a flag that has a bit in
    common with the mask. *)
Theorem rights_for_mask_members
        (shareOrder ntfsOrder : list (string * Z)) (mask : Z) :
  MapRange ShareRightsMapping shareOrder ->
  MapRange NTFSRightsMapping ntfsOrder ->
  (NoDup (GetShareRightsForMask shareOrder mask)
   /\ forall kind : string,
       In kind (GetShareRightsForMask shareOrder mask)
       <-> exists flag : Z,
           In (kind, flag) ShareRightsMapping /\ Z.land mask flag <> 0)
  /\ (NoDup (GetNTFSRightsForMask ntfsOrder mask)
      /\ forall kind : string,
          In kind (GetNTFSRightsForMask ntfsOrder mask)
          <-> exists flag : Z,
              In (kind, flag) NTFSRightsMapping /\ Z.land mask flag <> 0).
Proof.
  intros Hshare Hntfs. split.
  - apply (rangeRights_members ShareRightsMapping);
      [apply share_names_NoDup | exact Hshare].
  - apply (rangeRights_members NTFSRightsMapping);
      [apply ntfs_names_NoDup | exact Hntfs].
Qed.

Lemma rights_for_mask_members_witness :
  MapRange ShareRightsMapping (rev ShareRightsMapping)
  /\ MapRange NTFSRightsMapping (rev NTFSRightsMapping)
  /\ (NoDup (GetShareRightsForMask (rev ShareRightsMapping) 0x001F01FF)
      /\ forall kind : string,
          In kind (GetShareRightsForMask (rev ShareRightsMapping) 0x001F01FF)
          <-> exists flag : Z,
              In (kind, flag) ShareRightsMapping
              /\ Z.land 0x001F01FF flag <> 0)
  /\ (NoDup (GetNTFSRightsForMask (rev NTFSRightsMapping) 0x001F01FF)
      /\ forall kind : string,
          In kind (GetNTFSRightsForMask (rev NTFSRightsMapping) 0x001F01FF)
          <-> exists flag : Z,
              In (kind, flag) NTFSRightsMapping
              /\ Z.land 0x001F01FF flag <> 0).
Proof.
  split; [apply Permutation_rev |]. split; [apply Permutation_rev |].
  apply (rights_for_mask_members (rev ShareRightsMapping)
                                 (rev NTFSRightsMapping) 0x001F01FF);
    apply Permutation_rev.
Defined.

Lemma land_knownFlags (mask : Z) (table : list (string * Z)) :
  Z.land mask (knownFlags table) = 0
  <-> forall entry, In entry table -> Z.land mask (snd entry) = 0.
Proof.
  unfold knownFlags.
  assert (forall acc,
             Z.land mask (fold_left (fun acc entry => Z.lor acc (snd entry))
                                    table acc) = 0
             <-> Z.land mask acc = 0
                 /\ forall entry, In entry table -> Z.land mask (snd entry) = 0)
    as H.
  { induction table as [| e table IH]; intros acc; simpl.
    - split; [intros H; split; [assumption | intros ? []] | tauto].
    - rewrite IH, Z.land_lor_distr_r, Z.lor_eq_0_iff. split.
      + intros [[Ha He] Hrest]. split; [assumption |].
        intros entry [<- | Hin]; auto.
      + intros [Ha Hall]. split; [split |]; auto. }
  rewrite H. rewrite Z.land_0_r. tauto.
Qed.

Lemma rangeRights_nil (order : list (string * Z)) (mask : Z) :
  rangeRights order mask = [] <-> Z.land mask (knownFlags order) = 0.
Proof.
  rewrite rangeRights_filter, land_knownFlags. split.
  - intros Hnil entry Hin.
    destruct (Z.eq_dec (Z.land mask (snd entry)) 0) as [H0 | Hne];
      [assumption |].
    assert (In entry (List.filter (hasFlag mask) order)) as Hf.
    { apply filter_In. split; [assumption |]. unfold hasFlag. lia. }
    destruct (List.filter (hasFlag mask) order); [destruct Hf | discriminate].
  - intros Hall. rewrite filter_none; [reflexivity |].
    intros entry Hin. unfold hasFlag. rewrite (Hall entry Hin). reflexivity.
Qed.

Lemma knownFlags_Permutation (table order : list (string * Z)) (mask : Z) :
  Permutation table order ->
  Z.land mask (knownFlags order) = 0 <-> Z.land mask (knownFlags table) = 0.
Proof.
  intros Hperm. rewrite !land_knownFlags. split; intros H entry Hin.
  - apply H. apply (Permutation_in _ Hperm). exact Hin.
  - apply H. apply (Permutation_in _ (Permutation_sym Hperm)). exact Hin.
Qed.

(** X11: how many kinds the two lookups return.  In whatever order a call
    ranges over its table, the number of kinds is the number of bits the
    mask shares with the flags of the table, so at most 17 share rights
    and 11 NTFS rights, and none at all exactly when the mask has no bit
    of the table: bits outside the table yield nothing. *)
Theorem rights_for_mask_count
        (shareOrder ntfsOrder : list (string * Z)) (mask : Z) :
  MapRange ShareRightsMapping shareOrder ->
  MapRange NTFSRightsMapping ntfsOrder ->
  len (GetShareRightsForMask shareOrder mask)
  = popcount (Z.land mask (knownFlags ShareRightsMapping))
  /\ len (GetShareRightsForMask shareOrder mask) <= 17
  /\ (GetShareRightsForMask shareOrder mask = []
      <-> Z.land mask (knownFlags ShareRightsMapping) = 0)
  /\ len (GetNTFSRightsForMask ntfsOrder mask)
     = popcount (Z.land mask (knownFlags NTFSRightsMapping))
  /\ len (GetNTFSRightsForMask ntfsOrder mask) <= 11
  /\ (GetNTFSRightsForMask ntfsOrder mask = []
      <-> Z.land mask (knownFlags NTFSRightsMapping) = 0).
Proof.
  intros Hshare Hntfs.
  assert (forall (table order : list (string * Z)),
             MapRange table order ->
             len (rangeRights order mask) <= len table) as Hle.
  { intros table order Hperm. rewrite rangeRights_filter.
    unfold len. rewrite length_map.
    rewrite (Permutation_length Hperm).
    pose proof (filter_length_le (hasFlag mask) order). lia. }
  split; [apply GetShareRightsForMask_count; exact Hshare |].
  split; [apply (Hle ShareRightsMapping); exact Hshare |].
  split.
  { unfold GetShareRightsForMask. rewrite rangeRights_nil.
    apply knownFlags_Permutation. exact Hshare. }
  split; [apply GetNTFSRightsForMask_count; exact Hntfs |].
  split; [apply (Hle NTFSRightsMapping); exact Hntfs |].
  unfold GetNTFSRightsForMask. rewrite rangeRights_nil.
  apply knownFlags_Permutation. exact Hntfs.
Qed.

Lemma rights_for_mask_count_witness :
  MapRange ShareRightsMapping (rev ShareRightsMapping)
  /\ MapRange NTFSRightsMapping (rev NTFSRightsMapping)
  /\ len (GetShareRightsForMask (rev ShareRightsMapping) 0x001F01FF)
     = popcount (Z.land 0x001F01FF (knownFlags ShareRightsMapping))
  /\ len (GetShareRightsForMask (rev ShareRightsMapping) 0x001F01FF) <= 17
  /\ (GetShareRightsForMask (rev ShareRightsMapping) 0x001F01FF = []
      <-> Z.land 0x001F01FF (knownFlags ShareRightsMapping) = 0)
  /\ len (GetNTFSRightsForMask (rev NTFSRightsMapping) 0x001F01FF)
     = popcount (Z.land 0x001F01FF (knownFlags NTFSRightsMapping))
  /\ len (GetNTFSRightsForMask (rev NTFSRightsMapping) 0x001F01FF) <= 11
  /\ (GetNTFSRightsForMask (rev NTFSRightsMapping) 0x001F01FF = []
      <-> Z.land 0x001F01FF (knownFlags NTFSRightsMapping) = 0).
Proof.
  split; [apply Permutation_rev |]. split; [apply Permutation_rev |].
  apply (rights_for_mask_count (rev ShareRightsMapping)
                               (rev NTFSRightsMapping) 0x001F01FF);
    apply Permutation_rev.
Defined.

End MaskLookups.

(** ** The two collectors: what ends up in the rights map *)

Section Collectors.
Import smb collector.

Lemma totalKinds_empty : totalKinds ∅ = 0.
Proof. unfold totalKinds. rewrite map_to_list_empty. reflexivity. Qed.

Lemma totalKinds_insert_fresh (rights : gmap string (list string))
      (sid : string) (kinds : list string) :
  rights !! sid = None ->
  totalKinds (<[sid := kinds]> rights) = totalKinds rights + len kinds.
Proof.
  intros Hnone. unfold totalKinds, len.
  rewrite (Permutation_length
             (Permutation_flat_map snd (map_to_list_insert _ _ _ Hnone))).
  simpl. rewrite length_app. lia.
Qed.

Lemma totalKinds_appendRights (rights : gmap string (list string))
      (sid : string) (kinds : list string) :
  totalKinds (appendRights rights sid kinds) = totalKinds rights + len kinds.
Proof.
  unfold appendRights.
  destruct (rights !! sid) as [old |] eqn:Hold; cbn [default].
  - rewrite <- (insert_delete_eq rights sid (old ++ kinds)).
    rewrite <- (insert_delete_id rights sid old Hold) at 2.
    rewrite !totalKinds_insert_fresh by apply lookup_delete_eq.
    rewrite len_app. lia.
  - rewrite totalKinds_insert_fresh by assumption. reflexivity.
Qed.


Lemma SID_String_not_empty (sid : SID) :
  SID_String (Some sid) <> EmptyString.
Proof.
  intros H. pose proof (SID_String_nonempty sid) as Hne.
  rewrite H in Hne. discriminate.
Qed.

(** One iteration of the NTFS loop, for a table lookup that returns
    [kinds]. *)
Lemma ntfsRightsStep_cases (order : list (string * Z))
      (rights : gmap string (list string)) (ace : ACE) :
  (ntfsRightsStep order rights ace = rights
   /\ (AceSID ace = None \/ rangeRights order (Mask ace) = []))
  \/ (ntfsRightsStep order rights ace
      = appendRights rights (SID_String (AceSID ace))
                     (rangeRights order (Mask ace))
      /\ present (AceSID ace)
      /\ rangeRights order (Mask ace) <> []).
Proof.
  unfold ntfsRightsStep, GetNTFSRightsForMask.
  destruct (AceSID ace) as [sid |] eqn:Hsid; [| left; auto].
  rewrite SID_String_nonempty.
  destruct (rangeRights order (Mask ace)) as [| kind kinds] eqn:Hk.
  - left. split; [reflexivity | right; reflexivity].
  - right. split; [reflexivity |]. split; [unfold present |]; congruence.
Qed.

Lemma shareRightsStep_ntfs (order : list (string * Z))
      (rights : gmap string (list string)) (ace : ACE) :
  shareRightsStep order rights ace
  = if IsAccessAllowed ace then ntfsRightsStep order rights ace else rights.
Proof.
  unfold shareRightsStep, ntfsRightsStep.
  destruct (IsAccessAllowed ace); reflexivity.
Qed.

Lemma rangeRights_nil_table (table order : list (string * Z)) (mask : Z) :
  MapRange table order ->
  rangeRights order mask = [] <-> Z.land mask (knownFlags table) = 0.
Proof.
  intros Hperm. rewrite rangeRights_nil.
  apply knownFlags_Permutation. exact Hperm.
Qed.

(** The effect of one iteration on the number of pairs, on the keys and
    on the lists, for a table whose lookups count bits. *)
Lemma ntfsRightsStep_effect (table order : list (string * Z))
      (rights : gmap string (list string)) (ace : ACE) :
  MapRange table order ->
  len (rangeRights order (Mask ace))
  = popcount (Z.land (Mask ace) (knownFlags table)) ->
  totalKinds (ntfsRightsStep order rights ace)
  = totalKinds rights + granted table ace
  /\ (forall sid : string,
         is_Some (ntfsRightsStep order rights ace !! sid)
         <-> is_Some (rights !! sid)
             \/ (grants table ace /\ sid = SID_String (AceSID ace)))
  /\ (filled rights -> filled (ntfsRightsStep order rights ace))
  /\ (kindsWithin table rights ->
      kindsWithin table (ntfsRightsStep order rights ace)).
Proof.
  intros Hperm Hcount. unfold granted, grants.
  pose proof (rangeRights_nil_table table order (Mask ace) Hperm) as Hnil.
  destruct (ntfsRightsStep_cases order rights ace)
    as [[-> Hwhy] | (-> & Hsid & Hkinds)].
  - split; [| split; [| split; [auto | auto]]].
    + destruct Hwhy as [-> | Hk]; [lia |].
      destruct (AceSID ace); [| lia].
      rewrite Hk in Hcount. change (len (@nil string)) with 0 in Hcount. lia.
    + intros sid. split; [auto |].
      intros [H | [[Hp Hbits] _]]; [assumption |].
      destruct Hwhy as [Hn | Hk]; [contradiction |].
      apply Hnil in Hk. contradiction.
  - destruct (AceSID ace) as [trustee |] eqn:Htrustee;
      [| unfold present in Hsid; contradiction].
    pose proof (SID_String_not_empty trustee) as Hkey.
    set (key := SID_String (Some trustee)) in *. clearbody key.
    split; [| split; [| split]].
    + rewrite totalKinds_appendRights. lia.
    + intros sid. unfold appendRights.
      destruct (decide (key = sid)) as [<- | Hne].
      * rewrite lookup_insert_eq. split; [intros _ | eauto].
        right. split; [| reflexivity].
        split; [discriminate |]. rewrite <- Hnil. assumption.
      * rewrite lookup_insert_ne by assumption. split; [auto |].
        intros [H | [_ Heq]]; [assumption | congruence].
    + intros Hfilled sid kinds Hlook. unfold appendRights in Hlook.
      destruct (decide (key = sid)) as [<- | Hne].
      * rewrite lookup_insert_eq in Hlook. injection Hlook as <-.
        split; [exact Hkey |].
        intros Happ. apply app_eq_nil in Happ. tauto.
      * rewrite lookup_insert_ne in Hlook by assumption. eauto.
    + intros Hwithin sid kinds Hlook kind Hin. unfold appendRights in Hlook.
      destruct (decide (key = sid)) as [<- | Hne].
      * rewrite lookup_insert_eq in Hlook. injection Hlook as <-.
        apply in_app_iff in Hin as [Hin | Hin].
        -- destruct (rights !! key) as [old |] eqn:Hold;
             cbn [default] in Hin; [exact (Hwithin _ _ Hold _ Hin) |].
           destruct Hin.
        -- apply rangeRights_within in Hin.
           eapply Permutation_in; [| exact Hin].
           apply Permutation_map, Permutation_sym, Hperm.
      * rewrite lookup_insert_ne in Hlook by assumption.
        exact (Hwithin _ _ Hlook _ Hin).
Qed.


Lemma ntfsRightsLoop_effect (table : list (string * Z))
      (orders : nat -> list (string * Z)) :
  (forall (order : list (string * Z)) (mask : Z),
      MapRange table order ->
      len (rangeRights order mask)
      = popcount (Z.land mask (knownFlags table))) ->
  (forall i, MapRange table (orders i)) ->
  forall (aces : list ACE) (i : nat) (rights : gmap string (list string)),
    totalKinds (ntfsRightsLoop orders i aces rights)
    = totalKinds rights + sumOver (granted table) aces
    /\ (forall sid : string,
           is_Some (ntfsRightsLoop orders i aces rights !! sid)
           <-> is_Some (rights !! sid)
               \/ exists ace : ACE,
                   In ace aces /\ grants table ace
                   /\ sid = SID_String (AceSID ace))
    /\ (filled rights -> filled (ntfsRightsLoop orders i aces rights))
    /\ (kindsWithin table rights ->
        kindsWithin table (ntfsRightsLoop orders i aces rights)).
Proof.
  intros Hcount Horders.
  induction aces as [| ace aces IH]; intros i rights; cbn [ntfsRightsLoop].
  - split; [simpl; lia |]. split; [| auto].
    intros sid. split; [auto |].
    intros [H | (ace & [] & _)]. assumption.
  - destruct (ntfsRightsStep_effect table (orders i) rights ace
                (Horders i) (Hcount _ _ (Horders i)))
      as (Htotal & Hkeys & Hfilled & Hwithin).
    destruct (IH (S i) (ntfsRightsStep (orders i) rights ace))
      as (Htotal' & Hkeys' & Hfilled' & Hwithin').
    split; [rewrite Htotal', Htotal; simpl; lia |].
    split; [| auto].
    intros sid. rewrite Hkeys', Hkeys. split.
    + intros [[H | [Hg ->]] | (a & Hin & Hg & ->)]; auto.
      * right. exists ace. split; [left; reflexivity | auto].
      * right. exists a. split; [right; assumption | auto].
    + intros [H | (a & [<- | Hin] & Hg & ->)]; auto.
      right. exists a. auto.
Qed.

Lemma shareRightsLoop_effect (orders : nat -> list (string * Z)) :
  (forall i, MapRange ShareRightsMapping (orders i)) ->
  forall (aces : list ACE) (i : nat) (rights : gmap string (list string)),
    totalKinds (shareRightsLoop orders i aces rights)
    = totalKinds rights
      + sumOver (fun ace => if IsAccessAllowed ace
                            then granted ShareRightsMapping ace else 0) aces
    /\ (forall sid : string,
           is_Some (shareRightsLoop orders i aces rights !! sid)
           <-> is_Some (rights !! sid)
               \/ exists ace : ACE,
                   In ace aces /\ IsAccessAllowed ace = true
                   /\ grants ShareRightsMapping ace
                   /\ sid = SID_String (AceSID ace))
    /\ (filled rights -> filled (shareRightsLoop orders i aces rights))
    /\ (kindsWithin ShareRightsMapping rights ->
        kindsWithin ShareRightsMapping
                    (shareRightsLoop orders i aces rights)).
Proof.
  intros Horders.
  induction aces as [| ace aces IH]; intros i rights; cbn [shareRightsLoop].
  - split; [simpl; lia |]. split; [| auto].
    intros sid. split; [auto |].
    intros [H | (ace & [] & _)]. assumption.
  - destruct (IH (S i) (shareRightsStep (orders i) rights ace))
      as (Htotal' & Hkeys' & Hfilled' & Hwithin').
    rewrite shareRightsStep_ntfs in *.
    destruct (ntfsRightsStep_effect ShareRightsMapping (orders i) rights ace
                (Horders i)
                (GetShareRightsForMask_count _ _ (Horders i)))
      as (Htotal & Hkeys & Hfilled & Hwithin).
    cbn [sumOver fold_right].
    fold (sumOver (fun ace => if IsAccessAllowed ace
                              then granted ShareRightsMapping ace else 0)
                  aces).
    destruct (IsAccessAllowed ace) eqn:Hallowed.
    + split; [rewrite Htotal', Htotal; lia |].
      split; [| auto].
      intros sid. rewrite Hkeys', Hkeys. split.
      * intros [[H | [Hg ->]] | (a & Hin & Ha & Hg & ->)]; auto.
        -- right. exists ace. split; [left; reflexivity | auto].
        -- right. exists a. split; [right; assumption | auto].
      * intros [H | (a & [<- | Hin] & Ha & Hg & ->)]; auto.
        right. exists a. auto.
    + split; [rewrite Htotal'; lia |].
      split; [| auto].
      intros sid. rewrite Hkeys'. split.
      * intros [H | (a & Hin & Ha & Hg & ->)]; auto.
        right. exists a. split; [right; assumption | auto].
      * intros [H | (a & [<- | Hin] & Ha & Hg & ->)]; auto.
        -- congruence.
        -- right. exists a. auto.
Qed.

Lemma ParseSecurityDescriptor_short (data : list byte) :
  len data < 20 -> exists msg : string, ParseSecurityDescriptor data = Err msg.
Proof.
  intros Hshort. unfold ParseSecurityDescriptor.
  destruct (len data <? 20) eqn:E; [eauto | lia].
Qed.

Lemma CollectShareRights_loop (smbSession : SMBSession) (shareName : string)
      (orders : nat -> list (string * Z)) :
  fst (CollectShareRights smbSession shareName orders)
  = shareRightsLoop orders 0 (shareAces smbSession shareName) ∅.
Proof.
  unfold CollectShareRights, shareAces, chosenDescriptor.
  destruct (unavailable (GetShareSecurityDescriptor smbSession shareName));
    cbv beta iota zeta.
  - destruct (GetShareRootSecurityDescriptor smbSession shareName)
      as [sdBytes |]; cbn [unavailable]; [| reflexivity].
    destruct (len sdBytes =? 0) eqn:Hlen.
    + destruct (ParseSecurityDescriptor_short sdBytes ltac:(lia)) as [msg ->].
      reflexivity.
    + destruct (ParseSecurityDescriptor sdBytes) as [sd |]; [| reflexivity].
      destruct (Dacl sd) as [dacl |]; [| reflexivity].
      destruct (len (Aces dacl) =? 0) eqn:Haces; [| reflexivity].
      destruct (Aces dacl); [reflexivity | discriminate].
  - destruct (GetShareSecurityDescriptor smbSession shareName)
      as [sdBytes |]; cbn [unavailable]; [| reflexivity].
    destruct (len sdBytes =? 0) eqn:Hlen.
    + destruct (ParseSecurityDescriptor_short sdBytes ltac:(lia)) as [msg ->].
      reflexivity.
    + destruct (ParseSecurityDescriptor sdBytes) as [sd |]; [| reflexivity].
      destruct (Dacl sd) as [dacl |]; [| reflexivity].
      destruct (len (Aces dacl) =? 0) eqn:Haces; [| reflexivity].
      destruct (Aces dacl); [reflexivity | discriminate].
Qed.

Lemma filled_empty : filled ∅.
Proof. intros sid kinds H. rewrite lookup_empty in H. discriminate. Qed.

Lemma kindsWithin_empty (table : list (string * Z)) : kindsWithin table ∅.
Proof. intros sid kinds H. rewrite lookup_empty in H. discriminate. Qed.

(** X12: the rights map of [CollectShareRights], read off the DACL it
    was built from.  With [aces] the ACEs of the DACL of the descriptor
    the function goes on with (none when there is no descriptor, when it
    does not parse or has no DACL): the map holds as many (trustee, kind)
    pairs as the ACCESS_ALLOWED ACEs with a trustee have mask bits in the
    share table, added up over the ACEs; its keys are exactly the texts of
    the trustees of the ACCESS_ALLOWED ACEs whose mask has a bit of the
    table, so an ACE of another type and an ACE without a table bit never
    make a key; no key is empty, no list is empty, and every kind is a
    kind of the share table. *)
Theorem CollectShareRights_rights
        (smbSession : SMBSession) (shareName : string)
        (orders : nat -> list (string * Z)) :
  (forall i, MapRange ShareRightsMapping (orders i)) ->
  totalKinds (fst (CollectShareRights smbSession shareName orders))
  = sumOver (fun ace => if IsAccessAllowed ace
                        then granted ShareRightsMapping ace else 0)
            (shareAces smbSession shareName)
  /\ (forall sid : string,
         is_Some (fst (CollectShareRights smbSession shareName orders) !! sid)
         <-> exists ace : ACE,
             In ace (shareAces smbSession shareName)
             /\ IsAccessAllowed ace = true
             /\ grants ShareRightsMapping ace
             /\ sid = SID_String (AceSID ace))
  /\ filled (fst (CollectShareRights smbSession shareName orders))
  /\ kindsWithin ShareRightsMapping
                 (fst (CollectShareRights smbSession shareName orders)).
Proof.
  intros Horders. rewrite CollectShareRights_loop.
  destruct (shareRightsLoop_effect orders Horders
              (shareAces smbSession shareName) 0%nat ∅)
    as (Htotal & Hkeys & Hfilled & Hwithin).
  split; [rewrite Htotal, totalKinds_empty; lia |].
  split; [| split; [apply Hfilled, filled_empty
                   | apply Hwithin, kindsWithin_empty]].
  intros sid. rewrite Hkeys, lookup_empty. split.
  - intros [H | H]; [destruct H; discriminate | exact H].
  - auto.
Qed.

Lemma CollectShareRights_rights_witness :
  (forall i : nat, MapRange ShareRightsMapping ((fun _ => ShareRightsMapping) i))
  /\ totalKinds (fst (CollectShareRights primary_session "public"
                                         (fun _ => ShareRightsMapping)))
     = sumOver (fun ace => if IsAccessAllowed ace
                           then granted ShareRightsMapping ace else 0)
               (shareAces primary_session "public")
  /\ (forall sid : string,
         is_Some (fst (CollectShareRights primary_session "public"
                                          (fun _ => ShareRightsMapping)) !! sid)
         <-> exists ace : ACE,
             In ace (shareAces primary_session "public")
             /\ IsAccessAllowed ace = true
             /\ grants ShareRightsMapping ace
             /\ sid = SID_String (AceSID ace))
  /\ filled (fst (CollectShareRights primary_session "public"
                                     (fun _ => ShareRightsMapping)))
  /\ kindsWithin ShareRightsMapping
                 (fst (CollectShareRights primary_session "public"
                                          (fun _ => ShareRightsMapping))).
Proof.
  split; [intros i; apply Permutation_refl |].
  apply (CollectShareRights_rights primary_session "public"
                                   (fun _ => ShareRightsMapping)).
  intros i. apply Permutation_refl.
Defined.

(** X13: the rights map of [CollectNTFSRights], read off the DACL of the
    file.  With [aces] the ACEs of that DACL (none when the query fails,
    answers nothing or the descriptor has no DACL): the map holds as many
    (trustee, kind) pairs as the ACEs with a trustee have mask bits in
    the NTFS table, added up over all ACEs, whatever their type; its
    keys are exactly the texts of the trustees of the ACEs whose mask has
    a bit of the table; no key is empty, no list is empty, and every kind
    is a kind of the NTFS table. *)
Theorem CollectNTFSRights_rights
        (smbSession : SMBSession) (filePath : string)
        (orders : nat -> list (string * Z)) :
  (forall i, MapRange NTFSRightsMapping (orders i)) ->
  totalKinds (CollectNTFSRights smbSession filePath orders)
  = sumOver (granted NTFSRightsMapping) (fileAces smbSession filePath)
  /\ (forall sid : string,
         is_Some (CollectNTFSRights smbSession filePath orders !! sid)
         <-> exists ace : ACE,
             In ace (fileAces smbSession filePath)
             /\ grants NTFSRightsMapping ace
             /\ sid = SID_String (AceSID ace))
  /\ filled (CollectNTFSRights smbSession filePath orders)
  /\ kindsWithin NTFSRightsMapping
                 (CollectNTFSRights smbSession filePath orders).
Proof.
  intros Horders.
  assert (CollectNTFSRights smbSession filePath orders
          = ntfsRightsLoop orders 0 (fileAces smbSession filePath) ∅)
    as ->.
  { unfold CollectNTFSRights, fileAces.
    destruct (GetFileSecurityDescriptor smbSession filePath)
      as [[sd |] |]; try reflexivity.
    destruct (Dacl sd); reflexivity. }
  destruct (ntfsRightsLoop_effect NTFSRightsMapping orders
              GetNTFSRightsForMask_count Horders
              (fileAces smbSession filePath) 0%nat ∅)
    as (Htotal & Hkeys & Hfilled & Hwithin).
  split; [rewrite Htotal, totalKinds_empty; lia |].
  split; [| split; [apply Hfilled, filled_empty
                   | apply Hwithin, kindsWithin_empty]].
  intros sid. rewrite Hkeys, lookup_empty. split.
  - intros [H | H]; [destruct H; discriminate | exact H].
  - auto.
Qed.

Lemma CollectNTFSRights_rights_witness :
  (forall i : nat, MapRange NTFSRightsMapping ((fun _ => NTFSRightsMapping) i))
  /\ totalKinds (CollectNTFSRights deny_session "reports/q1.txt"
                                   (fun _ => NTFSRightsMapping))
     = sumOver (granted NTFSRightsMapping)
               (fileAces deny_session "reports/q1.txt")
  /\ (forall sid : string,
         is_Some (CollectNTFSRights deny_session "reports/q1.txt"
                                    (fun _ => NTFSRightsMapping) !! sid)
         <-> exists ace : ACE,
             In ace (fileAces deny_session "reports/q1.txt")
             /\ grants NTFSRightsMapping ace
             /\ sid = SID_String (AceSID ace))
  /\ filled (CollectNTFSRights deny_session "reports/q1.txt"
                               (fun _ => NTFSRightsMapping))
  /\ kindsWithin NTFSRightsMapping
                 (CollectNTFSRights deny_session "reports/q1.txt"
                                    (fun _ => NTFSRightsMapping)).
Proof.
  split; [intros i; apply Permutation_refl |].
  apply (CollectNTFSRights_rights deny_session "reports/q1.txt"
                                  (fun _ => NTFSRightsMapping)).
  intros i. apply Permutation_refl.
Defined.


(** X14: when [CollectShareRights] reports an error and when it reports
    nothing.  It returns an error exactly when the descriptor it goes on
    with has between 1 and 19 bytes, and then the map is empty; when
    neither the share service nor the share root delivers a descriptor
    it returns the empty map and no error; and when the share service
    delivers one, the answer of the share root plays no part in the
    result. *)
Theorem CollectShareRights_outcome
        (smbSession : SMBSession) (shareName : string)
        (orders : nat -> list (string * Z)) :
  (snd (CollectShareRights smbSession shareName orders) <> None
   <-> exists sdBytes : list byte,
       chosenDescriptor smbSession shareName = Ok sdBytes
       /\ 0 < len sdBytes < 20)
  /\ (snd (CollectShareRights smbSession shareName orders) <> None ->
      fst (CollectShareRights smbSession shareName orders) = ∅)
  /\ (unavailable (chosenDescriptor smbSession shareName) = true ->
      CollectShareRights smbSession shareName orders = (∅, None))
  /\ (unavailable (GetShareSecurityDescriptor smbSession shareName) = false ->
      forall other : SMBSession,
        GetShareSecurityDescriptor other shareName
        = GetShareSecurityDescriptor smbSession shareName ->
        CollectShareRights other shareName orders
        = CollectShareRights smbSession shareName orders).
Proof.
  assert (forall sdBytes : list byte,
             match ParseSecurityDescriptor sdBytes with
             | Ok _ => 20 <= len sdBytes
             | Err _ => len sdBytes < 20
             end) as Hparse.
  { intros sdBytes. unfold ParseSecurityDescriptor.
    destruct (len sdBytes <? 20) eqn:E; lia. }
  assert (forall chosen : result (list byte),
             let outcome :=
               if unavailable chosen then (∅, None)
               else
                 match chosen with
                 | Err _ => (∅, None)
                 | Ok sdBytes =>
                     match ParseSecurityDescriptor sdBytes with
                     | Err e => (∅, Some e)
                     | Ok sd =>
                         match Dacl sd with
                         | None => (∅, None)
                         | Some dacl =>
                             if len (Aces dacl) =? 0 then (∅, None)
                             else (shareRightsLoop orders 0 (Aces dacl) ∅,
                                   None)
                         end
                     end
                 end in
             (snd outcome <> None
              <-> exists sdBytes : list byte,
                  chosen = Ok sdBytes /\ 0 < len sdBytes < 20)
             /\ (snd outcome <> None -> fst outcome = ∅)
             /\ (unavailable chosen = true -> outcome = (∅, None)))
    as Hchosen.
  { intros chosen. cbv zeta.
    destruct chosen as [sdBytes | msg]; cbn [unavailable].
    - pose proof (len_nonneg sdBytes) as Hnn.
      specialize (Hparse sdBytes).
      destruct (len sdBytes =? 0) eqn:Hlen.
      + cbn [fst snd]. split; [| split; [reflexivity | reflexivity]].
        split; [congruence |].
        intros (b & Hb & Hrange). injection Hb as <-. lia.
      + destruct (ParseSecurityDescriptor sdBytes) as [sd | e].
        * assert (snd (match Dacl sd with
                       | Some dacl =>
                           if len (Aces dacl) =? 0 then (∅, None)
                           else (shareRightsLoop orders 0 (Aces dacl) ∅, None)
                       | None => (∅, None)
                       end) = @None string) as Hnone.
          { destruct (Dacl sd) as [dacl |]; [| reflexivity].
            destruct (len (Aces dacl) =? 0); reflexivity. }
          rewrite Hnone.
          split; [| split; [congruence | discriminate]].
          split; [congruence |].
          intros (b & Hb & Hrange). injection Hb as <-. lia.
        * cbn [fst snd].
          split; [| split; [reflexivity | discriminate]].
          split; [| discriminate].
          intros _. exists sdBytes. split; [reflexivity | lia].
    - cbn [fst snd]. split; [| split; reflexivity].
      split; [congruence | intros (b & Hb & _); discriminate]. }
  assert (CollectShareRights smbSession shareName orders
          = let chosen := chosenDescriptor smbSession shareName in
            if unavailable chosen then (∅, None)
            else
              match chosen with
              | Err _ => (∅, None)
              | Ok sdBytes =>
                  match ParseSecurityDescriptor sdBytes with
                  | Err e => (∅, Some e)
                  | Ok sd =>
                      match Dacl sd with
                      | None => (∅, None)
                      | Some dacl =>
                          if len (Aces dacl) =? 0 then (∅, None)
                          else (shareRightsLoop orders 0 (Aces dacl) ∅, None)
                      end
                  end
              end) as Hunfold.
  { unfold CollectShareRights, chosenDescriptor.
    destruct (unavailable (GetShareSecurityDescriptor smbSession shareName));
      reflexivity. }
  pose proof (Hchosen (chosenDescriptor smbSession shareName)) as Hthis.
  cbv zeta in Hthis, Hunfold. rewrite <- Hunfold in Hthis.
  destruct Hthis as (Herr & Hempty & Hnothing).
  split; [exact Herr |]. split; [exact Hempty |]. split; [exact Hnothing |].
  intros Havailable other Hsame.
  unfold CollectShareRights. rewrite Hsame, Havailable. reflexivity.
Qed.

End Collectors.

(** ** The store: lookups, checkpoints and export progress *)

Section StoreMore.
Import gostrings graph.

Lemma find_ids (id : string) (l : list Node) :
  match List.find (fun node => String.eqb (ID node) id) l with
  | Some node => ID node = id /\ In node l
  | None => ~ In id (map ID l)
  end.
Proof.
  induction l as [| n l IH]; simpl; [tauto |].
  destruct (String.eqb (ID n) id) eqn:E.
  - apply String.eqb_eq in E. auto.
  - apply String.eqb_neq in E.
    destruct (List.find _ l); [tauto |]. intros [H | H]; auto.
Qed.

Lemma in_list_to_set (id : string) (l : list string) :
  id ∈ (list_to_set l : gset string) <-> In id l.
Proof. rewrite elem_of_list_to_set. apply list_elem_of_In. Qed.

Lemma find_snoc (id : string) (l : list Node) (n : Node) :
  List.find (fun node => String.eqb (ID node) id) (l ++ [n])
  = match List.find (fun node => String.eqb (ID node) id) l with
    | Some node => Some node
    | None => if String.eqb (ID n) id then Some n else None
    end.
Proof.
  induction l as [| m l IH]; simpl; [reflexivity |].
  destruct (String.eqb (ID m) id); [reflexivity | exact IH].
Qed.

(** X15: what [GetNode] finds in a store whose id set and node file
    agree (as they do after any run of [AddNode] and [AddEdge]).  A node
    is found exactly for the ids of the id set; the node found carries
    the id asked for and is a line of the node file; after [AddNode g n]
    the id of [n] leads to the node that was stored first under that id,
    so to [n] only when the id was new; no other id is affected, and
    adding an edge affects no lookup. *)
Theorem GetNode_first_write_wins (g : OpenGraph) (n : Node) :
  storeInvariant g ->
  (forall id : string, is_Some (GetNode g id) <-> id ∈ nodeIDs g)
  /\ (forall (id : string) (node : Node),
         GetNode g id = Some node -> ID node = id /\ In node (nodeFile g))
  /\ GetNode (AddNode g n) (ID n)
     = (if decide (ID n ∈ nodeIDs g) then GetNode g (ID n) else Some n)
  /\ (forall id : string,
         id <> ID n -> GetNode (AddNode g n) id = GetNode g id)
  /\ (forall (e : Edge) (id : string),
         GetNode (AddEdge g e) id = GetNode g id).
Proof.
  intros (Hnd & Hids & Hcount).
  split; [| split; [| split; [| split]]].
  - intros id. unfold GetNode.
    pose proof (find_ids id (nodeFile g)) as Hfind.
    destruct (decide (id ∈ nodeIDs g)) as [Hin | Hout].
    + split; [intros _; exact Hin | intros _].
      destruct (List.find _ (nodeFile g)); [eauto |].
      rewrite Hids in Hin. apply in_list_to_set in Hin. contradiction.
    + split; [intros [x Hx]; discriminate | contradiction].
  - intros id node. unfold GetNode.
    pose proof (find_ids id (nodeFile g)) as Hfind.
    destruct (decide (id ∈ nodeIDs g)); [| discriminate].
    destruct (List.find _ (nodeFile g)); [| discriminate].
    intros H. injection H as <-. exact Hfind.
  - destruct (decide (ID n ∈ nodeIDs g)) as [Hin | Hout].
    + rewrite AddNode_known by assumption. reflexivity.
    + unfold AddNode. destruct (decide (ID n ∈ nodeIDs g)); [contradiction |].
      unfold GetNode. cbn [nodeIDs nodeFile].
      destruct (decide (ID n ∈ {[ID n]} ∪ nodeIDs g)) as [_ | Hno];
        [| exfalso; apply Hno, elem_of_union_l, elem_of_singleton;
           reflexivity].
      rewrite find_snoc.
      pose proof (find_ids (ID n) (nodeFile g)) as Hfind.
      destruct (List.find _ (nodeFile g)) as [node |].
      * exfalso. apply Hout. rewrite Hids. apply in_list_to_set.
        destruct Hfind as [<- Hin]. apply in_map. exact Hin.
      * rewrite String.eqb_refl. reflexivity.
  - intros id Hne. unfold AddNode.
    destruct (decide (ID n ∈ nodeIDs g)); [reflexivity |].
    unfold GetNode. cbn [nodeIDs nodeFile].
    rewrite find_snoc.
    assert (String.eqb (ID n) id = false) as ->
      by (apply String.eqb_neq; congruence).
    destruct (decide (id ∈ {[ID n]} ∪ nodeIDs g)) as [Hin | Hout];
      destruct (decide (id ∈ nodeIDs g)) as [Hin' | Hout'].
    + destruct (List.find _ (nodeFile g)); reflexivity.
    + apply elem_of_union in Hin as [Hin | Hin]; [| contradiction].
      apply elem_of_singleton in Hin. contradiction.
    + exfalso. apply Hout, elem_of_union_r. exact Hin'.
    + reflexivity.
  - intros e id. reflexivity.
Qed.

Lemma GetNode_first_write_wins_witness :
  storeInvariant hostStore
  /\ (forall id : string, is_Some (GetNode hostStore id) <-> id ∈ nodeIDs hostStore)
  /\ (forall (id : string) (node : Node),
         GetNode hostStore id = Some node ->
         ID node = id /\ In node (nodeFile hostStore))
  /\ GetNode (AddNode hostStore renamedHost) (ID renamedHost)
     = (if decide (ID renamedHost ∈ nodeIDs hostStore)
        then GetNode hostStore (ID renamedHost) else Some renamedHost)
  /\ (forall id : string,
         id <> ID renamedHost ->
         GetNode (AddNode hostStore renamedHost) id = GetNode hostStore id)
  /\ (forall (e : Edge) (id : string),
         GetNode (AddEdge hostStore e) id = GetNode hostStore id).
Proof.
  split; [apply storeInvariant_after |].
  apply (GetNode_first_write_wins hostStore renamedHost).
  apply storeInvariant_after.
Defined.


Lemma restored_ids (l : list Node) :
  forall ids : gset string,
    fold_left (fun ids node => {[ ID node ]} ∪ ids) l ids
    = list_to_set (map ID l) ∪ ids.
Proof.
  induction l as [| n l IH]; intros ids; simpl.
  - symmetry. apply (left_id_L ∅ (∪)).
  - rewrite IH. set_solver.
Qed.

Lemma restored_count {A} (l : list A) :
  forall count : Z,
    fold_left (fun count _ => count + 1) l count = count + len l.
Proof.
  induction l as [| a l IH]; intros count; simpl.
  - unfold len. simpl. lia.
  - rewrite IH. unfold len. simpl length. lia.
Qed.

Lemma size_ids_le (l : list string) :
  (size (list_to_set l : gset string) <= List.length l)%nat.
Proof.
  induction l as [| x l IH]; cbn [list_to_set List.length].
  - rewrite size_empty. lia.
  - rewrite size_union_alt, size_singleton.
    pose proof (subseteq_size (list_to_set l ∖ {[x]} : gset string)
                              (list_to_set l) ltac:(set_solver)).
    lia.
Qed.

(** X16: the store after [RestoreNodesAndEdges].  The node file and the
    edge file are the two lists as given, the id set is the set of the
    ids of the nodes and the edge counter the number of edges; nodes are
    not deduplicated on the way in, so [GetNodeCount] is at most the
    number of nodes written and the store is in the state the mutators
    keep exactly when no two of the nodes share an id; a node that was
    restored is known afterwards: adding it again changes nothing. *)
Theorem RestoreNodesAndEdges_state
        (g : OpenGraph) (ns : list Node) (es : list Edge) :
  nodeFile (RestoreNodesAndEdges g ns es) = ns
  /\ edgeFile (RestoreNodesAndEdges g ns es) = es
  /\ SourceKind (RestoreNodesAndEdges g ns es) = SourceKind g
  /\ (forall id : string,
         id ∈ nodeIDs (RestoreNodesAndEdges g ns es) <-> In id (map ID ns))
  /\ GetEdgeCount (RestoreNodesAndEdges g ns es) = len es
  /\ GetNodeCount (RestoreNodesAndEdges g ns es) <= len ns
  /\ (storeInvariant (RestoreNodesAndEdges g ns es) <-> NoDup (map ID ns))
  /\ (forall n : Node,
         In n ns ->
         AddNode (RestoreNodesAndEdges g ns es) n
         = RestoreNodesAndEdges g ns es).
Proof.
  assert (nodeIDs (RestoreNodesAndEdges g ns es) = list_to_set (map ID ns))
    as Hids.
  { unfold RestoreNodesAndEdges. cbn [nodeIDs]. rewrite restored_ids.
    apply (right_id_L ∅ (∪)). }
  assert (edgeCount (RestoreNodesAndEdges g ns es) = len es) as Hcount.
  { unfold RestoreNodesAndEdges. cbn [edgeCount]. rewrite restored_count.
    lia. }
  split; [reflexivity |]. split; [reflexivity |]. split; [reflexivity |].
  split; [intros id; rewrite Hids; apply in_list_to_set |].
  split; [exact Hcount |].
  split.
  { unfold GetNodeCount. rewrite Hids.
    pose proof (size_ids_le (map ID ns)) as Hle.
    unfold len. rewrite length_map in Hle. lia. }
  split.
  { unfold storeInvariant. cbn [nodeFile edgeFile].
    split; [tauto |]. intros Hnd. auto. }
  intros n Hin. apply AddNode_known. rewrite Hids.
  apply in_list_to_set, in_map. exact Hin.
Qed.

Lemma storeAfter_SourceKind (sourceKind : string) (ms : list Mutation) :
  SourceKind (storeAfter sourceKind ms) = sourceKind.
Proof.
  unfold storeAfter.
  assert (forall g, SourceKind (fold_left mutate ms g) = SourceKind g) as Hk.
  { induction ms as [| m ms IH]; intros g; simpl; [reflexivity |].
    rewrite IH. destruct m; simpl; [| reflexivity].
    unfold AddNode. destruct (decide _); reflexivity. }
  rewrite Hk. reflexivity.
Qed.

(** X17: a checkpoint taken from a store and restored gives the store
    back.  For every store built by [AddNode] and [AddEdge] from a fresh
    one, [RestoreNodesAndEdges] applied to what [GetNodesAndEdges]
    returned leaves the target with the same id set, edge counter, node
    file and edge file (its own source kind is kept); restored into a
    fresh store of the same source kind, the result is the store the
    checkpoint was taken from. *)
Theorem checkpoint_round_trip
        (sourceKind : string) (ms : list Mutation) (target : OpenGraph) :
  RestoreNodesAndEdges target
                       (fst (GetNodesAndEdges (storeAfter sourceKind ms)))
                       (snd (GetNodesAndEdges (storeAfter sourceKind ms)))
  = {| SourceKind := SourceKind target;
       nodeIDs := nodeIDs (storeAfter sourceKind ms);
       edgeCount := edgeCount (storeAfter sourceKind ms);
       nodeFile := nodeFile (storeAfter sourceKind ms);
       edgeFile := edgeFile (storeAfter sourceKind ms) |}
  /\ RestoreNodesAndEdges (NewOpenGraph sourceKind)
                          (fst (GetNodesAndEdges (storeAfter sourceKind ms)))
                          (snd (GetNodesAndEdges (storeAfter sourceKind ms)))
     = storeAfter sourceKind ms.
Proof.
  destruct (storeInvariant_after sourceKind ms) as (Hnd & Hids & Hcount).
  assert (forall h : OpenGraph,
             RestoreNodesAndEdges
               h (fst (GetNodesAndEdges (storeAfter sourceKind ms)))
               (snd (GetNodesAndEdges (storeAfter sourceKind ms)))
             = {| SourceKind := SourceKind h;
                  nodeIDs := nodeIDs (storeAfter sourceKind ms);
                  edgeCount := edgeCount (storeAfter sourceKind ms);
                  nodeFile := nodeFile (storeAfter sourceKind ms);
                  edgeFile := edgeFile (storeAfter sourceKind ms) |}) as H.
  { intros h. unfold RestoreNodesAndEdges, GetNodesAndEdges. cbn [fst snd].
    rewrite restored_ids, restored_count, <- Hids, <- Hcount.
    rewrite (right_id_L ∅ (∪)), Z.add_0_l. reflexivity. }
  split; [apply H |].
  rewrite H. cbn [SourceKind NewOpenGraph].
  rewrite <- (storeAfter_SourceKind sourceKind ms) at 1. destruct (storeAfter sourceKind ms). reflexivity.
Qed.


(** The progress calls of an export: a call every [interval] lines. *)
Lemma div_succ (m k : Z) :
  0 <= m -> 0 < k ->
  (m + 1) / k = m / k + (if (m + 1) mod k =? 0 then 1 else 0).
Proof.
  intros Hm Hk.
  pose proof (Z.div_mod m k ltac:(lia)) as Hdm.
  pose proof (Z.mod_pos_bound m k Hk) as Hr.
  destruct (Z.eq_dec (m mod k + 1) k) as [Hfull | Hpart].
  - assert ((m + 1) mod k = 0) as ->.
    { symmetry. apply (Z.mod_unique_pos _ _ (m / k + 1)); lia. }
    simpl. symmetry. apply (Z.div_unique_pos _ _ _ 0); lia.
  - assert ((m + 1) mod k = m mod k + 1) as ->.
    { symmetry. apply (Z.mod_unique_pos _ _ (m / k)); lia. }
    destruct (m mod k + 1 =? 0) eqn:E; [lia |].
    symmetry. apply (Z.div_unique_pos _ _ _ (m mod k + 1)); lia.
Qed.

Lemma streamArrayCalls_snoc (lines : nat) (total interval : Z)
      (phase : string) :
  streamArrayCalls (S lines) total interval phase
  = streamArrayCalls lines total interval phase
    ++ (if (0 <? interval) && (Z.of_nat (S lines) mod interval =? 0)
        then [(phase, Z.of_nat (S lines), total)] else []).
Proof.
  unfold streamArrayCalls.
  rewrite seq_S, flat_map_app. cbn [flat_map].
  rewrite app_nil_r. reflexivity.
Qed.

Lemma streamArrayCalls_count (lines : nat) (total interval : Z)
      (phase : string) :
  0 < interval ->
  len (streamArrayCalls lines total interval phase)
  = Z.of_nat lines / interval.
Proof.
  intros Hk. induction lines as [| n IH].
  - reflexivity.
  - rewrite streamArrayCalls_snoc, len_app, IH.
    replace (Z.of_nat (S n)) with (Z.of_nat n + 1) by lia.
    rewrite div_succ by lia.
    assert ((0 <? interval) = true) as -> by lia. cbn [andb].
    destruct ((Z.of_nat n + 1) mod interval =? 0); reflexivity.
Qed.

Lemma streamArrayCalls_within (lines : nat) (total interval : Z)
      (phase : string) :
  Forall (fun call : ProgressCall =>
            0 < snd (fst call) <= Z.of_nat lines /\ snd call = total)
         (streamArrayCalls lines total interval phase).
Proof.
  unfold streamArrayCalls. apply List.Forall_forall. intros call Hin.
  apply in_flat_map in Hin. destruct Hin as (idx & Hidx & Hin).
  apply in_seq in Hidx.
  destruct ((0 <? interval) && (Z.of_nat idx mod interval =? 0));
    [| destruct Hin].
  destruct Hin as [<- | []]. simpl. lia.
Qed.

Lemma progressInterval_bounds (total : Z) :
  1 <= progressInterval total
  /\ (0 <= total -> total / progressInterval total <= 49)
  /\ (25 <= total -> 25 <= total / progressInterval total).
Proof.
  unfold progressInterval.
  destruct (total <=? 0) eqn:H0.
  - split; [lia |]. split; [| lia].
    intros Hnn. assert (total = 0) as -> by lia. vm_compute. discriminate.
  - destruct (total / 25 <? 1) eqn:H1.
    + assert (total < 25).
      { destruct (Z.lt_ge_cases total 25) as [Hlt | Hge]; [assumption |].
        pose proof (Z.div_le_mono 25 total 25 ltac:(lia) Hge) as Hd.
        change (25 / 25) with 1 in Hd. lia. }
      rewrite Z.div_1_r. lia.
    + pose proof (Z.div_mod total 25 ltac:(lia)) as Hdm.
      pose proof (Z.mod_pos_bound total 25 ltac:(lia)) as Hr.
      set (k := total / 25) in *.
      split; [lia |]. split.
      * intros _.
        assert (total / k < 50); [| lia].
        apply Z.div_lt_upper_bound; lia.
      * intros _. apply Z.div_le_lower_bound; lia.
Qed.

Lemma len_single {A} (a : A) : len [a] = 1.
Proof. reflexivity. Qed.

(** X18: how often an export reports progress.  For a store whose id
    set and node file agree, [ExportToFileWithProgress] calls a non-nil
    [progress] at most 106 times, however large the graph: while it
    copies the nodes (and likewise the edges) it reports every
    [progressInterval] lines, which is never less than 1 and makes at
    most 49 reports per array, at least 25 once the array has 25
    elements; and in every call the current count is between 0 and the
    total. *)
Theorem export_progress_is_bounded (g : OpenGraph) (filename : string) :
  storeInvariant g ->
  len (ExportToFileWithProgressCalls g filename) <= 106
  /\ Forall (fun call : ProgressCall =>
               0 <= snd (fst call) <= snd call)
            (ExportToFileWithProgressCalls g filename)
  /\ 1 <= progressInterval (GetNodeCount g)
  /\ len (streamArrayCalls (List.length (nodeFile g)) (GetNodeCount g)
                           (progressInterval (GetNodeCount g))
                           "Serializing nodes") <= 49
  /\ (25 <= GetNodeCount g ->
      25 <= len (streamArrayCalls (List.length (nodeFile g)) (GetNodeCount g)
                                  (progressInterval (GetNodeCount g))
                                  "Serializing nodes")).
Proof.
  intros (Hnd & Hids & Hcount).
  assert (GetNodeCount g = Z.of_nat (List.length (nodeFile g))) as Hnodes.
  { unfold GetNodeCount. rewrite Hids, size_list_to_set by exact Hnd.
    rewrite length_map. reflexivity. }
  assert (edgeCount g = Z.of_nat (List.length (edgeFile g))) as Hedges
    by exact Hcount.
  destruct (progressInterval_bounds (GetNodeCount g)) as (Hn1 & Hn49 & Hn25).
  destruct (progressInterval_bounds (edgeCount g)) as (He1 & He49 & He25).
  pose proof (streamArrayCalls_count
                (List.length (nodeFile g)) (GetNodeCount g)
                (progressInterval (GetNodeCount g)) "Serializing nodes"
                ltac:(lia)) as Hncalls.
  pose proof (streamArrayCalls_count
                (List.length (edgeFile g)) (edgeCount g)
                (progressInterval (edgeCount g)) "Serializing edges"
                ltac:(lia)) as Hecalls.
  rewrite <- Hnodes in Hncalls. rewrite <- Hedges in Hecalls.
  pose proof (streamArrayCalls_within
                (List.length (nodeFile g)) (GetNodeCount g)
                (progressInterval (GetNodeCount g)) "Serializing nodes")
    as Hnin.
  pose proof (streamArrayCalls_within
                (List.length (edgeFile g)) (edgeCount g)
                (progressInterval (edgeCount g)) "Serializing edges")
    as Hein.
  assert (0 <= GetNodeCount g) as Hnn by lia.
  assert (0 <= edgeCount g) as Hen by lia.
  split; [| split; [| split; [exact Hn1 | split; [lia | lia]]]].
  - unfold ExportToFileWithProgressCalls, streamJSONCalls.
    specialize (Hn49 Hnn). specialize (He49 Hen).
    destruct (HasSuffix (ToLower filename) ".zip");
      rewrite !len_app, !len_single; lia.
  - assert (Forall (fun call : ProgressCall =>
                      0 <= snd (fst call) <= snd call)
                   (streamJSONCalls (List.length (nodeFile g))
                                    (List.length (edgeFile g))
                                    (GetNodeCount g) (edgeCount g)))
      as Hstream.
    { unfold streamJSONCalls.
      repeat (apply Forall_app; split);
        try (apply List.Forall_cons; [simpl; lia | apply List.Forall_nil]).
      - eapply List.Forall_impl; [| exact Hnin].
        intros call [Hc Ht]. lia.
      - eapply List.Forall_impl; [| exact Hein].
        intros call [Hc Ht]. lia. }
    unfold ExportToFileWithProgressCalls. cbv zeta.
    revert Hstream.
    generalize (streamJSONCalls (List.length (nodeFile g))
                                (List.length (edgeFile g))
                                (GetNodeCount g) (edgeCount g)).
    intros stream Hstream.
    destruct (HasSuffix (ToLower filename) ".zip");
      repeat (apply Forall_app; split);
      try exact Hstream;
      apply List.Forall_cons; try (simpl; lia); apply List.Forall_nil.
Qed.

Lemma export_progress_is_bounded_witness :
  storeInvariant hostStore
  /\ len (ExportToFileWithProgressCalls hostStore "out.zip") <= 106
  /\ Forall (fun call : ProgressCall =>
               0 <= snd (fst call) <= snd call)
            (ExportToFileWithProgressCalls hostStore "out.zip")
  /\ 1 <= progressInterval (GetNodeCount hostStore)
  /\ len (streamArrayCalls (List.length (nodeFile hostStore))
                           (GetNodeCount hostStore)
                           (progressInterval (GetNodeCount hostStore))
                           "Serializing nodes") <= 49
  /\ (25 <= GetNodeCount hostStore ->
      25 <= len (streamArrayCalls (List.length (nodeFile hostStore))
                                  (GetNodeCount hostStore)
                                  (progressInterval (GetNodeCount hostStore))
                                  "Serializing nodes")).
Proof.
  split; [apply storeInvariant_after |].
  apply (export_progress_is_bounded hostStore "out.zip").
  apply storeInvariant_after.
Defined.

End StoreMore.

(** ** The context: what a flush writes *)

Section ContextMore.
Import gostrings graph ogc.

Ltac emits_parts :=
  split; [reflexivity |];
  split; [reflexivity |];
  split; [lia |];
  split; [lia |];
  split;
  [ first [ apply List.Forall_nil
          | (apply List.Forall_cons; [assumption | apply List.Forall_nil]) ]
  | try (let H := fresh in intros H; exact H) ].

Lemma emits_refl P st : emits P st st.
Proof.
  exists [], []. rewrite !app_nil_r. change (len (@nil Edge)) with 0.
  emits_parts.
Qed.

Lemma emits_trans P st1 st2 st3 :
  emits P st1 st2 -> emits P st2 st3 -> emits P st1 st3.
Proof.
  intros (es1 & ns1 & E1 & N1 & C1 & T1 & F1 & I1)
         (es2 & ns2 & E2 & N2 & C2 & T2 & F2 & I2).
  exists (es1 ++ es2), (ns1 ++ ns2).
  rewrite E2, E1, N2, N1, C2, C1, T2, T1, len_app, !app_assoc.
  split; [reflexivity |]. split; [reflexivity |]. split; [lia |].
  split; [lia |]. split; [apply Forall_app; auto | auto].
Qed.

Lemma emits_weaken (P Q : Edge -> Prop) st st' :
  (forall e, P e -> Q e) -> emits P st st' -> emits Q st st'.
Proof.
  intros Hpq (es & ns & E & N & C & T & F & I).
  exists es, ns.
  split; [assumption |]. split; [assumption |]. split; [assumption |].
  split; [assumption |]. split; [| assumption].
  eapply List.Forall_impl; [| exact F]. exact Hpq.
Qed.

Lemma emitEdge_emits (P : Edge -> Prop) st e :
  P e -> emits P st (emitEdge st e).
Proof.
  intros He. destruct st as [c g]. exists [e], []. cbn.
  rewrite app_nil_r. change (len [e]) with 1.
  emits_parts.
  intros (Hnd & Hids & Hcount).
  split; [exact Hnd |]. split; [exact Hids |].
  cbn. rewrite len_app. change (len [e]) with 1. lia.
Qed.

Lemma addNode_emits P st n : emits P st (addNode st n).
Proof.
  destruct st as [c g]. unfold addNode, AddNodeWithoutValidation. cbn [fst snd].
  destruct (decide (ID n ∈ nodeIDs g)) as [Hin | Hout].
  - rewrite AddNode_known by assumption. apply emits_refl.
  - exists [], [n]. unfold AddNode.
    destruct (decide (ID n ∈ nodeIDs g)); [contradiction |]. cbn.
    rewrite app_nil_r. change (len (@nil Edge)) with 0.
    split; [reflexivity |]. split; [reflexivity |]. split; [lia |].
    split; [lia |]. split; [apply List.Forall_nil |].
    intros Hinv.
    pose proof (storeInvariant_mutate g (DoAddNode n) Hinv) as H.
    cbn in H. unfold AddNode in H.
    destruct (decide (ID n ∈ nodeIDs g)); [contradiction | exact H].
Qed.

(** A step that touches neither the store nor the edge counter. *)
Lemma context_only_emits P (c c' : OpenGraphContext) (g : OpenGraph) :
  totalEdgesCreated c' = totalEdgesCreated c -> emits P (c, g) (c', g).
Proof.
  intros Htotal. exists [], []. cbn. rewrite !app_nil_r.
  change (len (@nil Edge)) with 0. emits_parts.
Qed.


(** The inner loop of [AddRightsToGraph], over the kinds of one trustee. *)
Lemma emitKinds_effect (sid elementID : string) (kinds : list string) :
  forall st : OpenGraphContext * OpenGraph,
    let st' := fold_left (fun st kind =>
                            emitEdge st (NewEdge sid elementID kind))
                         kinds st in
    edgeFile (snd st')
    = edgeFile (snd st) ++ map (fun kind => NewEdge sid elementID kind) kinds
    /\ edgeCount (snd st') = edgeCount (snd st) + len kinds
    /\ totalEdgesCreated (fst st') = totalEdgesCreated (fst st) + len kinds
    /\ nodeFile (snd st') = nodeFile (snd st)
    /\ nodeIDs (snd st') = nodeIDs (snd st).
Proof.
  induction kinds as [| kind kinds IH]; intros st; cbv zeta; cbn [fold_left map].
  - rewrite app_nil_r. change (len (@nil string)) with 0.
    repeat split; lia.
  - destruct (IH (emitEdge st (NewEdge sid elementID kind)))
      as (E & C & T & N & I).
    cbv zeta in E, C, T, N, I. rewrite E, C, T, N, I.
    destruct st as [c g]. cbn.
    rewrite <- app_assoc. unfold len. cbn [List.length].
    repeat split; lia.
Qed.

Lemma emitRights_effect (elementID : string) (l : list (string * list string)) :
  forall st : OpenGraphContext * OpenGraph,
    let st' :=
      fold_left
        (fun st '(sid, edgeKinds) =>
           fold_left
             (fun st edgeKind => emitEdge st (NewEdge sid elementID edgeKind))
             edgeKinds st)
        l st in
    edgeFile (snd st')
    = edgeFile (snd st)
      ++ flat_map (fun entry : string * list string =>
                     map (fun kind => NewEdge (fst entry) elementID kind)
                         (snd entry)) l
    /\ edgeCount (snd st') = edgeCount (snd st) + len (flat_map snd l)
    /\ totalEdgesCreated (fst st')
       = totalEdgesCreated (fst st) + len (flat_map snd l)
    /\ nodeFile (snd st') = nodeFile (snd st)
    /\ nodeIDs (snd st') = nodeIDs (snd st).
Proof.
  induction l as [| [sid kinds] l IH]; intros st; cbv zeta;
    cbn [fold_left flat_map fst snd].
  - rewrite app_nil_r. change (len (@nil string)) with 0.
    repeat split; lia.
  - destruct (IH (fold_left (fun st kind =>
                               emitEdge st (NewEdge sid elementID kind))
                            kinds st))
      as (E & C & T & N & I).
    destruct (emitKinds_effect sid elementID kinds st)
      as (E' & C' & T' & N' & I').
    cbv zeta in E, C, T, N, I, E', C', T', N', I'.
    rewrite E, C, T, N, I, E', C', T', N', I'.
    rewrite <- app_assoc, len_app.
    repeat split; lia.
Qed.

(** X19: what [AddRightsToGraph] does.  For a nil rights map it does
    nothing.  Otherwise it appends to the edge file one edge from the
    trustee to the element for each kind of each trustee of the map
    (in the order its loop meets the trustees), so as many edges as the
    map has (trustee, kind) pairs; the edge counter of the store and the
    counter of the context both advance by that number; no node is
    written. *)
Theorem AddRightsToGraph_edges
        (st : OpenGraphContext * OpenGraph) (elementID : string)
        (rights : gmap string (list string)) :
  AddRightsToGraph st elementID None = st
  /\ exists es : list Edge,
      Permutation es (rightsEdges elementID rights)
      /\ len es = totalKinds rights
      /\ edgeFile (snd (AddRightsToGraph st elementID (Some rights)))
         = edgeFile (snd st) ++ es
      /\ GetEdgeCount (snd (AddRightsToGraph st elementID (Some rights)))
         = GetEdgeCount (snd st) + totalKinds rights
      /\ GetTotalEdgesCreated
           (fst (AddRightsToGraph st elementID (Some rights)))
         = GetTotalEdgesCreated (fst st) + totalKinds rights
      /\ nodeFile (snd (AddRightsToGraph st elementID (Some rights)))
         = nodeFile (snd st)
      /\ nodeIDs (snd (AddRightsToGraph st elementID (Some rights)))
         = nodeIDs (snd st).
Proof.
  split; [reflexivity |].
  destruct (emitRights_effect elementID (map_to_list rights) st)
    as (E & C & T & N & I).
  exists (rightsEdges elementID rights).
  split; [apply Permutation_refl |].
  assert (len (rightsEdges elementID rights) = totalKinds rights) as Hlen.
  { unfold rightsEdges, totalKinds, len.
    rewrite !List.flat_map_concat_map, !length_concat, !map_map.
    f_equal. f_equal. apply map_ext. intros [sid kinds]. cbn.
    apply length_map. }
  split; [exact Hlen |].
  unfold AddRightsToGraph, GetEdgeCount, GetTotalEdgesCreated, totalKinds.
  repeat split; assumption.
Qed.

Lemma AddRightsToGraph_emits (P : Edge -> Prop) st elementID rights :
  (forall (m : gmap string (list string)) (sid : string)
          (kinds : list string) (kind : string),
      rights = Some m -> m !! sid = Some kinds -> In kind kinds ->
      P (NewEdge sid elementID kind)) ->
  emits P st (AddRightsToGraph st elementID rights).
Proof.
  intros Hp. destruct rights as [m |]; [| apply emits_refl].
  destruct (emitRights_effect elementID (map_to_list m) st)
    as (E & C & T & N & I).
  cbv zeta in E, C, T, N, I.
  exists (rightsEdges elementID m), [].
  assert (len (rightsEdges elementID m) = len (flat_map snd (map_to_list m)))
    as Hlen.
  { unfold rightsEdges, len.
    rewrite !List.flat_map_concat_map, !length_concat, !map_map.
    f_equal. f_equal. apply map_ext. intros [sid kinds]. cbn.
    apply length_map. }
  unfold AddRightsToGraph. rewrite app_nil_r, Hlen.
  split; [exact E |]. split; [exact N |]. split; [exact C |].
  split; [exact T |]. split.
  - unfold rightsEdges. apply List.Forall_forall. intros e He.
    apply in_flat_map in He. destruct He as ([sid kinds] & Hentry & He).
    apply in_map_iff in He. destruct He as (kind & <- & Hkind).
    apply list_elem_of_In, elem_of_map_to_list in Hentry.
    exact (Hp m sid kinds kind eq_refl Hentry Hkind).
  - intros (Hnd & Hids & Hcount).
    split; [rewrite N; exact Hnd |].
    split; [rewrite I, N; exact Hids |].
    rewrite C, E, len_app. fold (rightsEdges elementID m).
    rewrite Hlen. lia.
Qed.


Lemma walkPath_emits (P : Edge -> Prop) (entries : list PathEntry) :
  (forall parentID id : string, P (NewEdge parentID id "Contains")) ->
  (forall (entry : PathEntry) (m : gmap string (list string))
          (sid : string) (kinds : list string) (kind : string),
      In entry entries -> Rights entry = Some m ->
      m !! sid = Some kinds -> In kind kinds ->
      P (NewEdge sid (ID (EntryNode entry)) kind)) ->
  forall (parentID : string) (st : OpenGraphContext * OpenGraph),
    emits P st (snd (walkPath entries parentID st)).
Proof.
  intros Hcontains.
  induction entries as [| entry entries IH]; intros Hrights parentID st;
    cbn [walkPath].
  - apply emits_refl.
  - eapply emits_trans;
      [| apply IH; intros e m sid kinds kind Hin;
         apply Hrights; right; exact Hin].
    destruct (decide (ID (EntryNode entry) ∈ emittedPathNodes (fst st)));
      [apply emits_refl |].
    eapply emits_trans; [| apply emitEdge_emits, Hcontains].
    eapply emits_trans;
      [| apply AddRightsToGraph_emits; intros m sid kinds kind;
         apply Hrights; left; reflexivity].
    eapply emits_trans; [| apply addNode_emits].
    destruct st as [c g]. apply context_only_emits. reflexivity.
Qed.

(** Every step of a flush appends; the whole flush does. *)
Lemma AddPathToGraph_emits (st : OpenGraphContext * OpenGraph) :
  emits (fun _ => True) st (AddPathToGraph st).
Proof.
  unfold AddPathToGraph.
  destruct (host (fst st)) as [h |]; [| apply emits_refl].
  set (st1 := if hostEdgeEmitted (fst st) then st else _).
  assert (emits (fun _ => True) st st1) as H1.
  { unfold st1. destruct (hostEdgeEmitted (fst st)); [apply emits_refl |].
    eapply emits_trans; [| apply emitEdge_emits; exact I].
    eapply emits_trans; [| apply addNode_emits].
    destruct st as [c g]. apply context_only_emits. reflexivity. }
  clearbody st1. eapply emits_trans; [exact H1 |]. clear H1.
  destruct (share (fst st1)) as [s |]; [| apply emits_refl].
  set (st2 := if hostShareEmitted (fst st1) then st1 else _).
  assert (emits (fun _ => True) st1 st2) as H2.
  { unfold st2. destruct (hostShareEmitted (fst st1)); [apply emits_refl |].
    eapply emits_trans; [| apply emitEdge_emits; exact I].
    eapply emits_trans; [| apply AddRightsToGraph_emits; intros; exact I].
    eapply emits_trans; [| apply addNode_emits].
    destruct st1 as [c g]. apply context_only_emits. reflexivity. }
  clearbody st2. eapply emits_trans; [exact H2 |]. clear H2.
  pose proof (walkPath_emits (fun _ => True) (path (fst st2))
                             (fun _ _ => I)
                             (fun _ _ _ _ _ _ _ _ _ => I)
                             (ID s) st2) as H3.
  destruct (walkPath (path (fst st2)) (ID s) st2) as [parentID st3].
  cbn [snd] in H3. eapply emits_trans; [exact H3 |]. clear H3.
  destruct (element (fst st3)) as [e |]; [| apply emits_refl].
  eapply emits_trans; [| apply emitEdge_emits; exact I].
  eapply emits_trans; [| apply AddRightsToGraph_emits; intros; exact I].
  apply addNode_emits.
Qed.

Lemma ContextOp_eq_flush (op : ContextOp) :
  op = OpAddPathToGraph \/ op <> OpAddPathToGraph.
Proof. destruct op; (left; reflexivity) || (right; discriminate). Qed.

Lemma applyOp_setter (st : OpenGraphContext * OpenGraph) (op : ContextOp) :
  op <> OpAddPathToGraph ->
  snd (applyOp st op) = snd st
  /\ totalEdgesCreated (fst (applyOp st op)) = totalEdgesCreated (fst st)
  /\ sameFlags (fst st) (fst (applyOp st op)).
Proof.
  intros Hop. unfold sameFlags.
  destruct op; try contradiction; cbn [applyOp fst snd];
    try (repeat split; reflexivity).
  - unfold PopPath. destruct (path (fst st)); repeat split; reflexivity.
  - unfold SetDirectoryRights.
    destruct rights; [| repeat split; reflexivity].
    destruct (rev (path (fst st))); repeat split; reflexivity.
Qed.

(** X20: the counters of a context and its store stay in step.  After
    any sequence of calls on a new context over a new store, the number
    [GetTotalEdgesCreated] reports is the number of edges in the edge
    file and the number [GetEdgeCount] reports; the node file holds each
    id of the id set once, so [GetNodeCount] is its length; and the
    source kind of the store is the one it was created with. *)
Theorem context_counters_in_step (sourceKind : string) (ops : list ContextOp) :
  GetTotalEdgesCreated (fst (runOps sourceKind ops))
  = len (edgeFile (snd (runOps sourceKind ops)))
  /\ GetEdgeCount (snd (runOps sourceKind ops))
     = len (edgeFile (snd (runOps sourceKind ops)))
  /\ GetNodeCount (snd (runOps sourceKind ops))
     = len (nodeFile (snd (runOps sourceKind ops)))
  /\ storeInvariant (snd (runOps sourceKind ops)).
Proof.
  assert (forall st : OpenGraphContext * OpenGraph,
             totalEdgesCreated (fst st) = edgeCount (snd st)
             /\ storeInvariant (snd st) ->
             totalEdgesCreated (fst (fold_left applyOp ops st))
             = edgeCount (snd (fold_left applyOp ops st))
             /\ storeInvariant (snd (fold_left applyOp ops st))) as Hrun.
  { induction ops as [| op ops IH]; intros st Hst; cbn [fold_left];
      [exact Hst |].
    apply IH. destruct Hst as [Htotal Hinv].
    destruct (ContextOp_eq_flush op) as [-> | Hsetter].
    - cbn [applyOp].
      destruct (AddPathToGraph_emits st)
        as (es & ns & E & N & C & T & _ & Hkeep).
      split; [lia | auto].
    - destruct (applyOp_setter st op Hsetter) as (-> & -> & _). auto. }
  destruct (Hrun (NewOpenGraphContext, NewOpenGraph sourceKind))
    as [Htotal Hinv].
  { split; [reflexivity | apply storeInvariant_new]. }
  fold (runOps sourceKind ops) in Htotal, Hinv.
  pose proof Hinv as (Hnd & Hids & Hcount).
  unfold GetTotalEdgesCreated, GetEdgeCount, GetNodeCount.
  split; [lia |]. split; [exact Hcount |]. split; [| exact Hinv].
  rewrite Hids, size_list_to_set by exact Hnd.
  unfold len. rewrite length_map. reflexivity.
Qed.


Lemma sameFlags_refl c : sameFlags c c.
Proof. split; reflexivity. Qed.

Lemma sameFlags_trans c1 c2 c3 :
  sameFlags c1 c2 -> sameFlags c2 c3 -> sameFlags c1 c3.
Proof. unfold sameFlags. intros [? ?] [? ?]. split; congruence. Qed.

Lemma quiet_refl P st : quiet P st st.
Proof.
  split; [apply emits_refl |].
  split; [apply sameSetup_refl | apply sameFlags_refl].
Qed.

Lemma quiet_trans P st1 st2 st3 :
  quiet P st1 st2 -> quiet P st2 st3 -> quiet P st1 st3.
Proof.
  intros (E1 & S1 & F1) (E2 & S2 & F2).
  split; [eapply emits_trans; eassumption |].
  split; [eapply sameSetup_trans; eassumption
         | eapply sameFlags_trans; eassumption].
Qed.

Lemma emitEdge_flags st e : sameFlags (fst st) (fst (emitEdge st e)).
Proof. destruct st as [c g]. split; reflexivity. Qed.

Lemma emitEdge_quiet (P : Edge -> Prop) st e :
  P e -> quiet P st (emitEdge st e).
Proof.
  intros He. split; [apply emitEdge_emits; exact He |].
  split; [apply emitEdge_setup |]. destruct st as [c g]. split; reflexivity.
Qed.

Lemma addNode_quiet P st n : quiet P st (addNode st n).
Proof.
  split; [apply addNode_emits |].
  split; [apply sameSetup_refl | apply sameFlags_refl].
Qed.

Lemma AddRightsToGraph_flags st elementID rights :
  sameFlags (fst st) (fst (AddRightsToGraph st elementID rights)).
Proof.
  unfold AddRightsToGraph. destruct rights as [m |];
    [| apply sameFlags_refl].
  revert st. induction (map_to_list m) as [| [sid kinds] l IH];
    intros st; simpl.
  - apply sameFlags_refl.
  - eapply sameFlags_trans; [| apply IH].
    clear IH. revert st.
    induction kinds as [| kind kinds IHk]; intros st; simpl.
    + apply sameFlags_refl.
    + eapply sameFlags_trans; [| apply IHk].
      destruct st as [c g]. split; reflexivity.
Qed.

(** Rights whose edges to [elementID] all satisfy [P]. *)
Lemma AddRightsToGraph_quiet (P : Edge -> Prop) st elementID rights :
  (forall (m : gmap string (list string)) (sid : string)
          (kinds : list string) (kind : string),
      rights = Some m -> m !! sid = Some kinds -> In kind kinds ->
      P (NewEdge sid elementID kind)) ->
  quiet P st (AddRightsToGraph st elementID rights).
Proof.
  intros Hp. split; [apply AddRightsToGraph_emits; exact Hp |].
  split; [apply AddRightsToGraph_setup | apply AddRightsToGraph_flags].
Qed.

Lemma walkPath_flags (entries : list PathEntry) :
  forall parentID st,
    sameFlags (fst st) (fst (snd (walkPath entries parentID st))).
Proof.
  induction entries as [| entry entries IH]; intros parentID st; simpl.
  - apply sameFlags_refl.
  - eapply sameFlags_trans; [| apply IH].
    destruct (decide _); [apply sameFlags_refl |].
    eapply sameFlags_trans; [| apply emitEdge_flags].
    eapply sameFlags_trans; [| apply AddRightsToGraph_flags].
    destruct st as [c g]. split; reflexivity.
Qed.

Lemma table_kind_noScaffold (sid elementID kind : string) :
  In kind (map fst (smb.ShareRightsMapping ++ smb.NTFSRightsMapping)) ->
  noScaffold (NewEdge sid elementID kind).
Proof.
  intros Hin. unfold noScaffold. cbn [Kind NewEdge].
  split; intros ->; revert Hin; vm_compute; intuition discriminate.
Qed.

Lemma tableRights_noScaffold (rights : ShareRights) (elementID : string) :
  tableRights rights ->
  forall (m : gmap string (list string)) (sid : string)
         (kinds : list string) (kind : string),
    rights = Some m -> m !! sid = Some kinds -> In kind kinds ->
    noScaffold (NewEdge sid elementID kind).
Proof.
  intros Htable m sid kinds kind -> Hlook Hin.
  apply table_kind_noScaffold. exact (Htable sid kinds Hlook kind Hin).
Qed.

Lemma Contains_noScaffold (parentID id : string) :
  noScaffold (NewEdge parentID id "Contains").
Proof. split; discriminate. Qed.

Lemma edgesOfKind_emits (kind : string) (P : Edge -> Prop) st st' :
  (forall e, P e -> Kind e <> kind) ->
  emits P st st' ->
  edgesOfKind kind (snd st') = edgesOfKind kind (snd st).
Proof.
  intros Hp (es & ns & E & _ & _ & _ & F & _).
  unfold edgesOfKind. rewrite E, List.filter_app.
  rewrite (filter_none _ es); [apply app_nil_r |].
  intros e He. apply String.eqb_neq, Hp.
  rewrite List.Forall_forall in F. exact (F e He).
Qed.

Lemma scaffoldCounted_quiet st st' :
  quiet noScaffold st st' -> scaffoldCounted st -> scaffoldCounted st'.
Proof.
  intros (E & _ & [Fh Fs]) [Hh Hs]. unfold scaffoldCounted.
  rewrite (edgesOfKind_emits "HostsNetworkShare" noScaffold st st')
    by (try assumption; intros e [? ?]; assumption).
  rewrite (edgesOfKind_emits "HasNetworkShare" noScaffold st st')
    by (try assumption; intros e [? ?]; assumption).
  rewrite Fh, Fs. split; assumption.
Qed.

Lemma walkPath_quiet (P : Edge -> Prop) (entries : list PathEntry) :
  (forall parentID id : string, P (NewEdge parentID id "Contains")) ->
  (forall (entry : PathEntry) (m : gmap string (list string))
          (sid : string) (kinds : list string) (kind : string),
      In entry entries -> Rights entry = Some m ->
      m !! sid = Some kinds -> In kind kinds ->
      P (NewEdge sid (ID (EntryNode entry)) kind)) ->
  forall (parentID : string) (st : OpenGraphContext * OpenGraph),
    quiet P st (snd (walkPath entries parentID st)).
Proof.
  intros Hc Hr parentID st.
  split; [apply walkPath_emits; assumption |].
  split; [apply walkPath_setup | apply walkPath_flags].
Qed.

(** A flush keeps the scaffold edges counted by the flags. *)
Lemma AddPathToGraph_scaffold (st : OpenGraphContext * OpenGraph) :
  tableContext (fst st) ->
  scaffoldCounted st ->
  scaffoldCounted (AddPathToGraph st)
  /\ sameSetup (fst st) (fst (AddPathToGraph st)).
Proof.
  intros (HshareR & HelemR & Hpath) Hinv.
  unfold AddPathToGraph.
  destruct (host (fst st)) as [h |] eqn:Hh;
    [| split; [exact Hinv | apply sameSetup_refl]].
  (* host part *)
  set (st1 := if hostEdgeEmitted (fst st) then st else _).
  assert (scaffoldCounted st1 /\ sameSetup (fst st) (fst st1)) as [Hinv1 Hs1].
  { unfold st1. destruct (hostEdgeEmitted (fst st)) eqn:Hflag.
    - split; [exact Hinv | apply sameSetup_refl].
    - destruct st as [c g]. unfold scaffoldCounted in Hinv.
      cbn [fst snd] in *.
      destruct Hinv as [Hhost Hshare]. rewrite Hflag in Hhost.
      pose proof (edgesOfKind_emits "HostsNetworkShare" (fun _ => False)
                    (markHostEmitted c, g)
                    (addNode (markHostEmitted c, g) h)
                    ltac:(intros e [])
                    (addNode_emits _ _ _)) as Eh.
      pose proof (edgesOfKind_emits "HasNetworkShare" (fun _ => False)
                    (markHostEmitted c, g)
                    (addNode (markHostEmitted c, g) h)
                    ltac:(intros e [])
                    (addNode_emits _ _ _)) as Es.
      cbn [fst snd] in Eh, Es.
      split; [| repeat split].
      unfold scaffoldCounted, emitEdge, edgesOfKind in *.
      cbn [fst snd addNode edgeFile AddEdgeWithoutValidation AddEdge
               hostEdgeEmitted hostShareEmitted markHostEmitted] in *.
      rewrite !List.filter_app, Eh, Es. cbn.
      rewrite app_nil_r, len_app. change (len [_]) with 1.
      cbn [Z.b2z] in *. split; [lia | exact Hshare]. }
  clearbody st1.
  pose proof Hs1 as (Hhost1 & Hshare1 & HshareR1 & Hpath1 & Helem1 & HelemR1).
  destruct (share (fst st1)) as [s0 |] eqn:Hs;
    [| split; [exact Hinv1 | exact Hs1]].
  (* share part *)
  set (st2 := if hostShareEmitted (fst st1) then st1 else _).
  assert (scaffoldCounted st2 /\ sameSetup (fst st1) (fst st2)) as [Hinv2 Hs2].
  { unfold st2. destruct (hostShareEmitted (fst st1)) eqn:Hflag.
    - split; [exact Hinv1 | apply sameSetup_refl].
    - destruct st1 as [c g]. unfold scaffoldCounted in Hinv1.
      cbn [fst snd] in *.
      destruct Hinv1 as [Hhost Hshare]. rewrite Hflag in Hshare.
      assert (quiet noScaffold (markShareEmitted c, g)
                    (AddRightsToGraph (addNode (markShareEmitted c, g) s0)
                                      (ID s0) (shareRights c))) as Hq.
      { eapply quiet_trans; [apply addNode_quiet |].
        apply AddRightsToGraph_quiet, tableRights_noScaffold.
        rewrite HshareR1. exact HshareR. }
      destruct Hq as (He & Hsetup & [Fh Fs]).
      pose proof (edgesOfKind_emits "HostsNetworkShare" noScaffold _ _
                    ltac:(intros e [? ?]; assumption) He) as Eh.
      pose proof (edgesOfKind_emits "HasNetworkShare" noScaffold _ _
                    ltac:(intros e [? ?]; assumption) He) as Es.
      cbn [fst snd] in Eh, Es, Fh, Fs, Hsetup.
      split.
      + unfold scaffoldCounted.
        destruct (AddRightsToGraph _ _ _) as [c' g'].
        unfold emitEdge, edgesOfKind in *.
        cbn [fst snd edgeFile AddEdgeWithoutValidation AddEdge
                 hostEdgeEmitted hostShareEmitted markShareEmitted] in *.
        rewrite !List.filter_app, Eh, Es, Fh, Fs. cbn.
        rewrite app_nil_r, len_app. change (len [_]) with 1.
        cbn [Z.b2z] in *. split; [exact Hhost | lia].
      + eapply sameSetup_trans; [| apply emitEdge_setup].
        exact Hsetup. }
  clearbody st2.
  pose proof Hs2 as (Hhost2 & Hshare2 & HshareR2 & Hpath2 & Helem2 & HelemR2).
  (* path walk *)
  pose proof (walkPath_quiet noScaffold (path (fst st2))
                Contains_noScaffold) as Hwalk.
  specialize (Hwalk ltac:(intros entry m sid kinds kind Hin;
                          apply tableRights_noScaffold, Hpath;
                          rewrite <- Hpath1, <- Hpath2; exact Hin)
                    (ID s0) st2).
  destruct (walkPath (path (fst st2)) (ID s0) st2) as [parentID st3].
  cbn [snd] in Hwalk.
  pose proof (scaffoldCounted_quiet _ _ Hwalk Hinv2) as Hinv3.
  destruct Hwalk as (_ & Hs3 & _).
  pose proof Hs3 as (Hhost3 & Hshare3 & HshareR3 & Hpath3 & Helem3 & HelemR3).
  assert (sameSetup (fst st) (fst st3)) as Hs03.
  { eapply sameSetup_trans; [exact Hs1 |].
    eapply sameSetup_trans; [exact Hs2 | exact Hs3]. }
  (* element *)
  destruct (element (fst st3)) as [e |] eqn:He.
  - assert (quiet noScaffold st3
                  (emitEdge (AddRightsToGraph (addNode st3 e) (ID e)
                                              (elementRights (fst (addNode st3 e))))
                            (NewEdge parentID (ID e) "Contains"))) as Hq.
    { eapply quiet_trans; [| apply emitEdge_quiet, Contains_noScaffold].
      eapply quiet_trans; [apply addNode_quiet |].
      apply AddRightsToGraph_quiet, tableRights_noScaffold.
      cbn [addNode fst]. rewrite HelemR3, HelemR2, HelemR1. exact HelemR. }
    split; [exact (scaffoldCounted_quiet _ _ Hq Hinv3) |].
    destruct Hq as (_ & Hs4 & _).
    eapply sameSetup_trans; [exact Hs03 | exact Hs4].
  - split; [exact Hinv3 | exact Hs03].
Qed.


Lemma tableRights_empty : tableRights (Some ∅).
Proof. intros sid kinds H. rewrite lookup_empty in H. discriminate. Qed.

Lemma tableContext_setup (c c' : OpenGraphContext) :
  sameSetup c c' -> tableContext c -> tableContext c'.
Proof.
  intros (_ & _ & Hs & Hp & _ & He) (Ts & Te & Tp).
  unfold tableContext. rewrite Hs, He, Hp. auto.
Qed.

Lemma In_removelast {A} (x : A) (l : list A) :
  In x (removelast l) -> In x l.
Proof.
  induction l as [| a l IH]; [intros [] |].
  destruct l as [| b l]; [intros [] |].
  intros [<- | Hin]; [left; reflexivity | right; apply IH; exact Hin].
Qed.

Lemma tableContext_setter (st : OpenGraphContext * OpenGraph)
      (op : ContextOp) :
  op <> OpAddPathToGraph -> opFromTables op ->
  tableContext (fst st) -> tableContext (fst (applyOp st op)).
Proof.
  intros Hop Hfrom (Ts & Te & Tp). unfold tableContext.
  destruct op; try contradiction; cbn [applyOp fst snd opFromTables] in *;
    try (split; [| split]; assumption).
  - (* PushPath *)
    split; [assumption |]. split; [assumption |].
    cbn. intros entry Hin. apply in_app_iff in Hin as [Hin | [<- | []]];
      [apply Tp; exact Hin | exact Hfrom].
  - (* PopPath *)
    unfold PopPath. destruct (path (fst st)) as [| e l] eqn:Hpath.
    + split; [| split]; try assumption. rewrite Hpath. exact Tp.
    + unfold setPath. cbn [shareRights elementRights path].
      split; [assumption |]. split; [assumption |].
      intros entry Hin. apply Tp, In_removelast. exact Hin.
  - (* ClearPath *)
    cbn. split; [assumption |]. split; [assumption |]. intros ? [].
  - (* SetElementRights *)
    cbn. split; [assumption |]. split; [| assumption].
    destruct rights; [exact Hfrom | apply tableRights_empty].
  - (* ClearElement *)
    cbn. split; [assumption |]. split; [apply tableRights_empty | assumption].
  - (* SetDirectoryRights *)
    unfold SetDirectoryRights.
    destruct rights as [m |]; [| split; [| split]; assumption].
    destruct (rev (path (fst st))) as [| lastEntry before] eqn:Hrev;
      [split; [| split]; assumption |].
    cbn. split; [assumption |]. split; [assumption |].
    intros entry Hin. apply in_app_iff in Hin as [Hin | [<- | []]];
      [| exact Hfrom].
    apply Tp. apply in_rev. rewrite Hrev. right.
    apply in_rev in Hin. exact Hin.
Qed.

(** X21: the scaffold of a share is written once.  After any sequence
    of calls on a new context over a new store, with rights that come
    from the two mask tables, the store holds one [HostsNetworkShare]
    edge if the context has flushed its host and none otherwise, and one
    [HasNetworkShare] edge if it has flushed its share and none
    otherwise; so at most one of each, however often [AddPathToGraph] is
    called. *)
Theorem scaffold_edges_once (sourceKind : string) (ops : list ContextOp) :
  Forall opFromTables ops ->
  len (edgesOfKind "HostsNetworkShare" (snd (runOps sourceKind ops)))
  = Z.b2z (hostEdgeEmitted (fst (runOps sourceKind ops)))
  /\ len (edgesOfKind "HasNetworkShare" (snd (runOps sourceKind ops)))
     = Z.b2z (hostShareEmitted (fst (runOps sourceKind ops)))
  /\ len (edgesOfKind "HostsNetworkShare" (snd (runOps sourceKind ops))) <= 1
  /\ len (edgesOfKind "HasNetworkShare" (snd (runOps sourceKind ops))) <= 1.
Proof.
  intros Hops.
  assert (forall st : OpenGraphContext * OpenGraph,
             tableContext (fst st) /\ scaffoldCounted st ->
             tableContext (fst (fold_left applyOp ops st))
             /\ scaffoldCounted (fold_left applyOp ops st)) as Hrun.
  { induction Hops as [| op ops Hop _ IH]; intros st Hst; cbn [fold_left];
      [exact Hst |].
    apply IH. destruct Hst as [Htable Hcounted].
    destruct (ContextOp_eq_flush op) as [-> | Hsetter].
    - cbn [applyOp].
      destruct (AddPathToGraph_scaffold st Htable Hcounted) as [Hc Hs].
      split; [exact (tableContext_setup _ _ Hs Htable) | exact Hc].
    - split; [apply tableContext_setter; assumption |].
      destruct (applyOp_setter st op Hsetter) as (Hstore & _ & [Fh Fs]).
      destruct Hcounted as [Hh Hsh].
      unfold scaffoldCounted. rewrite Hstore, Fh, Fs. split; assumption. }
  destruct (Hrun (NewOpenGraphContext, NewOpenGraph sourceKind))
    as [_ [Hh Hs]].
  { split.
    - split; [apply tableRights_empty |].
      split; [apply tableRights_empty | intros ? []].
    - split; reflexivity. }
  fold (runOps sourceKind ops) in Hh, Hs.
  split; [exact Hh |]. split; [exact Hs |].
  rewrite Hh, Hs.
  destruct (hostEdgeEmitted _), (hostShareEmitted _); cbn; lia.
Qed.

Lemma scaffold_edges_once_witness :
  Forall opFromTables share_ops
  /\ len (edgesOfKind "HostsNetworkShare" (snd (runOps "ShareHound" share_ops)))
     = Z.b2z (hostEdgeEmitted (fst (runOps "ShareHound" share_ops)))
  /\ len (edgesOfKind "HasNetworkShare" (snd (runOps "ShareHound" share_ops)))
     = Z.b2z (hostShareEmitted (fst (runOps "ShareHound" share_ops)))
  /\ len (edgesOfKind "HostsNetworkShare"
                      (snd (runOps "ShareHound" share_ops))) <= 1
  /\ len (edgesOfKind "HasNetworkShare"
                      (snd (runOps "ShareHound" share_ops))) <= 1.
Proof.
  assert (Forall opFromTables share_ops) as Hops.
  { unfold share_ops.
    repeat (apply List.Forall_cons;
            [first [exact I | apply tableRights_empty] |]).
    apply List.Forall_nil. }
  split; [exact Hops |].
  apply (scaffold_edges_once "ShareHound" share_ops). exact Hops.
Defined.


Lemma Join_snoc (l : list string) (x sep : string) :
  Join (l ++ [x]) sep
  = match l with
    | [] => x
    | _ => Join l sep +:+ sep +:+ x
    end.
Proof.
  destruct l as [| p rest]; [reflexivity |].
  cbn [Join app]. rewrite fold_left_app. reflexivity.
Qed.

Lemma append_not_empty (s t : string) :
  s <> EmptyString -> s +:+ t <> EmptyString.
Proof. destruct s; [congruence | discriminate]. Qed.

Lemma Join_not_empty (l : list string) (sep : string) :
  l <> [] -> Forall (fun p => p <> EmptyString) l ->
  Join l sep <> EmptyString.
Proof.
  destruct l as [| p rest]; [congruence |].
  intros _ Hall. inversion Hall as [| ? ? Hp _]; subst.
  cbn [Join]. clear Hall. revert p Hp.
  induction rest as [| q rest IH]; intros p Hp; cbn [fold_left];
    [exact Hp |].
  apply IH, append_not_empty, Hp.
Qed.

(** X22: the path stack of a context.  [PopPath] undoes [PushPath] and
    leaves an empty stack alone; [SetDirectoryRights] replaces the rights
    of the entry pushed last, does nothing for nil rights and nothing on
    an empty stack; and the text [GetStringPathFromRoot] gives after a
    push is the text before it when the pushed node has no [name]
    property (or an empty one), the name alone when no entry before it
    had a name, and otherwise the text before it, a backslash and the
    name. *)
Theorem path_stack (c : OpenGraphContext) (n : Node)
        (rights rights' : ShareRights) :
  PopPath (PushPath c n rights) = c
  /\ PopPath (ClearPath c) = ClearPath c
  /\ (rights' <> None ->
      SetDirectoryRights (PushPath c n rights) rights' = PushPath c n rights')
  /\ SetDirectoryRights c None = c
  /\ SetDirectoryRights (ClearPath c) rights' = ClearPath c
  /\ GetStringPathFromRoot (PushPath c n rights)
     = (if String.eqb (GetStringProperty n "name") EmptyString
        then GetStringPathFromRoot c
        else if String.eqb (GetStringPathFromRoot c) EmptyString
             then GetStringProperty n "name"
             else GetStringPathFromRoot c +:+ "\"
                  +:+ GetStringProperty n "name").
Proof.
  split; [| split; [| split; [| split; [| split]]]].
  - unfold PopPath, PushPath. cbn [path setPath].
    destruct (path c ++ [{| EntryNode := n; Rights := rights |}]) eqn:Happ.
    { apply app_eq_nil in Happ. destruct Happ; discriminate. }
    rewrite <- Happ, removelast_last. destruct c; reflexivity.
  - reflexivity.
  - intros Hsome. destruct rights' as [m |]; [| contradiction].
    unfold SetDirectoryRights, PushPath. cbn [path setPath].
    rewrite rev_app_distr. cbn [rev app]. rewrite rev_involutive.
    reflexivity.
  - reflexivity.
  - unfold SetDirectoryRights. destruct rights'; reflexivity.
  - unfold GetStringPathFromRoot, PushPath. cbn [path setPath].
    rewrite map_app, List.filter_app. cbn [map List.filter EntryNode].
    set (names := List.filter _ (map _ (path c))).
    assert (Forall (fun p => p <> EmptyString) names) as Hnames.
    { apply List.Forall_forall. intros p Hp. apply filter_In in Hp.
      destruct Hp as [_ Hp]. intros ->. discriminate. }
    destruct (String.eqb (GetStringProperty n "name") EmptyString) eqn:Hname;
      cbn [negb].
    + rewrite app_nil_r. reflexivity.
    + rewrite Join_snoc. destruct names as [| p rest] eqn:Hl.
      * reflexivity.
      * assert (Join (p :: rest) "\" <> EmptyString) as Hne
          by (apply Join_not_empty; [discriminate | exact Hnames]).
        apply String.eqb_neq in Hne. rewrite Hne. reflexivity.
Qed.


Lemma AddPathToGraph_setup (st : OpenGraphContext * OpenGraph) :
  sameSetup (fst st) (fst (AddPathToGraph st)).
Proof.
  unfold AddPathToGraph.
  destruct (host (fst st)) as [h |]; [| apply sameSetup_refl].
  set (st1 := if hostEdgeEmitted (fst st) then st else _).
  assert (sameSetup (fst st) (fst st1)) as Hs1.
  { unfold st1. destruct (hostEdgeEmitted (fst st)); [apply sameSetup_refl |].
    destruct st as [c g]. repeat split. }
  clearbody st1. eapply sameSetup_trans; [exact Hs1 |]. clear Hs1.
  destruct (share (fst st1)) as [s0 |]; [| apply sameSetup_refl].
  set (st2 := if hostShareEmitted (fst st1) then st1 else _).
  assert (sameSetup (fst st1) (fst st2)) as Hs2.
  { unfold st2. destruct (hostShareEmitted (fst st1));
      [apply sameSetup_refl |].
    eapply sameSetup_trans; [| apply emitEdge_setup].
    eapply sameSetup_trans; [| apply AddRightsToGraph_setup].
    destruct st1 as [c g]. repeat split. }
  clearbody st2. eapply sameSetup_trans; [exact Hs2 |]. clear Hs2.
  pose proof (walkPath_setup (path (fst st2)) (ID s0) st2) as Hs3.
  destruct (walkPath (path (fst st2)) (ID s0) st2) as [parentID st3].
  cbn [snd] in Hs3. eapply sameSetup_trans; [exact Hs3 |]. clear Hs3.
  destruct (element (fst st3)) as [e |]; [| apply sameSetup_refl].
  eapply sameSetup_trans; [| apply emitEdge_setup].
  eapply sameSetup_trans; [| apply AddRightsToGraph_setup].
  apply sameSetup_refl.
Qed.

Lemma tableRights_noContains (rights : ShareRights) :
  tableRights rights -> noContains rights.
Proof.
  destruct rights as [m |]; [| exact (fun _ => I)].
  intros Htable sid kinds Hlook Hin.
  specialize (Htable sid kinds Hlook _ Hin).
  revert Htable. vm_compute. intuition discriminate.
Qed.

Lemma directoriesOnPathOnly_setup isDir (c c' : OpenGraphContext) :
  sameSetup c c' ->
  directoriesOnPathOnly isDir c -> directoriesOnPathOnly isDir c'.
Proof.
  intros (_ & _ & Hs & Hp & He & Hr) (Dp & De & Ds & Dr).
  unfold directoriesOnPathOnly. rewrite Hs, Hp, He, Hr. auto.
Qed.

Lemma directoriesOnPathOnly_setter isDir
      (st : OpenGraphContext * OpenGraph) (op : ContextOp) :
  op <> OpAddPathToGraph -> opFromTables op -> opKeepsDirectories isDir op ->
  directoriesOnPathOnly isDir (fst st) ->
  directoriesOnPathOnly isDir (fst (applyOp st op))
  /\ emittedPathNodes (fst (applyOp st op)) = emittedPathNodes (fst st).
Proof.
  intros Hop Hfrom Hkeep (Dp & De & Ds & Dr).
  assert (noContains (Some ∅)) as Hempty
    by (intros sid kinds H; rewrite lookup_empty in H; discriminate).
  unfold directoriesOnPathOnly.
  destruct op; try contradiction;
    cbn [applyOp fst snd opFromTables opKeepsDirectories] in *.
  - (* SetHost *) split; [| reflexivity]. repeat split; auto; apply Dp; auto.
  - (* SetShare *) split; [| reflexivity]. repeat split; auto; apply Dp; auto.
  - (* SetShareRights *)
    split; [| reflexivity]. cbn.
    split; [exact Dp |]. split; [exact De |].
    split; [apply tableRights_noContains; exact Hfrom | exact Dr].
  - (* PushPath *)
    split; [| reflexivity]. cbn.
    split; [| split; [exact De | split; [exact Ds | exact Dr]]].
    intros entry Hin. apply in_app_iff in Hin as [Hin | [<- | []]];
      [apply Dp; exact Hin |].
    split; [exact Hkeep | apply tableRights_noContains; exact Hfrom].
  - (* PopPath *)
    unfold PopPath. destruct (path (fst st)) as [| e l] eqn:Hpath.
    + split; [| reflexivity]. rewrite Hpath. auto.
    + split; [| reflexivity]. unfold setPath.
      cbn [shareRights elementRights path element].
      split; [| split; [exact De | split; [exact Ds | exact Dr]]].
      intros entry Hin. apply Dp, In_removelast. exact Hin.
  - (* ClearPath *)
    split; [| reflexivity]. cbn.
    split; [intros ? [] | split; [exact De | split; [exact Ds | exact Dr]]].
  - (* SetElement *)
    split; [| reflexivity]. cbn.
    split; [exact Dp |]. split; [| split; [exact Ds | exact Dr]].
    intros e He. injection He as <-. exact Hkeep.
  - (* SetElementRights *)
    split; [| reflexivity]. cbn.
    split; [exact Dp |]. split; [exact De |]. split; [exact Ds |].
    destruct rights;
      [apply (tableRights_noContains (Some g)); exact Hfrom | exact Hempty].
  - (* ClearElement *)
    split; [| reflexivity]. cbn.
    split; [exact Dp |]. split; [discriminate |].
    split; [exact Ds | exact Hempty].
  - (* SetDirectoryRights *)
    unfold SetDirectoryRights.
    destruct rights as [m |]; [| split; [| reflexivity]; auto].
    destruct (rev (path (fst st))) as [| lastEntry before] eqn:Hrev;
      [split; [| reflexivity]; auto |].
    split; [| reflexivity]. cbn.
    split; [| split; [exact De | split; [exact Ds | exact Dr]]].
    assert (forall entry, In entry (lastEntry :: before) ->
                          In entry (path (fst st))) as Hback.
    { intros entry Hin. apply in_rev. rewrite Hrev. exact Hin. }
    intros entry Hin. apply in_app_iff in Hin as [Hin | [<- | []]].
    + apply Dp, Hback. right. apply in_rev in Hin. exact Hin.
    + cbn [EntryNode Rights]. split.
      * apply (Dp lastEntry), Hback. left. reflexivity.
      * apply (tableRights_noContains (Some m)). exact Hfrom.
Qed.

(** X23: when a directory gets a single [Contains] edge.  After any
    sequence of calls on a new context over a new store in which only
    directories are pushed on the path stack, no directory is made the
    current element, and the rights come from the two mask tables, every
    directory has at most one [Contains] edge into it, however often
    [AddPathToGraph] is called. *)
Theorem directories_linked_once
        (isDir : string -> Prop) (sourceKind : string)
        (ops : list ContextOp) :
  Forall opFromTables ops ->
  Forall (opKeepsDirectories isDir) ops ->
  forall d : string,
    isDir d -> len (linksTo (snd (runOps sourceKind ops)) d) <= 1.
Proof.
  intros Htables Hkeep.
  assert (forall st : OpenGraphContext * OpenGraph,
             reachable isDir st /\ directoriesOnPathOnly isDir (fst st) ->
             reachable isDir (fold_left applyOp ops st)) as Hrun.
  { revert Hkeep.
    induction Htables as [| op ops Hop _ IH]; intros Hkeep st Hst;
      cbn [fold_left]; [apply Hst |].
    inversion Hkeep as [| ? ? Hk Hkeep']; subst.
    apply IH; [exact Hkeep' |]. destruct Hst as [Hreach Hdirs].
    destruct (ContextOp_eq_flush op) as [-> | Hsetter].
    - cbn [applyOp]. destruct st as [c g]. split.
      + apply reach_flush; assumption.
      + eapply directoriesOnPathOnly_setup; [| exact Hdirs].
        apply (AddPathToGraph_setup (c, g)).
    - destruct (directoriesOnPathOnly_setter isDir st op Hsetter Hop Hk Hdirs)
        as [Hdirs' Hsame].
      split; [| exact Hdirs'].
      destruct (applyOp_setter st op Hsetter) as (Hstore & _ & _).
      destruct st as [c g]. destruct (applyOp (c, g) op) as [c' g'].
      cbn [fst snd] in *. subst g'.
      apply (reach_set isDir c c' g); assumption. }
  intros d Hd. apply (directory_linked_once isDir); [| exact Hd].
  apply Hrun. split; [apply reach_new |].
  split; [intros ? [] |]. split; [discriminate |].
  split; intros sid kinds H; rewrite lookup_empty in H; discriminate.
Qed.

Lemma directories_linked_once_witness :
  Forall opFromTables file_ops
  /\ Forall (opKeepsDirectories (fun d => d = ID dirNode)) file_ops
  /\ ID dirNode = ID dirNode
  /\ len (linksTo (snd (runOps "ShareHound" file_ops)) (ID dirNode)) <= 1.
Proof.
  assert (Forall opFromTables file_ops) as Htables.
  { unfold file_ops.
    repeat (apply List.Forall_cons;
            [first [exact I | apply tableRights_empty] |]).
    apply List.Forall_nil. }
  assert (Forall (opKeepsDirectories (fun d => d = ID dirNode)) file_ops)
    as Hkeep.
  { unfold file_ops.
    repeat (apply List.Forall_cons;
            [first [exact I | reflexivity | discriminate] |]).
    apply List.Forall_nil. }
  split; [exact Htables |]. split; [exact Hkeep |]. split; [reflexivity |].
  apply (directories_linked_once (fun d => d = ID dirNode)
                                 "ShareHound" file_ops Htables Hkeep).
  reflexivity.
Defined.

End ContextMore.
